(** * FlashX / FlashGraph: top-K local scan, weakly connected components,
      the overlap application, [create_file] and the k-means iterations

    A shallow embedding of

    - [apps/scan-statistics/topK_scan_graph.cpp]: the degree scheduler,
      [global_max], [scan_collection], [topK_scan_vertex] (its pruning entry
      points, its estimate and [finding_triangles_end]) and [main];
    - [flash-graph/libgraph-algs/wcc.cpp]: [wcc_vertex], [save_cid_query]
      and [compute_wcc];
    - [flash-graph/overlap/overlap.cpp]: [unique_merge],
      [get_unique_neighbors], [get_common_vertices], [get_union_vertices],
      [intersection_set] and [overlap_vertex];
    - [create_file.c]: the size argument and the loop that writes the file;
    - [flash-graph/matrix/min-tri-kmeans.cpp]: the iterations of
      [compute_min_kmeans].

    Integers are [Z]; the wrap-around of [size_t] (64 bits), of
    [vertex_id_t] (32 bits, unsigned) and of [int] (32 bits, signed) is
    written out where the code computes with them.  Vectors are lists,
    indexed with stdpp's lookup; an access outside the vector has no defined
    result in C++ and is [None] here. *)

From Stdlib Require Import ZArith Lia Ascii.
From stdpp Require Import base option list sets sorting relations.
From Equations Require Import Equations.

Open Scope Z_scope.

(* stdpp's solvers clear hypotheses that may be gone already. *)
Set Warnings "-clear-no-such-hyp".

(** ** Machine integers *)

Abbreviation vertex_id_t := Z (only parsing).
Abbreviation vsize_t := Z (only parsing).
Abbreviation size_t := Z (only parsing).

Definition UINT_MAX : Z := 2 ^ 32 - 1.
Definition INT_MAX : Z := 2 ^ 31 - 1.

(** Reduction of a mathematical result to [size_t]. *)
Definition to_size_t (x : Z) : size_t := x mod 2 ^ 64.

(** Conversion to [unsigned int] ([vertex_id_t]). *)
Definition to_uint (x : Z) : Z := x mod 2 ^ 32.

(** Conversion to [int]: the value modulo [2^32], read as two's complement. *)
Definition to_int (x : Z) : Z :=
  let r := x mod 2 ^ 32 in if r <=? INT_MAX then r else r - 2 ^ 32.

Definition size_t_add (a b : size_t) : size_t := to_size_t (a + b).
Definition size_t_mul (a b : size_t) : size_t := to_size_t (a * b).

(** A vector subscript [v[i]] with [i] converted to [size_t]. *)
Definition subscript {A} (v : list A) (i : Z) : option A :=
  v !! Z.to_nat (to_size_t i).

(** ** [std::sort]

    The C++ library only promises that the range is rearranged so that no
    later element compares before an earlier one, provided the comparison
    is a strict weak ordering; the order of equivalent elements is not
    fixed.  The model is therefore any function meeting that contract. *)

Record strict_weak_ordering {A} (comp : A -> A -> bool) : Prop := {
  swo_irrefl : forall a, comp a a = false;
  swo_trans : forall a b c, comp a b = true -> comp b c = true -> comp a c = true;
  swo_incomp : forall a b c,
    comp a b = false -> comp b a = false ->
    comp b c = false -> comp c b = false ->
    comp a c = false /\ comp c a = false
}.

(** [sorted_by comp l]: no element of [l] compares before an earlier one. *)
Definition sorted_by {A} (comp : A -> A -> bool) (l : list A) : Prop :=
  StronglySorted (fun a b => comp b a = false) l.

Class StdSort := {
  std_sort : forall {A}, (A -> A -> bool) -> list A -> list A;
  std_sort_perm : forall A (comp : A -> A -> bool) (l : list A),
    std_sort comp l ≡ₚ l;
  std_sort_sorted : forall A (comp : A -> A -> bool) (l : list A),
    strict_weak_ordering comp -> sorted_by comp (std_sort comp l)
}.

(** One implementation of the contract: stdpp's merge sort on the relation
    "does not compare after". *)
Definition not_after {A} (comp : A -> A -> bool) : relation A :=
  fun a b => comp b a = false.

#[local] Instance not_after_dec {A} (comp : A -> A -> bool) (a b : A) :
  Decision (not_after comp a b).
Proof. unfold not_after. apply _. Defined.

Definition merge_std_sort {A} (comp : A -> A -> bool) (l : list A) : list A :=
  merge_sort (not_after comp) l.

(** ** The graph file

    [page_vertex]: a vertex as read from the graph file, its id and its two
    edge lists. *)
Module page_vertex.

Record t := {
  get_id : vertex_id_t;
  in_edges : list vertex_id_t;
  out_edges : list vertex_id_t
}.

Inductive edge_type := IN_EDGE | OUT_EDGE | BOTH_EDGES.

Definition get_num_edges (vertex : t) (type : edge_type) : Z :=
  match type with
  | IN_EDGE => Z.of_nat (length (in_edges vertex))
  | OUT_EDGE => Z.of_nat (length (out_edges vertex))
  | BOTH_EDGES =>
      Z.of_nat (length (in_edges vertex)) + Z.of_nat (length (out_edges vertex))
  end.

(** The range [get_neigh_begin(type), get_neigh_end(type)). *)
Definition get_neigh (vertex : t) (type : edge_type) : list vertex_id_t :=
  match type with
  | IN_EDGE => in_edges vertex
  | OUT_EDGE => out_edges vertex
  | BOTH_EDGES => in_edges vertex ++ out_edges vertex
  end.

End page_vertex.

Export page_vertex(edge_type, IN_EDGE, OUT_EDGE, BOTH_EDGES).

(** ** overlap.cpp: [unique_merge] and [get_unique_neighbors] *)

Module overlap.

(** The inner loop
    [while (it != last && v == *it) { v = merge(v, *it); ++it; }]:
    the final [v] and the remaining range. *)
Fixpoint skip_dups (merge : Z -> Z -> Z) (v : Z) (it : list Z) : Z * list Z :=
  match it with
  | x :: it' => if v =? x then skip_dups merge (merge v x) it' else (v, it)
  | [] => (v, [])
  end.

(** [if (!skip(v)) *(result++) = v;] in front of the values written later. *)
Definition emit (skip : Z -> bool) (v : Z) (written : list Z) : list Z :=
  if skip v then written else v :: written.

Lemma skip_dups_length merge v it :
  (length (skip_dups merge v it).2 <= length it)%nat.
Proof.
  revert v; induction it as [|x it IH]; intros v; simpl; [lia|].
  destruct (v =? x); simpl; [specialize (IH (merge v x)); lia | lia].
Qed.

Definition inspect {A} (a : A) : {b | a = b} := exist _ a eq_refl.

(** The two trailing loops [while (it != last) { ... }]: the values they
    write, in order. *)
Equations? drain (skip : Z -> bool) (merge : Z -> Z -> Z) (it : list Z) : list Z
  by wf (length it) lt :=
drain skip merge [] := [];
drain skip merge (x :: it') with inspect (skip_dups merge x it') := {
  | exist _ (v, rest) e := emit skip v (drain skip merge rest) }.
Proof.
  pose proof (skip_dups_length merge x it') as H. rewrite e in H. simpl in *. lia.
Qed.

(** The body of [unique_merge]: the values written through [result], in
    order.  The first loop runs while both ranges are non-empty; when one of
    them is exhausted the two trailing loops run one after the other. *)
Equations? unique_merge_written (skip : Z -> bool) (merge : Z -> Z -> Z)
  (it1 it2 : list Z) : list Z by wf (length it1 + length it2)%nat lt :=
unique_merge_written skip merge (x1 :: r1) (x2 :: r2) with (x2 <? x1) := {
  | true with inspect (skip_dups merge x2 r2) := {
      | exist _ (v, r2') e :=
          emit skip v (unique_merge_written skip merge (x1 :: r1) r2') };
  | false with (x1 <? x2) := {
      | true with inspect (skip_dups merge x1 r1) := {
          | exist _ (v, r1') e :=
              emit skip v (unique_merge_written skip merge r1' (x2 :: r2)) };
      | false with inspect (skip_dups merge (merge x1 x2) r2) := {
          | exist _ (v, r2') e2 with inspect (skip_dups merge v r1) := {
             | exist _ (v', r1') e1 :=
                 emit skip v' (unique_merge_written skip merge r1' r2') } } } };
unique_merge_written skip merge it1 it2 :=
  drain skip merge it1 ++ drain skip merge it2.
Proof.
  - pose proof (skip_dups_length merge x2 r2) as H. rewrite e in H. simpl in *. lia.
  - pose proof (skip_dups_length merge x1 r1) as H. rewrite e in H. simpl in *. lia.
  - pose proof (skip_dups_length merge (merge x1 x2) r2) as H. rewrite e2 in H.
    pose proof (skip_dups_length merge v r1) as H1. rewrite e1 in H1.
    simpl in *. lia.
Qed.

(** [unique_merge]: what is written through the output iterator, and the
    returned [result - result_begin]. *)
Definition unique_merge (it1 it2 : list Z) (skip : Z -> bool)
  (merge : Z -> Z -> Z) : list Z * size_t :=
  let written := unique_merge_written skip merge it1 it2 in
  (written, Z.of_nat (length written)).

Definition skip_self (id : vertex_id_t) : Z -> bool := fun id' => id =? id'.

(** [merge_edge]: [assert(e1 == e2); return e1;].  [unique_merge] calls the
    merger only on a value and an element it has just found equal to it, so
    the assertion is left out. *)
Definition merge_edge (e1 e2 : vertex_id_t) : vertex_id_t := e1.

(** [v.resize(n)] on a vector of ids: new elements are value-initialised. *)
Definition resize (v : list vertex_id_t) (n : Z) : list vertex_id_t :=
  take (Z.to_nat n) v ++ replicate (Z.to_nat n - length v) 0.

(** Writing [written] through an iterator that starts at [v.begin()]:
    defined only while the iterator stays inside the vector. *)
Definition write_from_begin (v written : list vertex_id_t) : option (list vertex_id_t) :=
  if decide (length written <= length v)%nat
  then Some (written ++ drop (length written) v)
  else None.

Definition get_unique_neighbors (vertex : page_vertex.t) (neighbors : list vertex_id_t)
  : option (list vertex_id_t * size_t) :=
  let neighbors := resize neighbors (page_vertex.get_num_edges vertex BOTH_EDGES) in
  let '(written, num_neighbors) :=
    unique_merge (page_vertex.get_neigh vertex IN_EDGE)
      (page_vertex.get_neigh vertex OUT_EDGE)
      (skip_self (page_vertex.get_id vertex)) merge_edge in
  neighbors ← write_from_begin neighbors written;
  Some (resize neighbors num_neighbors, num_neighbors).

(** [get_common_vertices]: the loop from the positions [i] and [j], the
    ranges being what is left of the two vectors from there. *)
Fixpoint common_loop (vertices1 : list vertex_id_t)
  : list vertex_id_t -> size_t -> size_t :=
  fix from_j (vertices2 : list vertex_id_t) (common : size_t) : size_t :=
    match vertices1, vertices2 with
    | x1 :: rest1, x2 :: rest2 =>
        if x1 =? x2 then common_loop rest1 rest2 (size_t_add common 1)
        else if x1 >? x2 then from_j rest2 common
        else common_loop rest1 vertices2 common
    | _, _ => common
    end.

Definition get_common_vertices (vertices1 vertices2 : list vertex_id_t) : size_t :=
  common_loop vertices1 vertices2 0.

Definition skip_none : Z -> bool := fun _ => false.

(** [get_union_vertices]: [unique_merge] into a [null_iterator], which only
    counts, in an [int]; the count has no defined value past [INT_MAX]. *)
Definition get_union_vertices (vertices1 vertices2 : list vertex_id_t)
  : option size_t :=
  let '(_, num_eles) := unique_merge vertices1 vertices2 skip_none merge_edge in
  if num_eles <=? INT_MAX then Some num_eles else None.

End overlap.

(** ** topK_scan_graph.cpp *)

(** The part of [compute_vertex] the scheduler and the filters read. *)
Module compute_vertex.

Record t := {
  get_id : vertex_id_t;
  get_num_edges : vsize_t
}.

End compute_vertex.

(** [graph->get_vertex(id)] on the vertex index, a dense array of vertices;
    an id outside of it has no vertex. *)
Definition get_vertex {V} (graph : list V) (id : vertex_id_t) : option V :=
  if decide (0 <= id) then graph !! Z.to_nat id else None.

Module vertex_size_scheduler.

(** [comp_size]: more edges first. *)
Definition comp_size (v1 v2 : compute_vertex.t) : bool :=
  compute_vertex.get_num_edges v1 >? compute_vertex.get_num_edges v2.

Definition schedule `{StdSort} (graph : list compute_vertex.t)
  (ids : list vertex_id_t) : option (list vertex_id_t) :=
  vertices ← mapM (get_vertex graph) ids;
  let vertices := std_sort comp_size vertices in
  Some (compute_vertex.get_id <$> vertices).

End vertex_size_scheduler.

Module global_max.

(** The object is its [value]; the spin lock guards one check and store. *)
Definition t := size_t.

Definition new (init : size_t) : t := init.

(** [update] run without interference: the new object and the result.  The
    second test is the one between [pthread_spin_lock] and
    [pthread_spin_unlock]. *)
Definition update (new_v : size_t) (value : t) : t * bool :=
  if new_v <=? value then (value, false)
  else if new_v >? value then (new_v, true)
  else (value, false).

Definition get (value : t) : size_t := value.

End global_max.

(** ** [global_max::update] called from several threads

    Each call is two steps: the test [new_v <= value] on the volatile field
    outside the lock, and the test and store between [pthread_spin_lock] and
    [pthread_spin_unlock], which the lock makes one step. *)
Module update_call.

Inductive pc :=
  | before_test
  | before_lock
  | returned (ret : bool).

Record t := {
  new_v : size_t;
  at_pc : pc
}.

Definition new (new_v : size_t) : t := {| new_v := new_v; at_pc := before_test |}.

(** The next step of a call on the shared [value]. *)
Definition step (value : global_max.t) (c : t) : global_max.t * t :=
  match at_pc c with
  | before_test =>
      if new_v c <=? value
      then (value, {| new_v := new_v c; at_pc := returned false |})
      else (value, {| new_v := new_v c; at_pc := before_lock |})
  | before_lock =>
      if new_v c >? value
      then (new_v c, {| new_v := new_v c; at_pc := returned true |})
      else (value, {| new_v := new_v c; at_pc := returned false |})
  | returned _ => (value, c)
  end.

End update_call.

(** The shared object and the calls in progress. *)
Record update_threads := {
  shared_value : global_max.t;
  calls : list update_call.t
}.

(** The call number [i] takes its next step. *)
Definition thread_step (s : update_threads) (i : nat) : update_threads :=
  match calls s !! i with
  | Some c =>
      let '(value, c) := update_call.step (shared_value s) c in
      {| shared_value := value; calls := <[i := c]> (calls s) |}
  | None => s
  end.

(** The steps of a schedule, in order. *)
Definition run_schedule (schedule : list nat) (s : update_threads) : update_threads :=
  foldl thread_step s schedule.

Definition start_updates (init : size_t) (cands : list size_t) : update_threads :=
  {| shared_value := global_max.new init; calls := update_call.new <$> cands |}.

Definition has_returned (c : update_call.t) : Prop :=
  match update_call.at_pc c with update_call.returned _ => True | _ => False end.

Abbreviation vertex_scan := (vertex_id_t * size_t)%type (only parsing).

Module scan_collection.

Record t := {
  sorted : bool;
  scans : list vertex_scan
}.

Definition new : t := {| sorted := false; scans := [] |}.

Definition greater (s1 s2 : vertex_scan) : bool := s1.2 >? s2.2.

(** [get(idx)]: the collection afterwards and [scans[idx]]. *)
Definition get `{StdSort} (idx : Z) (c : t) : t * option vertex_scan :=
  let c :=
    if negb (sorted c)
    then {| sorted := true; scans := std_sort greater (scans c) |}
    else c in
  (c, subscript (scans c) idx).

Definition add (id : vertex_id_t) (scan : size_t) (c : t) : t :=
  {| sorted := false; scans := scans c ++ [(id, scan)] |}.

Definition get_size (c : t) : size_t := Z.of_nat (length (scans c)).

End scan_collection.

(** The two process-wide objects [max_scan] and [known_scans]. *)
Record globals := {
  max_scan : global_max.t;
  known_scans : scan_collection.t
}.

Module topK_scan_vertex.

Import overlap.

(** The state of [scan_vertex] that the entry points of [topK_scan_vertex]
    read and write: the vertex's id and degree, whether its local scan is
    known, and the estimate kept in [local_value]. *)
Record t := {
  get_id : vertex_id_t;
  get_num_edges : vsize_t;
  has_local_scan : bool;
  has_est_local : bool;
  get_est_local : size_t
}.

Definition set_est_local (est : size_t) (v : t) : t :=
  {| get_id := get_id v; get_num_edges := get_num_edges v;
     has_local_scan := has_local_scan v;
     has_est_local := true; get_est_local := est |}.

(** [run(graph)]: the id passed to [request_vertices], if any. *)
Definition run (max_scan : global_max.t) (v : t) : option vertex_id_t :=
  if has_local_scan v then None
  else
    let req_itself :=
      if has_est_local v then get_est_local v >? global_max.get max_scan
      else
        let num_local_edges := get_num_edges v in
        size_t_mul num_local_edges num_local_edges >=? global_max.get max_scan in
    if req_itself then Some (get_id v) else None.

Definition min (a b : size_t) : size_t := if b <? a then b else a.

(** The loop of [get_est_local_scan] over [all_neighbors]. *)
Fixpoint sum_neighbor_edges (graph : list t) (num_neighbors : size_t)
  (all_neighbors : list vertex_id_t) (tot_edges : size_t) : option size_t :=
  match all_neighbors with
  | [] => Some tot_edges
  | n :: rest =>
      v ← get_vertex graph n;
      sum_neighbor_edges graph num_neighbors rest
        (size_t_add tot_edges
           (min (get_num_edges v) (size_t_mul num_neighbors 2)))
  end.

(** [get_est_local_scan(graph, vertex)]: the vertex afterwards and the
    estimate. *)
Definition get_est_local_scan (graph : list t) (vertex : page_vertex.t) (v : t)
  : option (t * size_t) :=
  if has_est_local v then Some (v, get_est_local v)
  else
    let all_neighbors :=
      replicate (Z.to_nat (page_vertex.get_num_edges vertex BOTH_EDGES)) 0 in
    let '(written, num_neighbors) :=
      unique_merge (page_vertex.get_neigh vertex IN_EDGE)
        (page_vertex.get_neigh vertex OUT_EDGE)
        (skip_self (page_vertex.get_id vertex)) merge_edge in
    all_neighbors ← write_from_begin all_neighbors written;
    let all_neighbors := resize all_neighbors num_neighbors in
    tot_edges ← sum_neighbor_edges graph num_neighbors all_neighbors (get_num_edges v);
    let tot_edges := tot_edges / 2 in
    Some (set_est_local tot_edges v, tot_edges).

(** [run_on_itself(graph, vertex)]: the vertex afterwards and whether
    [scan_vertex::run_on_itself] is reached; [None] when the assertion
    fails or a neighbour is not in the index. *)
Definition run_on_itself (max_scan : global_max.t) (graph : list t)
  (vertex : page_vertex.t) (v : t) : option (t * bool) :=
  let num_local_edges := page_vertex.get_num_edges vertex BOTH_EDGES in
  (* assert(num_local_edges == get_num_edges()) *)
  if negb (num_local_edges =? get_num_edges v) then None
  else if num_local_edges =? 0 then Some (v, false)
  else
    '(v, est) ← get_est_local_scan graph vertex v;
    if est <? global_max.get max_scan then Some (v, false)
    else Some (v, true).

(** [finding_triangles_end]: the globals afterwards and whether a new
    maximum is printed. *)
Definition finding_triangles_end (local_scan : size_t) (v : t) (g : globals)
  : globals * bool :=
  let '(m, printed) := global_max.update local_scan (max_scan g) in
  ({| max_scan := m;
      known_scans := scan_collection.add (get_id v) local_scan (known_scans g) |},
   printed).

End topK_scan_vertex.

(** The two filters of [main]. *)
Inductive vertex_filter :=
  | remove_small_filter (min : size_t)
  | remove_small_scan_filter (min : size_t).

Definition keep (f : vertex_filter) (v : compute_vertex.t) : bool :=
  match f with
  | remove_small_filter min => compute_vertex.get_num_edges v >=? min
  | remove_small_scan_filter min =>
      let num_local_edges := compute_vertex.get_num_edges v in
      size_t_mul num_local_edges num_local_edges >=? min
  end.

(** The loops of [main].  [graph->start(filter); graph->wait4complete()] is
    the engine's; it is a parameter here, acting on the engine's own state
    and on the two global objects. *)
Module main.
Section main.

Context `{StdSort}.
Variable graph_engine : Type.
Variable start_wait4complete :
  vertex_filter -> graph_engine * globals -> graph_engine * globals.

Definition topK : size_t := 1.
Definition min_edges : size_t := 1000.

(** [while (known_scans.get_size() < topK) { ... }] *)
Fixpoint first_stage (fuel : nat) (st : graph_engine * globals)
  : option (graph_engine * globals) :=
  match fuel with
  | O => None
  | S fuel =>
      if scan_collection.get_size (known_scans st.2) <? topK then
        let '(graph, g) :=
          start_wait4complete (remove_small_filter min_edges) st in
        first_stage fuel
          (graph, {| max_scan := global_max.new 0; known_scans := known_scans g |})
      else Some st
  end.

(** [known_scans.get(topK - 1).second] *)
Definition topK_scan (g : globals) : option (globals * size_t) :=
  let '(ks, r) := scan_collection.get (to_int (to_size_t (topK - 1))) (known_scans g) in
  s ← r;
  Some ({| max_scan := max_scan g; known_scans := ks |}, s.2).

(** One turn of the [do { ... } while] loop: the state after the pass,
    [prev_topK_scan], and the value the loop condition compares it with. *)
Definition refine_pass (st : graph_engine * globals)
  : option ((graph_engine * globals) * size_t * size_t) :=
  '(g, prev_topK_scan) ← topK_scan st.2;
  let g := {| max_scan := global_max.new prev_topK_scan;
              known_scans := known_scans g |} in
  let '(graph, g) :=
    start_wait4complete (remove_small_scan_filter prev_topK_scan) (st.1, g) in
  '(g, cur) ← topK_scan g;
  Some ((graph, g), prev_topK_scan, cur).

(** [do { ... } while (prev_topK_scan != known_scans.get(topK - 1).second)] *)
Fixpoint second_stage (fuel : nat) (st : graph_engine * globals)
  : option (graph_engine * globals) :=
  match fuel with
  | O => None
  | S fuel =>
      '(st, prev_topK_scan, cur) ← refine_pass st;
      if negb (prev_topK_scan =? cur) then second_stage fuel st
      else Some st
  end.

End main.
End main.

(** The end of [main]: the loop
    [for (size_t i = 0; i < topK; i++) { scan = known_scans.get(i); printf(...) }]
    with [turns] turns left from [i]; the entries printed, in order. *)
Fixpoint print_scans `{StdSort} (turns : nat) (i : size_t) (ks : scan_collection.t)
  : option (list vertex_scan) :=
  match turns with
  | O => Some []
  | S turns =>
      let '(ks, r) := scan_collection.get (to_int i) ks in
      scan ← r;
      printed ← print_scans turns (size_t_add i 1) ks;
      Some (scan :: printed)
  end.

(** [assert(known_scans.get_size() >= topK)] and the loop after it. *)
Definition print_topK `{StdSort} (g : globals) : option (list vertex_scan) :=
  if scan_collection.get_size (known_scans g) >=? main.topK
  then print_scans (Z.to_nat main.topK) 0 (known_scans g)
  else None.

(** ** wcc.cpp *)

Inductive wcc_stage_t := FIND_COMPONENTS | REMOVE_EMPTY.

Module component_message.

(** The message keeps the id in an [int] field. *)
Record t := { id : Z }.

Definition new (id : vertex_id_t) : t := {| id := to_int id |}.

Definition get_id (msg : t) : vertex_id_t := to_uint (id msg).

End component_message.

Module wcc_vertex.

Record t := {
  get_id : vertex_id_t;
  updated : bool;
  empty : bool;
  component_id : vertex_id_t
}.

Definition new (id : vertex_id_t) : t :=
  {| get_id := id; updated := true; empty := false; component_id := id |}.

Definition is_empty (v : t) : bool := empty v.

Definition belong2component (v : t) : bool := negb (component_id v =? UINT_MAX).

Definition get_component_id (v : t) : vertex_id_t := component_id v.

(** What a vertex asks the engine for. *)
Inductive request :=
  | request_vertices (id : vertex_id_t)
  | request_num_edges (id : vertex_id_t).

(** [run(prog)]: the vertex afterwards and its request, if any. *)
Definition run (wcc_stage : wcc_stage_t) (v : t) : t * option request :=
  let id := get_id v in
  match wcc_stage with
  | FIND_COMPONENTS =>
      if updated v then
        ({| get_id := get_id v; updated := false; empty := empty v;
            component_id := component_id v |},
         Some (request_vertices id))
      else (v, None)
  | REMOVE_EMPTY => (v, Some (request_num_edges id))
  end.

(** [run(prog, vertex)]: the messages of [multicast_msg], one for each
    neighbour of [vertex], in edge order. *)
Definition run_on_vertex (v : t) (vertex : page_vertex.t)
  : list (vertex_id_t * component_message.t) :=
  let msg := component_message.new (component_id v) in
  (fun dest => (dest, msg)) <$> page_vertex.get_neigh vertex BOTH_EDGES.

Definition run_on_message (msg : component_message.t) (v : t) : t :=
  if component_message.get_id msg <? component_id v then
    {| get_id := get_id v; updated := true; empty := empty v;
       component_id := component_message.get_id msg |}
  else v.

(** [run_on_num_edges(id, num_edges)], with its [assert(get_id() == id)]
    left out. *)
Definition run_on_num_edges (id : vertex_id_t) (num_edges : vsize_t) (v : t) : t :=
  {| get_id := get_id v; updated := updated v; empty := (num_edges =? 0);
     component_id := component_id v |}.

End wcc_vertex.

Module graph_engine.

(** Modelled from the spec: [graph_engine] ([start_all], [wait4complete],
    [query_on_all]) is declared in graph_engine.h, which is not among the
    sources.  Following sections 2, 4.2, 4.3 and 4.4 of the specification, a
    superstep runs every active vertex, then answers each request by calling
    the requesting vertex back with the page vertex (or the edge count) it
    asked for, then delivers the messages sent during the superstep; a vertex
    that received a message is active in the next superstep, and the run is
    complete when no vertex is active. *)
Record t := {
  vertices : list wcc_vertex.t;
  active : list vertex_id_t
}.

(** In-place update of the vertex [id] of the index. *)
Definition update_vertex (f : wcc_vertex.t -> wcc_vertex.t) (id : vertex_id_t)
  (vs : list wcc_vertex.t) : list wcc_vertex.t :=
  match get_vertex vs id with
  | Some v => <[Z.to_nat id := f v]> vs
  | None => vs
  end.

(** Modelled from the spec: the [run] entry point of every active vertex,
    in schedule order; the requests issued, in order. *)
Fixpoint run_active (stage : wcc_stage_t) (active : list vertex_id_t)
  (vs : list wcc_vertex.t) : list wcc_vertex.t * list wcc_vertex.request :=
  match active with
  | [] => (vs, [])
  | id :: rest =>
      match get_vertex vs id with
      | Some v =>
          let '(v, req) := wcc_vertex.run stage v in
          let '(vs, reqs) := run_active stage rest (<[Z.to_nat id := v]> vs) in
          (vs, option_list req ++ reqs)
      | None => run_active stage rest vs
      end
  end.

(** Modelled from the spec: each request answered by the callback of the
    vertex that issued it (a vertex only ever asks for itself here); the
    messages sent meanwhile, in order. *)
Fixpoint serve (graph : list page_vertex.t) (reqs : list wcc_vertex.request)
  (vs : list wcc_vertex.t)
  : list wcc_vertex.t * list (vertex_id_t * component_message.t) :=
  match reqs with
  | [] => (vs, [])
  | wcc_vertex.request_vertices id :: rest =>
      let sent :=
        match get_vertex vs id, get_vertex graph id with
        | Some v, Some vertex => wcc_vertex.run_on_vertex v vertex
        | _, _ => []
        end in
      let '(vs, msgs) := serve graph rest vs in
      (vs, sent ++ msgs)
  | wcc_vertex.request_num_edges id :: rest =>
      let vs :=
        match get_vertex graph id with
        | Some vertex =>
            update_vertex
              (wcc_vertex.run_on_num_edges id
                 (page_vertex.get_num_edges vertex BOTH_EDGES)) id vs
        | None => vs
        end in
      serve graph rest vs
  end.

(** Modelled from the spec: the messages of a superstep delivered to
    [run_on_message] of their destinations, in the order they were sent. *)
Fixpoint deliver (msgs : list (vertex_id_t * component_message.t))
  (vs : list wcc_vertex.t) : list wcc_vertex.t :=
  match msgs with
  | [] => vs
  | (dest, msg) :: rest =>
      deliver rest (update_vertex (wcc_vertex.run_on_message msg) dest vs)
  end.

(** Modelled from the spec: one superstep. *)
Definition superstep (stage : wcc_stage_t) (graph : list page_vertex.t) (e : t) : t :=
  let '(vs, reqs) := run_active stage (active e) (vertices e) in
  let '(vs, msgs) := serve graph reqs vs in
  {| vertices := deliver msgs vs; active := msgs.*1 |}.

(** Modelled from the spec: [start_all] activates every vertex. *)
Definition start_all (vs : list wcc_vertex.t) : t :=
  {| vertices := vs; active := Z.of_nat <$> seq 0 (length vs) |}.

(** Modelled from the spec: [wait4complete] runs supersteps until no vertex
    is active; [None] when [fuel] supersteps were not enough. *)
Fixpoint wait4complete (fuel : nat) (stage : wcc_stage_t)
  (graph : list page_vertex.t) (e : t) : option (list wcc_vertex.t) :=
  match fuel with
  | O => None
  | S fuel =>
      match active e with
      | [] => Some (vertices e)
      | _ :: _ => wait4complete fuel stage graph (superstep stage graph e)
      end
  end.

(** Modelled from the spec: [query_on_all] runs the query on every vertex. *)
Definition query_on_all {R} (run : wcc_vertex.t -> R -> R)
  (vs : list wcc_vertex.t) (r : R) : R :=
  foldl (fun r v => run v r) r vs.

End graph_engine.

Section compute_wcc.

(** [INVALID_VERTEX_ID] is declared outside the sources; its value plays no
    role below. *)
Variable INVALID_VERTEX_ID : vertex_id_t.

(** [vec->set(id, v)] on an [FG_vector]. *)
Definition FG_vector_set (id : vertex_id_t) (x : vertex_id_t)
  (vec : list vertex_id_t) : list vertex_id_t :=
  if decide (0 <= id) then <[Z.to_nat id := x]> vec else vec.

(** [save_cid_query::run] *)
Definition save_cid_query (wcc_v : wcc_vertex.t) (vec : list vertex_id_t)
  : list vertex_id_t :=
  if negb (wcc_vertex.is_empty wcc_v)
  then FG_vector_set (wcc_vertex.get_id wcc_v) (wcc_vertex.get_component_id wcc_v) vec
  else FG_vector_set (wcc_vertex.get_id wcc_v) INVALID_VERTEX_ID vec.

(** The index built by [NUMA_graph_index<wcc_vertex>::create]: one
    [wcc_vertex] per vertex of the graph, constructed with its id. *)
Definition create_index (graph : list page_vertex.t) : list wcc_vertex.t :=
  (fun i => wcc_vertex.new (Z.of_nat i)) <$> seq 0 (length graph).

(** [compute_wcc]; [fuel] bounds the supersteps of each [wait4complete]. *)
Definition compute_wcc (fuel : nat) (graph : list page_vertex.t)
  : option (list vertex_id_t) :=
  let index := create_index graph in
  (* wcc_stage = FIND_COMPONENTS *)
  vs ← graph_engine.wait4complete fuel FIND_COMPONENTS graph
         (graph_engine.start_all index);
  (* wcc_stage = REMOVE_EMPTY *)
  vs ← graph_engine.wait4complete fuel REMOVE_EMPTY graph
         (graph_engine.start_all vs);
  let vec := replicate (length vs) 0 in
  Some (graph_engine.query_on_all save_cid_query vs vec).

End compute_wcc.

(** ** overlap.cpp: [intersection_set] *)

Module intersection_set.

Record t := {
  num_added : Z;
  set : list vertex_id_t
}.

Definition new : t := {| num_added := 0; set := [] |}.

(** The loop of [add] from the positions [i] and [j], the ranges being what
    is left of [set] and of [copy] from there: the values pushed to
    [new_set], in order. *)
Fixpoint common_loop (set : list vertex_id_t)
  : list vertex_id_t -> list vertex_id_t :=
  fix from_j (copy : list vertex_id_t) : list vertex_id_t :=
    match set, copy with
    | x1 :: rest1, x2 :: rest2 =>
        if x1 =? x2 then x1 :: common_loop rest1 rest2
        else if x1 >? x2 then from_j rest2
        else common_loop rest1 copy
    | _, _ => []
    end.

(** [add]; [num_added++] on an [int] has no defined result at [INT_MAX]. *)
Definition add `{StdSort} (vec : list vertex_id_t) (s : t) : option t :=
  let copy := std_sort Z.ltb vec in
  if num_added s =? INT_MAX then None
  else
    let num_added := num_added s + 1 in
    if num_added =? 1 then Some {| num_added := num_added; set := copy |}
    else Some {| num_added := num_added; set := common_loop (set s) copy |}.

Definition get_size (s : t) : size_t := Z.of_nat (length (set s)).

Definition get (idx : Z) (s : t) : option vertex_id_t := subscript (set s) idx.

End intersection_set.

(** ** overlap.cpp: [overlap_vertex] *)

Module overlap_vertex.

(** The vertex state: its id and [neighborhood], a null pointer until the
    first stage has run. *)
Record t := {
  get_id : vertex_id_t;
  neighborhood : option (list vertex_id_t)
}.

Definition new (id : vertex_id_t) : t := {| get_id := id; neighborhood := None |}.

(** [std::is_sorted]: no element is less than the one before it. *)
Fixpoint is_sorted (l : list vertex_id_t) : bool :=
  match l with
  | x :: rest =>
      match rest with
      | y :: _ => negb (y <? x) && is_sorted rest
      | [] => true
      end
  | [] => true
  end.

(** [std::lower_bound] on a range in which the elements less than [value]
    come first, as they do in a sorted one: the position of the first
    element that is not less than [value]. *)
Fixpoint lower_bound (l : list vertex_id_t) (value : vertex_id_t) : nat :=
  match l with
  | x :: rest => if x <? value then S (lower_bound rest value) else O
  | [] => O
  end.

(** [v.insert(it, x)] with [it] at position [pos]. *)
Definition insert_at (pos : nat) (x : vertex_id_t) (l : list vertex_id_t)
  : list vertex_id_t :=
  take pos l ++ x :: drop pos l.

(** [run_stage1]: the vertex asks for its own edge lists. *)
Definition run_stage1 (v : t) : list vertex_id_t := [get_id v].

(** [run_on_itself]; a failed assertion is [None]. *)
Definition run_on_itself (vertex : page_vertex.t) (v : t) : option t :=
  '(neighborhood, _) ← overlap.get_unique_neighbors vertex [];
  if negb (is_sorted neighborhood) then None
  else
    let it := lower_bound neighborhood (get_id v) in
    if bool_decide (neighborhood !! it = Some (get_id v)) then None
    else
      let neighborhood := insert_at it (get_id v) neighborhood in
      if negb (is_sorted neighborhood) then None
      else Some {| get_id := get_id v; neighborhood := Some neighborhood |}.

(** [run(prog, vertex)], with its assertion. *)
Definition run_on_vertex (vertex : page_vertex.t) (v : t) : option t :=
  if page_vertex.get_id vertex =? get_id v then run_on_itself vertex v else None.

(** A line printed by [run_stage2]: the two ids and the two counts; the
    overlap printed after them is their quotient. *)
Record line := {
  line_v : vertex_id_t;
  line_id : vertex_id_t;
  line_common : size_t;
  line_union : size_t
}.

(** [run_stage2] over what is left of [overlap_vertices]: the lines printed,
    in order.  Reading through a null [neighborhood] or of a vertex that
    the index does not have is [None]. *)
Fixpoint run_stage2 (graph : list t) (overlap_vertices : list vertex_id_t)
  (v : t) : option (list line) :=
  match overlap_vertices with
  | [] => Some []
  | id :: rest =>
      if id =? get_id v then run_stage2 graph rest v
      else
        neigh ← get_vertex graph id;
        neighborhood1 ← neighborhood v;
        neighborhood2 ← neighborhood neigh;
        let common := overlap.get_common_vertices neighborhood1 neighborhood2 in
        vunion ← overlap.get_union_vertices neighborhood1 neighborhood2;
        lines ← run_stage2 graph rest v;
        Some ({| line_v := get_id v; line_id := id;
                 line_common := common; line_union := vunion |} :: lines)
  end.

End overlap_vertex.

(** ** create_file.c *)

Module create_file.

Definition LONG_MAX : Z := 2 ^ 63 - 1.
Definition LONG_MIN : Z := - 2 ^ 63.

(** [sizeof(buf)] and [sizeof(long)]. *)
Definition sizeof_buf : Z := 1024 * 1024.
Definition sizeof_long : Z := 8.

(** A product of two [long] values; it has no defined result outside the
    type. *)
Definition long_mul (a b : Z) : option Z :=
  if decide (LONG_MIN <= a * b <= LONG_MAX) then Some (a * b) else None.

Section create_file.

(** [atol] is the C library's and the bytes of a [long] in memory are the
    platform's; both are parameters. *)
Variable atol : list ascii -> Z.
Variable bytes_of_long : Z -> list Byte.byte.

(** The size argument: its last character is taken off and read as a unit,
    what is left goes to [atol].  The subscript [strlen(argv[2]) - 1] is
    outside an empty string. *)
Definition parse_size (arg : list ascii) : option Z :=
  unit ← last arg;
  let arg := take (length arg - 1) arg in
  let size := atol arg in
  match unit with
  | "G"%char | "g"%char => long_mul size (1024 * 1024 * 1024)
  | "M"%char | "m"%char => long_mul size (1024 * 1024)
  | "K"%char | "k"%char => long_mul size 1024
  | _ => Some size
  end.

(** The loop [for (i = 0; i < sizeof(buf); i += sizeof(long))] that stores
    [num++] as a [long] at [buf + i], with [turns] turns left: the bytes
    stored from [buf + i] on, and [num] afterwards.  [num++] has no defined
    result at [LONG_MAX]. *)
Fixpoint generate (turns : nat) (num : Z) : option (list Byte.byte * Z) :=
  match turns with
  | O => Some ([], num)
  | S turns =>
      if num =? LONG_MAX then None
      else
        '(stored, num') ← generate turns (num + 1);
        Some (bytes_of_long num ++ stored, num')
  end.

(** One turn of [while (size > 0)]: the size left, [num] and the file
    afterwards, every [write] taking all the bytes it is given. *)
Definition write_chunk (size num : Z) (file : list Byte.byte)
  : option (Z * Z * list Byte.byte) :=
  let write_size := sizeof_buf in
  let write_size := if write_size >? size then size else write_size in
  let size := size - write_size in
  '(buf, num) ← generate (Z.to_nat (sizeof_buf / sizeof_long)) num;
  Some (size, num, file ++ take (Z.to_nat write_size) buf).

Lemma write_chunk_decreases size num file size' num' file' :
  (size >? 0) = true ->
  write_chunk size num file = Some (size', num', file') ->
  (Z.to_nat size' < Z.to_nat size)%nat.
Proof.
  unfold write_chunk, sizeof_buf. intros Hpos Hchunk.
  destruct (generate _ num) as [[buf n]|]; [|done].
  injection Hchunk as <- _ _. destruct (Z.gtb_spec (1024 * 1024) size); lia.
Qed.

Definition inspect {A} (a : A) : {b | a = b} := exist _ a eq_refl.

#[local] Opaque write_chunk.

(** [while (size > 0) { ... }]: the file when the loop ends. *)
Equations? write_loop (size num : Z) (file : list Byte.byte)
  : option (list Byte.byte) by wf (Z.to_nat size) lt :=
write_loop size num file with inspect (size >? 0) := {
  | exist _ true e with inspect (write_chunk size num file) := {
      | exist _ (Some (size', num', file')) e' := write_loop size' num' file';
      | exist _ None _ := None };
  | exist _ false _ := Some file }.
Proof. exact (write_chunk_decreases _ _ _ _ _ _ e e'). Qed.

#[local] Transparent write_chunk.

Inductive outcome :=
  | exit_usage
  | created (file : list Byte.byte).

(** [main], the calls that set the memory policy and open the file
    succeeding.  [argv[argc]] is a null pointer. *)
Definition main (argv : list (list ascii)) : option outcome :=
  let argc := Z.of_nat (length argv) in
  if argc <? 2 then Some exit_usage
  else
    arg ← argv !! 2%nat;
    size ← parse_size arg;
    file ← write_loop size 0 [];
    Some (created file).

End create_file.

End create_file.

(** ** min-tri-kmeans.cpp: the iterations of [compute_min_kmeans] *)

Module kmeans.
Section compute_min_kmeans.

(** The clusters, the assignments and the distances are the state of the
    computation; what [compute_dist] and [EM_step] do to them in a turn of
    the main loop is a parameter here, as is the floating-point test
    [g_num_changed / (double) NUM_ROWS <= tolerance].  [EM_step] starts
    from [g_num_changed == 0] in every turn; the second component is
    [g_num_changed] after it. *)
Variable state : Type.
Variable EM_step : state -> state * Z.
Variable within_tolerance : Z -> bool.

Definition inspect {A} (a : A) : {b | a = b} := exist _ a eq_refl.

(** [while (iter < MAX_ITERS) { ... }] from [iter] (written [iter_]): the
    state, [iter] and [converged] when the loop is left.  [iter++] stays
    below [MAX_ITERS], an [unsigned]. *)
Equations? main_loop (MAX_ITERS iter_ : Z) (st : state) : state * Z * bool
  by wf (Z.to_nat (MAX_ITERS - iter_)) lt :=
main_loop MAX_ITERS iter_ st with inspect (iter_ <? MAX_ITERS) := {
  | exist _ true e with (EM_step st) := {
      | (st', g_num_changed) with
          ((g_num_changed =? 0) || within_tolerance g_num_changed) := {
          | true := (st', iter_, true);
          | false := main_loop MAX_ITERS (iter_ + 1) st' } };
  | exist _ false _ := (st, iter_, false) }.
Proof. apply Z.ltb_lt in e. lia. Qed.

(** What [compute_min_kmeans] returns, from the state its initialisation
    leaves: [iter], and beside it the final state and [converged]. *)
Definition compute_min_kmeans (MAX_ITERS : Z) (st : state) : state * Z * bool :=
  main_loop MAX_ITERS 1 st.

End compute_min_kmeans.
End kmeans.

(** * Vocabulary of the statements

    What the properties below are stated with: sequences of calls, the
    orders and invariants they speak of, and the inputs of the examples. *)

(** ** [unique_merge] *)

(** [out] holds, in strictly ascending order, the values of [src] that
    [skip] does not reject. *)
Definition merged (skip : Z -> bool) (src out : list Z) : Prop :=
  StronglySorted Z.lt out /\
  forall x, x ∈ out <-> x ∈ src /\ skip x = false.

(** The values of [l1] that are in [l2]. *)
Definition common_values (l1 l2 : list Z) : list Z :=
  filter (fun x => x ∈ l2) l1.

(** ** [global_max] *)

(** A sequence of [update] calls, one after the other: the final object and
    the result of each call. *)
Fixpoint run_updates (cands : list Z) (value : global_max.t)
  : global_max.t * list bool :=
  match cands with
  | [] => (value, [])
  | c :: rest =>
      let '(value, ret) := global_max.update c value in
      let '(value, rets) := run_updates rest value in
      (value, ret :: rets)
  end.

(** The largest of [init] and the candidates. *)
Definition max_of (init : Z) (cands : list Z) : Z := foldl Z.max init cands.

(** The candidates that a sequence of [update] calls installs, in order. *)
Fixpoint installed_by (cands : list Z) (value : global_max.t) : list Z :=
  match cands with
  | [] => []
  | c :: rest =>
      let '(value, ret) := global_max.update c value in
      (if ret then [c] else []) ++ installed_by rest value
  end.

(** The values the object has held: the constructor's and the installed
    candidates. *)
Definition installed (init : Z) (cands : list Z) : list Z :=
  init :: installed_by cands (global_max.new init).

(** What every state reachable from [start_updates init cands] satisfies. *)
Definition update_threads_inv (init : Z) (cands : list Z) (s : update_threads) : Prop :=
  update_call.new_v <$> calls s = cands /\
  init <= shared_value s /\
  shared_value s ∈ init :: cands /\
  Forall (fun c => has_returned c -> update_call.new_v c <= shared_value s) (calls s).

(** ** [scan_collection] *)

(** A call on the collection. *)
Inductive scan_op :=
  | op_add (id : vertex_id_t) (scan : size_t)
  | op_get (idx : Z).

Definition run_op `{StdSort} (c : scan_collection.t) (o : scan_op)
  : scan_collection.t :=
  match o with
  | op_add id scan => scan_collection.add id scan c
  | op_get idx => (scan_collection.get idx c).1
  end.

Definition run_ops `{StdSort} (ops : list scan_op) : scan_collection.t :=
  foldl run_op scan_collection.new ops.

(** The entries added by a sequence of calls, in the order of the calls. *)
Fixpoint added (ops : list scan_op) : list vertex_scan :=
  match ops with
  | [] => []
  | op_add id scan :: rest => (id, scan) :: added rest
  | op_get _ :: rest => added rest
  end.

(** Descending by score. *)
Definition descending (l : list vertex_scan) : Prop :=
  StronglySorted (fun s1 s2 => s1.2 >= s2.2) l.

(** ** [vertex_size_scheduler] *)

(** The vertex index is consistent: the vertex stored at position [i] has
    id [i]. *)
Definition index_consistent (graph : list compute_vertex.t) : Prop :=
  forall (i : nat) v, graph !! i = Some v -> compute_vertex.get_id v = Z.of_nat i.

(** An id that names a vertex of the index. *)
Definition valid_id {V} (graph : list V) (id : vertex_id_t) : Prop :=
  0 <= id < Z.of_nat (length graph).

(** The edge count of the vertex [id]; 0 where there is no such vertex. *)
Definition num_edges_of (graph : list compute_vertex.t) (id : vertex_id_t) : Z :=
  from_option compute_vertex.get_num_edges 0 (get_vertex graph id).

Definition degree_graph : list compute_vertex.t :=
  [ {| compute_vertex.get_id := 0; compute_vertex.get_num_edges := 2 |};
    {| compute_vertex.get_id := 1; compute_vertex.get_num_edges := 5 |};
    {| compute_vertex.get_id := 2; compute_vertex.get_num_edges := 0 |};
    {| compute_vertex.get_id := 3; compute_vertex.get_num_edges := 5 |} ].

(** ** The pruning of [topK_scan_vertex] *)

(** The rule as the specification words it: a vertex whose local scan is
    not known asks for its own edges exactly when its bound, the estimate if
    there is one and the squared degree otherwise, is strictly greater than
    the global maximum. *)
Definition exceeds_rule (max_scan : Z) (v : topK_scan_vertex.t) : Prop :=
  is_Some (topK_scan_vertex.run max_scan v) <->
  topK_scan_vertex.has_local_scan v = false /\
  (if topK_scan_vertex.has_est_local v
   then topK_scan_vertex.get_est_local v
   else topK_scan_vertex.get_num_edges v * topK_scan_vertex.get_num_edges v)
  > max_scan.

(** A vertex of degree 2 with neither a local scan nor an estimate. *)
Definition degree_two_vertex : topK_scan_vertex.t :=
  {| topK_scan_vertex.get_id := 7;
     topK_scan_vertex.get_num_edges := 2;
     topK_scan_vertex.has_local_scan := false;
     topK_scan_vertex.has_est_local := false;
     topK_scan_vertex.get_est_local := 0 |}.

(** A star: vertex 0 with four edges to the neighbours 1, 2 and 3, which
    have 1, 1 and 5 edges. *)
Definition star_graph : list topK_scan_vertex.t :=
  (fun '(id, n) =>
     {| topK_scan_vertex.get_id := id;
        topK_scan_vertex.get_num_edges := n;
        topK_scan_vertex.has_local_scan := false;
        topK_scan_vertex.has_est_local := false;
        topK_scan_vertex.get_est_local := 0 |})
  <$> [(0, 4); (1, 1); (2, 1); (3, 5)].

Definition star_centre : page_vertex.t :=
  {| page_vertex.get_id := 0; page_vertex.in_edges := [1; 3];
     page_vertex.out_edges := [2; 3] |}.

(** ** The loops of [main] *)

Section refinement_turns.

Context `{StdSort}.
Variable graph_engine : Type.
Variable start_wait4complete :
  vertex_filter -> graph_engine * globals -> graph_engine * globals.

(** The turn number [n] (from 0) of the do-while loop of [main], were the
    loop never to stop. *)
Fixpoint nth_pass (n : nat) (st : graph_engine * globals)
  : option ((graph_engine * globals) * size_t * size_t) :=
  match n with
  | O => main.refine_pass graph_engine start_wait4complete st
  | S n =>
      '(st, _, _) ← main.refine_pass graph_engine start_wait4complete st;
      nth_pass n st
  end.

End refinement_turns.

(** A toy engine for the examples: its state counts the passes left in
    which it finds a vertex; such a pass records a scan ten above the
    current maximum for the vertex with the number of the pass. *)
Definition toy_engine (f : vertex_filter) (st : nat * globals) : nat * globals :=
  match st.1 with
  | O => st
  | S n =>
      (n, (topK_scan_vertex.finding_triangles_end
             (global_max.get (max_scan st.2) + 10)
             {| topK_scan_vertex.get_id := Z.of_nat n;
                topK_scan_vertex.get_num_edges := 0;
                topK_scan_vertex.has_local_scan := true;
                topK_scan_vertex.has_est_local := false;
                topK_scan_vertex.get_est_local := 0 |}
             st.2).1)
  end.

Definition toy_start (n : nat) : nat * globals :=
  (n, {| max_scan := global_max.new 0; known_scans := scan_collection.new |}).

(** The toy engine with three finds left, after the first loop of [main]. *)
Definition toy_after_first : nat * globals :=
  (2%nat,
   {| max_scan := global_max.new 0;
      known_scans := scan_collection.add 2 10 scan_collection.new |}).

(** Entries added to the collection one after the other. *)
Definition add_scans (reports : list vertex_scan) (c : scan_collection.t)
  : scan_collection.t :=
  foldl (fun c r => scan_collection.add r.1 r.2 c) c reports.

(** An engine whose passes touch [known_scans] through [add] only: what a
    pass leaves is what it found with some entries added. *)
Definition engine_only_adds {graph_engine : Type}
  (start_wait4complete :
     vertex_filter -> graph_engine * globals -> graph_engine * globals) : Prop :=
  forall f st, exists reports,
    known_scans (start_wait4complete f st).2 = add_scans reports (known_scans st.2).

(** The flag of the collection tells the truth. *)
Definition flag_ok (c : scan_collection.t) : Prop :=
  scan_collection.sorted c = true -> descending (scan_collection.scans c).

(** A collection as [get] leaves it. *)
Definition in_order (c : scan_collection.t) : Prop :=
  scan_collection.sorted c = true /\ descending (scan_collection.scans c).

(** ** [finding_triangles_end] and [get_est_local_scan] *)

(** [finding_triangles_end] called for one report after the other, a report
    being the vertex and its [data->local_scan]: the globals afterwards and
    whether each call printed a new maximum. *)
Fixpoint report_scans (reports : list (topK_scan_vertex.t * size_t)) (g : globals)
  : globals * list bool :=
  match reports with
  | [] => (g, [])
  | (v, local_scan) :: rest =>
      let '(g, printed) := topK_scan_vertex.finding_triangles_end local_scan v g in
      let '(g, printeds) := report_scans rest g in
      (g, printed :: printeds)
  end.

(** The entry [finding_triangles_end] records for a report. *)
Definition scan_of (r : topK_scan_vertex.t * size_t) : vertex_scan :=
  (topK_scan_vertex.get_id r.1, r.2).

(** No known scan is above [max_scan]. *)
Definition max_scan_bounds (g : globals) : Prop :=
  forall e, e ∈ scan_collection.scans (known_scans g) ->
            e.2 <= global_max.get (max_scan g).

(** The degree the index holds for [n]; 0 where it has no such vertex. *)
Definition degree_of (graph : list topK_scan_vertex.t) (n : vertex_id_t) : Z :=
  from_option topK_scan_vertex.get_num_edges 0 (get_vertex graph n).

(** The sum over the neighbours of the smaller of the neighbour's degree
    and [2 * k], as a mathematical integer. *)
Definition capped_degrees (graph : list topK_scan_vertex.t) (k : Z)
  (neighbors : list vertex_id_t) : Z :=
  foldr (fun n acc => Z.min (degree_of graph n) (2 * k) + acc) 0 neighbors.

(** The centre of the star as the index holds it. *)
Definition star_centre_vertex : topK_scan_vertex.t :=
  {| topK_scan_vertex.get_id := 0;
     topK_scan_vertex.get_num_edges := 4;
     topK_scan_vertex.has_local_scan := false;
     topK_scan_vertex.has_est_local := false;
     topK_scan_vertex.get_est_local := 0 |}.

(** ** [wcc_vertex] and the engine *)

(** The messages of a list delivered to one vertex, first to last. *)
Definition deliver_all (msgs : list component_message.t) (v : wcc_vertex.t)
  : wcc_vertex.t :=
  foldl (fun v msg => wcc_vertex.run_on_message msg v) v msgs.

(** The sum of the labels, the quantity that propagation decreases. *)
Definition label_sum (vs : list wcc_vertex.t) : nat :=
  sum_list_with (fun v => Z.to_nat (wcc_vertex.component_id v)) vs.

(** Every vertex whose flag is set is active. *)
Definition updated_are_active (e : graph_engine.t) : Prop :=
  forall (i : nat) v,
    graph_engine.vertices e !! i = Some v -> wcc_vertex.updated v = true ->
    Z.of_nat i ∈ graph_engine.active e.

Definition none_updated (vs : list wcc_vertex.t) : Prop :=
  Forall (fun v => wcc_vertex.updated v = false) vs.

Definition is_request_vertices (r : wcc_vertex.request) : Prop :=
  match r with wcc_vertex.request_vertices _ => True | _ => False end.

Definition is_request_num_edges (r : wcc_vertex.request) : Prop :=
  match r with wcc_vertex.request_num_edges _ => True | _ => False end.

(** The vertex at position [i] of the index has id [i]. *)
Definition ids_ok (vs : list wcc_vertex.t) : Prop :=
  forall (i : nat) v, vs !! i = Some v -> wcc_vertex.get_id v = Z.of_nat i.

(** What [save_cid_query] stores for a vertex. *)
Definition saved_cid (INVALID_VERTEX_ID : vertex_id_t) (v : wcc_vertex.t)
  : vertex_id_t :=
  if wcc_vertex.empty v then INVALID_VERTEX_ID else wcc_vertex.component_id v.

(** Two cliques {0,1,2} and {3,4,5}, each edge stored once, from the smaller
    to the larger id, and the isolated vertex 6. *)
Definition clique_graph : list page_vertex.t :=
  [ {| page_vertex.get_id := 0; page_vertex.in_edges := [];
       page_vertex.out_edges := [1; 2] |};
    {| page_vertex.get_id := 1; page_vertex.in_edges := [0];
       page_vertex.out_edges := [2] |};
    {| page_vertex.get_id := 2; page_vertex.in_edges := [0; 1];
       page_vertex.out_edges := [] |};
    {| page_vertex.get_id := 3; page_vertex.in_edges := [];
       page_vertex.out_edges := [4; 5] |};
    {| page_vertex.get_id := 4; page_vertex.in_edges := [3];
       page_vertex.out_edges := [5] |};
    {| page_vertex.get_id := 5; page_vertex.in_edges := [3; 4];
       page_vertex.out_edges := [] |};
    {| page_vertex.get_id := 6; page_vertex.in_edges := [];
       page_vertex.out_edges := [] |} ].

(** The same graph with every edge stored in both directions. *)
Definition symmetric_clique_graph : list page_vertex.t :=
  [ {| page_vertex.get_id := 0; page_vertex.in_edges := [1; 2];
       page_vertex.out_edges := [1; 2] |};
    {| page_vertex.get_id := 1; page_vertex.in_edges := [0; 2];
       page_vertex.out_edges := [0; 2] |};
    {| page_vertex.get_id := 2; page_vertex.in_edges := [0; 1];
       page_vertex.out_edges := [0; 1] |};
    {| page_vertex.get_id := 3; page_vertex.in_edges := [4; 5];
       page_vertex.out_edges := [4; 5] |};
    {| page_vertex.get_id := 4; page_vertex.in_edges := [3; 5];
       page_vertex.out_edges := [3; 5] |};
    {| page_vertex.get_id := 5; page_vertex.in_edges := [3; 4];
       page_vertex.out_edges := [3; 4] |};
    {| page_vertex.get_id := 6; page_vertex.in_edges := [];
       page_vertex.out_edges := [] |} ].

(** A label that a message carries unchanged: a 32-bit unsigned value. *)
Definition label_in_range (v : wcc_vertex.t) : Prop :=
  0 <= wcc_vertex.component_id v <= UINT_MAX.

(** What holds between the supersteps of the FIND_COMPONENTS run: flagged
    vertices are active, ids match positions, labels fit the message field
    and are at most the vertex's own id, and a vertex that is not flagged
    has no neighbour with a larger label. *)
Definition propagation_inv (graph : list page_vertex.t) (e : graph_engine.t) : Prop :=
  updated_are_active e /\
  ids_ok (graph_engine.vertices e) /\
  Forall label_in_range (graph_engine.vertices e) /\
  (forall (i : nat) v,
      graph_engine.vertices e !! i = Some v ->
      wcc_vertex.component_id v <= Z.of_nat i) /\
  forall (i : nat) v vertex dest w,
    graph_engine.vertices e !! i = Some v -> wcc_vertex.updated v = false ->
    graph !! i = Some vertex ->
    dest ∈ page_vertex.get_neigh vertex BOTH_EDGES ->
    get_vertex (graph_engine.vertices e) dest = Some w ->
    wcc_vertex.component_id w <= wcc_vertex.component_id v.

(** The vertices of the clique graph when propagation has ended. *)
Definition clique_vertices : list wcc_vertex.t :=
  Eval vm_compute in
    default [] (graph_engine.wait4complete 4 FIND_COMPONENTS clique_graph
                  (graph_engine.start_all (create_index clique_graph))).

(** ** [intersection_set] and [overlap_vertex] *)

(** The vectors of a list added one after the other. *)
Definition add_all `{StdSort} (vecs : list (list vertex_id_t))
  (s : intersection_set.t) : option intersection_set.t :=
  foldl (fun s vec => s ≫= intersection_set.add vec) (Some s) vecs.

(** A neighbourhood as the first stage leaves it: strictly ascending, with
    the vertex itself in it. *)
Definition closed_neighbourhood (v : overlap_vertex.t) (nb : list vertex_id_t)
  : Prop :=
  overlap_vertex.neighborhood v = Some nb /\
  StronglySorted Z.lt nb /\
  overlap_vertex.get_id v ∈ nb.

(** Three vertices with the closed neighbourhoods of the path 0 - 1 - 2. *)
Definition path_overlap_graph : list overlap_vertex.t :=
  [ {| overlap_vertex.get_id := 0; overlap_vertex.neighborhood := Some [0; 1] |};
    {| overlap_vertex.get_id := 1; overlap_vertex.neighborhood := Some [0; 1; 2] |};
    {| overlap_vertex.get_id := 2; overlap_vertex.neighborhood := Some [1; 2] |} ].

(** ** Weakly connected vertices *)

(** [j] is a neighbour of [i]: the vertex [i] of the graph file lists [j]
    among its in-edges or its out-edges. *)
Definition neighbour (graph : list page_vertex.t) (i j : nat) : Prop :=
  exists vertex,
    graph !! i = Some vertex /\
    Z.of_nat j ∈ page_vertex.get_neigh vertex BOTH_EDGES.

(** Weakly connected: linked by a chain of neighbours, each step taken in
    either direction. *)
Definition weakly_connected (graph : list page_vertex.t) : relation nat :=
  rtsc (neighbour graph).

(** Every edge of the graph file names a vertex of the file. *)
Definition edges_valid (graph : list page_vertex.t) : Prop :=
  forall (i : nat) vertex dest,
    graph !! i = Some vertex ->
    dest ∈ page_vertex.get_neigh vertex BOTH_EDGES -> valid_id graph dest.

(** Every edge is listed at both of its ends. *)
Definition edges_mutual (graph : list page_vertex.t) : Prop :=
  forall i j, neighbour graph i j -> neighbour graph j i.

(** Every label is the id of a vertex weakly connected to its vertex. *)
Definition labels_reachable (graph : list page_vertex.t) (vs : list wcc_vertex.t)
  : Prop :=
  forall (i : nat) v,
    vs !! i = Some v ->
    exists k : nat,
      wcc_vertex.component_id v = Z.of_nat k /\ weakly_connected graph i k.

(** ** [create_file] *)

(** The character of a decimal digit. *)
Definition digit_char (d : Z) : ascii := ascii_of_nat (48 + Z.to_nat d).

Definition is_digit (d : Z) : Prop := 0 <= d <= 9.

(** The number a sequence of decimal digits writes. *)
Definition decimal_value (ds : list Z) : Z := foldl (fun acc d => 10 * acc + d) 0 ds.

(** What the C library promises of [atol] on a string of decimal digits
    whose value is a [long]. *)
Definition reads_decimal (atol : list ascii -> Z) : Prop :=
  forall ds, Forall is_digit ds -> decimal_value ds <= create_file.LONG_MAX ->
             atol (digit_char <$> ds) = decimal_value ds.

(** A reading of the leading decimal digits, for the examples. *)
Fixpoint digits_atol_from (acc : Z) (s : list ascii) : Z :=
  match s with
  | c :: s' =>
      let n := Z.of_nat (nat_of_ascii c) in
      if (48 <=? n) && (n <=? 57) then digits_atol_from (10 * acc + (n - 48)) s'
      else acc
  | [] => acc
  end.

Definition digits_atol (s : list ascii) : Z := digits_atol_from 0 s.



(** The factor a unit letter stands for. *)
Definition unit_factor (unit : ascii) : option Z :=
  if Ascii.eqb unit "G" || Ascii.eqb unit "g" then Some (2 ^ 30)
  else if Ascii.eqb unit "M" || Ascii.eqb unit "m" then Some (2 ^ 20)
  else if Ascii.eqb unit "K" || Ascii.eqb unit "k" then Some (2 ^ 10)
  else None.

(** ** [compute_min_kmeans] *)

Section kmeans_turns.

Variable state : Type.
Variable EM_step : state -> state * Z.
Variable within_tolerance : Z -> bool.

(** The state after [n] turns of the main loop, were it never to stop. *)
Fixpoint after_turns (n : nat) (st : state) : state :=
  match n with
  | O => st
  | S n => after_turns n (EM_step st).1
  end.

(** The turn number [n] (from 1) meets the convergence test. *)
Definition turn_converges (st : state) (n : nat) : Prop :=
  let g_num_changed := (EM_step (after_turns (n - 1) st)).2 in
  g_num_changed = 0 \/ within_tolerance g_num_changed = true.

End kmeans_turns.

(** A toy step for the examples: the state counts down, and the number of
    changes is the state. *)
Definition toy_EM_step (st : nat) : nat * Z := (pred st, Z.of_nat (pred st)).

(** * Properties *)

(** ** Lists *)

Lemma StronglySorted_mono {A} (R1 R2 : relation A) (l : list A) :
  (forall a b, R1 a b -> R2 a b) -> StronglySorted R1 l -> StronglySorted R2 l.
Proof.
  intros HR. induction 1 as [|a l Hs IH Hall]; constructor; [done|].
  eapply Forall_impl; [exact Hall|]. apply HR.
Qed.

Lemma StronglySorted_fmap_2 {A B} (f : A -> B) (R : relation B) (l : list A) :
  StronglySorted (fun a b => R (f a) (f b)) l -> StronglySorted R (f <$> l).
Proof.
  induction 1 as [|a l Hs IH Hall]; simpl; constructor; [done|].
  by apply Forall_fmap.
Qed.

Lemma filter_ext_Forall {A} (P1 P2 : A -> Prop)
  `{forall x, Decision (P1 x)} `{forall x, Decision (P2 x)} (l : list A) :
  Forall (fun x => P1 x <-> P2 x) l -> filter P1 l = filter P2 l.
Proof.
  induction 1 as [|x l Hx _ IH]; [done|].
  rewrite !filter_cons, IH. destruct (decide (P1 x)), (decide (P2 x)); naive_solver.
Qed.

(** ** An implementation of [std::sort] *)

Lemma swo_asym {A} (comp : A -> A -> bool) (a b : A) :
  strict_weak_ordering comp -> comp a b = true -> comp b a = false.
Proof.
  intros Hs Hab. destruct (comp b a) eqn:Hba; [|done].
  rewrite <- (swo_irrefl comp Hs a). symmetry.
  by apply (swo_trans comp Hs a b a).
Qed.

Lemma not_after_total {A} (comp : A -> A -> bool) :
  strict_weak_ordering comp -> Total (not_after comp).
Proof.
  intros Hs a b. unfold not_after.
  destruct (comp b a) eqn:Hba; [right|by left].
  by apply swo_asym.
Qed.

Lemma not_after_trans {A} (comp : A -> A -> bool) :
  strict_weak_ordering comp -> Transitive (not_after comp).
Proof.
  intros Hs a b c Hab Hbc. unfold not_after in *.
  destruct (comp c a) eqn:Hca; [|done].
  destruct (comp a b) eqn:H1.
  { rewrite <- Hbc. symmetry. by apply (swo_trans comp Hs c a b). }
  destruct (comp b c) eqn:H2.
  { rewrite <- Hab. symmetry. by apply (swo_trans comp Hs b c a). }
  destruct (swo_incomp comp Hs a b c H1 Hab H2 Hbc) as [_ ?]. congruence.
Qed.

Lemma merge_std_sort_sorted {A} (comp : A -> A -> bool) (l : list A) :
  strict_weak_ordering comp -> sorted_by comp (merge_std_sort comp l).
Proof.
  intros Hs. unfold sorted_by, merge_std_sort.
  pose proof (not_after_total comp Hs). pose proof (not_after_trans comp Hs).
  apply (StronglySorted_merge_sort (not_after comp)).
Qed.

Definition merge_StdSort : StdSort := {|
  std_sort := @merge_std_sort;
  std_sort_perm := fun A comp l => merge_sort_Permutation (not_after comp) l;
  std_sort_sorted := @merge_std_sort_sorted
|}.

(** ** [unique_merge] *)

Section unique_merge_facts.

Import overlap.

Variable skip : Z -> bool.
Variable merge : Z -> Z -> Z.
Hypothesis merge_same : forall v, merge v v = v.

Lemma skip_dups_sorted v it :
  Forall (Z.le v) it -> StronglySorted Z.le it ->
  exists rest,
    skip_dups merge v it = (v, rest) /\
    Forall (Z.lt v) rest /\ StronglySorted Z.le rest /\
    (forall x, x ∈ it <-> (x = v /\ x ∈ it) \/ x ∈ rest).
Proof.
  induction it as [|x it IH]; intros Hle Hs.
  - exists []. simpl. repeat split; auto using SSorted_nil; set_solver.
  - apply Forall_cons in Hle as [Hvx Hle].
    apply StronglySorted_inv in Hs as [Hs Hx].
    simpl. destruct (Z.eqb_spec v x) as [->|Hne].
    + rewrite merge_same. destruct (IH Hle Hs) as (rest & -> & Hlt & Hsr & Hmem).
      exists rest. repeat split; auto; set_solver.
    + exists (x :: it). repeat split; auto.
      * constructor; [lia|]. eapply Forall_impl; [exact Hx|]. simpl. intros; lia.
      * by constructor.
      * set_solver.
Qed.

Lemma merged_emit v src src' out :
  Forall (Z.lt v) src' ->
  (forall x, x ∈ src <-> x = v \/ x ∈ src') ->
  merged skip src' out -> merged skip src (emit skip v out).
Proof.
  intros Hlt Hsrc [Hs Hmem]. unfold emit.
  assert (Hout : Forall (Z.lt v) out).
  { apply Forall_forall. intros x Hx. apply Hmem in Hx as [Hx _].
    by eapply Forall_forall in Hlt. }
  destruct (skip v) eqn:Hskip; split; auto.
  - intros x. rewrite Hmem, Hsrc. split; [naive_solver|].
    intros [[->|?] ?]; [congruence|done].
  - by constructor.
  - intros x. rewrite elem_of_cons, Hmem, Hsrc. naive_solver.
Qed.

Lemma drain_merged it :
  StronglySorted Z.le it -> merged skip it (drain skip merge it).
Proof.
  funelim (drain skip merge it); intros Hs.
  - split; [constructor|]. set_solver.
  - clear Heqcall H0. apply StronglySorted_inv in Hs as [Hs Hx].
    destruct (skip_dups_sorted x it' Hx Hs) as (rest' & Heq & Hlt & Hsr & Hmem).
    rewrite e in Heq. injection Heq as -> ->.
    eapply merged_emit; [exact Hlt| |by apply H].
    intros y. rewrite elem_of_cons, Hmem. naive_solver.
Qed.

Lemma drain_length it : (length (drain skip merge it) <= length it)%nat.
Proof.
  funelim (drain skip merge it); [done|]. clear Heqcall H0.
  pose proof (skip_dups_length merge x it') as Hl. rewrite e in Hl.
  unfold emit. destruct (skip v); simpl in *; lia.
Qed.

Lemma unique_merge_written_merged it1 it2 :
  StronglySorted Z.le it1 -> StronglySorted Z.le it2 ->
  merged skip (it1 ++ it2) (unique_merge_written skip merge it1 it2).
Proof.
  funelim (unique_merge_written skip merge it1 it2); intros Hs1 Hs2.
  - rewrite drain_equation_1. simpl. by apply drain_merged.
  - rewrite drain_equation_1, !app_nil_r. by apply drain_merged.
  - clear Heqcall H0. apply Z.ltb_lt in Heq.
    apply StronglySorted_inv in Hs2 as [Hs2 Hx2].
    destruct (skip_dups_sorted x2 r2 Hx2 Hs2) as (rest & E & Hlt & Hsr & Hmem).
    rewrite e in E. injection E as -> ->.
    eapply merged_emit; [| |by apply H].
    + apply Forall_app. split; [|done].
      apply StronglySorted_inv in Hs1 as [_ Hx1].
      constructor; [done|]. eapply Forall_impl; [exact Hx1|]. simpl. intros; lia.
    + intros y. rewrite !elem_of_app, !elem_of_cons, Hmem. naive_solver.
  - clear Heqcall H0. apply Z.ltb_lt in Heq.
    apply StronglySorted_inv in Hs1 as [Hs1 Hx1].
    destruct (skip_dups_sorted x1 r1 Hx1 Hs1) as (rest & E & Hlt & Hsr & Hmem).
    rewrite e in E. injection E as -> ->.
    eapply merged_emit; [| |by apply H].
    + apply Forall_app. split; [done|].
      apply StronglySorted_inv in Hs2 as [_ Hx2].
      constructor; [done|]. eapply Forall_impl; [exact Hx2|]. simpl. intros; lia.
    + intros y. rewrite !elem_of_app, !elem_of_cons, Hmem. naive_solver.
  - clear Heqcall H0 H1. apply Z.ltb_ge in Heq, Heq0.
    assert (x2 = x1) as -> by lia. rewrite merge_same in e2.
    apply StronglySorted_inv in Hs1 as [Hs1 Hx1].
    apply StronglySorted_inv in Hs2 as [Hs2 Hx2].
    destruct (skip_dups_sorted x1 r2 Hx2 Hs2) as (rest2 & E2 & Hlt2 & Hsr2 & Hmem2).
    rewrite e2 in E2. injection E2 as -> ->.
    destruct (skip_dups_sorted x1 r1 Hx1 Hs1) as (rest1 & E1 & Hlt1 & Hsr1 & Hmem1).
    rewrite e1 in E1. injection E1 as -> ->.
    eapply merged_emit; [| |by apply H].
    + by apply Forall_app.
    + intros y. rewrite !elem_of_app, !elem_of_cons, Hmem1, Hmem2. naive_solver.
Qed.

Lemma unique_merge_written_length it1 it2 :
  (length (unique_merge_written skip merge it1 it2) <= length it1 + length it2)%nat.
Proof.
  funelim (unique_merge_written skip merge it1 it2).
  - rewrite drain_equation_1. simpl. apply drain_length.
  - rewrite drain_equation_1, app_nil_r, Nat.add_0_r. apply drain_length.
  - clear Heqcall H0. pose proof (skip_dups_length merge x2 r2) as Hl.
    rewrite e in Hl. unfold emit. destruct (skip v); simpl in *; lia.
  - clear Heqcall H0. pose proof (skip_dups_length merge x1 r1) as Hl.
    rewrite e in Hl. unfold emit. destruct (skip v); simpl in *; lia.
  - clear Heqcall H0 H1. pose proof (skip_dups_length merge (merge x1 x2) r2) as Hl2.
    rewrite e2 in Hl2. pose proof (skip_dups_length merge v r1) as Hl1.
    rewrite e1 in Hl1. unfold emit. destruct (skip v'); simpl in *; lia.
Qed.

End unique_merge_facts.

Lemma length_resize v n : length (overlap.resize v n) = Z.to_nat n.
Proof.
  unfold overlap.resize. rewrite length_app, length_take, length_replicate. lia.
Qed.

Lemma resize_written written v :
  (length written <= length v)%nat ->
  overlap.resize (written ++ drop (length written) v) (Z.of_nat (length written))
  = written.
Proof.
  intros Hl. unfold overlap.resize. rewrite Nat2Z.id, take_app_length.
  rewrite length_app, length_drop.
  replace (length written - (length written + (length v - length written)))%nat
    with 0%nat by lia.
  simpl. apply app_nil_r.
Qed.

(** C10.  On two ranges sorted in ascending order, and with a merger that
    returns the value of the equal elements it is given (as [merge_edge]
    does), [unique_merge] writes a strictly ascending sequence whose values
    are exactly those of either range that [skip] does not reject, and
    returns how many it wrote.  So on a vertex whose edge lists are sorted,
    [get_unique_neighbors] stays inside the resized vector and leaves in it
    the strictly ascending sequence of the in- and out-neighbours other than
    the vertex itself, returning its length. *)
Theorem unique_merge_sorted_union :
  (forall (skip : Z -> bool) (merge : Z -> Z -> Z) (it1 it2 : list Z),
      (forall v, merge v v = v) ->
      StronglySorted Z.le it1 -> StronglySorted Z.le it2 ->
      exists written,
        overlap.unique_merge it1 it2 skip merge
          = (written, Z.of_nat (length written)) /\
        StronglySorted Z.lt written /\
        forall x, x ∈ written <-> (x ∈ it1 \/ x ∈ it2) /\ skip x = false) /\
  (forall (vertex : page_vertex.t) (neighbors : list vertex_id_t),
      StronglySorted Z.le (page_vertex.in_edges vertex) ->
      StronglySorted Z.le (page_vertex.out_edges vertex) ->
      exists out,
        overlap.get_unique_neighbors vertex neighbors
          = Some (out, Z.of_nat (length out)) /\
        StronglySorted Z.lt out /\
        forall x, x ∈ out <->
          (x ∈ page_vertex.in_edges vertex \/ x ∈ page_vertex.out_edges vertex) /\
          x <> page_vertex.get_id vertex).
Proof.
  split.
  - intros skip merge it1 it2 Hm Hs1 Hs2.
    destruct (unique_merge_written_merged skip merge Hm it1 it2 Hs1 Hs2) as [Hs Hmem].
    eexists. split; [reflexivity|]. split; [done|].
    intros x. rewrite Hmem, elem_of_app. done.
  - intros vertex neighbors Hs1 Hs2.
    set (skip := overlap.skip_self (page_vertex.get_id vertex)).
    destruct (unique_merge_written_merged skip overlap.merge_edge (fun _ => eq_refl)
                _ _ Hs1 Hs2) as [Hs Hmem].
    pose proof (unique_merge_written_length skip overlap.merge_edge
                  (page_vertex.in_edges vertex) (page_vertex.out_edges vertex)) as Hlen.
    exists (overlap.unique_merge_written skip overlap.merge_edge
              (page_vertex.in_edges vertex) (page_vertex.out_edges vertex)).
    split; [|split; [done|]].
    + unfold overlap.get_unique_neighbors, overlap.unique_merge. simpl.
      fold skip. unfold overlap.write_from_begin.
      unfold page_vertex.get_num_edges.
      rewrite length_resize.
      rewrite decide_True by lia. simpl.
      rewrite resize_written; [done|]. rewrite length_resize. lia.
    + intros x. rewrite Hmem, elem_of_app. unfold skip, overlap.skip_self.
      rewrite Z.eqb_neq. naive_solver.
Qed.

Lemma unique_merge_sorted_union_witness :
  (forall v, overlap.merge_edge v v = v) /\
  StronglySorted Z.le [1; 1; 3; 5] /\ StronglySorted Z.le [0; 1; 3; 3; 8] /\
  exists written,
    overlap.unique_merge [1; 1; 3; 5] [0; 1; 3; 3; 8]
      (overlap.skip_self 3) overlap.merge_edge
      = (written, Z.of_nat (length written)) /\
    StronglySorted Z.lt written /\
    forall x, x ∈ written <->
      (x ∈ [1; 1; 3; 5] \/ x ∈ [0; 1; 3; 3; 8]) /\ overlap.skip_self 3 x = false.
Proof.
  assert (H1 : StronglySorted Z.le [1; 1; 3; 5]) by (repeat constructor; lia).
  assert (H2 : StronglySorted Z.le [0; 1; 3; 3; 8]) by (repeat constructor; lia).
  split; [reflexivity|]. split; [exact H1|]. split; [exact H2|].
  exact (proj1 unique_merge_sorted_union (overlap.skip_self 3) overlap.merge_edge
           [1; 1; 3; 5] [0; 1; 3; 3; 8] (fun _ => eq_refl) H1 H2).
Defined.

Example unique_merge_example :
  overlap.unique_merge [1; 1; 3; 5] [0; 1; 3; 3; 8]
    (overlap.skip_self 3) overlap.merge_edge = ([0; 1; 5; 8], 4).
Proof. reflexivity. Qed.

Example get_unique_neighbors_example :
  overlap.get_unique_neighbors
    {| page_vertex.get_id := 3; page_vertex.in_edges := [1; 1; 3; 5];
       page_vertex.out_edges := [0; 1; 3; 3; 8] |} [7; 7]
  = Some ([0; 1; 5; 8], 4).
Proof. reflexivity. Qed.

(** ** [get_common_vertices] and [get_union_vertices] *)

Lemma common_loop_unfold x1 rest1 x2 rest2 common :
  overlap.common_loop (x1 :: rest1) (x2 :: rest2) common
  = if x1 =? x2 then overlap.common_loop rest1 rest2 (size_t_add common 1)
    else if x1 >? x2 then overlap.common_loop (x1 :: rest1) rest2 common
    else overlap.common_loop rest1 (x2 :: rest2) common.
Proof. reflexivity. Qed.

Lemma common_loop_nil_r vertices1 common :
  overlap.common_loop vertices1 [] common = common.
Proof. by destruct vertices1. Qed.

Lemma filter_none_below (x : Z) (l1 l2 : list Z) :
  Forall (Z.lt x) l2 -> x ∉ l2.
Proof. intros Hall Hin. eapply Forall_forall in Hall; [|exact Hin]. lia. Qed.

Lemma common_values_skip_r x2 l1 rest2 :
  Forall (Z.lt x2) l1 ->
  common_values l1 (x2 :: rest2) = common_values l1 rest2.
Proof.
  intros Hall. unfold common_values. apply filter_ext_Forall.
  eapply Forall_impl; [exact Hall|]. simpl. intros x Hx.
  rewrite elem_of_cons. split; [|by right]. intros [->|?]; [lia|done].
Qed.

Lemma common_values_skip_l x1 rest1 l2 :
  x1 ∉ l2 -> common_values (x1 :: rest1) l2 = common_values rest1 l2.
Proof. intros Hx. unfold common_values. by rewrite filter_cons_False. Qed.

Lemma common_values_nil_r l1 : common_values l1 [] = [].
Proof.
  unfold common_values. induction l1 as [|x l1 IH]; [done|].
  rewrite filter_cons_False; [done|]. intros Hx. inversion Hx.
Qed.

Lemma common_loop_count l1 : forall l2 common,
  StronglySorted Z.lt l1 -> StronglySorted Z.lt l2 ->
  0 <= common ->
  common + Z.of_nat (length l1) < 2 ^ 64 ->
  overlap.common_loop l1 l2 common
  = common + Z.of_nat (length (common_values l1 l2)).
Proof.
  induction l1 as [|x1 rest1 IH1]; intros l2 common Hs1 Hs2 H0 Hlen.
  { destruct l2; simpl; lia. }
  induction l2 as [|x2 rest2 IH2].
  { rewrite common_loop_nil_r, common_values_nil_r. simpl. lia. }
  rewrite common_loop_unfold.
  apply StronglySorted_inv in Hs1 as [Hs1 Hx1].
  apply StronglySorted_inv in Hs2 as [Hs2 Hx2].
  simpl in Hlen.
  destruct (Z.eqb_spec x1 x2) as [->|Hne].
  - rewrite IH1; try done.
    + unfold common_values at 2. rewrite filter_cons_True by left.
      fold (common_values rest1 (x2 :: rest2)).
      rewrite common_values_skip_r by done.
      unfold size_t_add, to_size_t. rewrite Z.mod_small by lia. simpl. lia.
    + unfold size_t_add, to_size_t. rewrite Z.mod_small by lia. lia.
    + unfold size_t_add, to_size_t. rewrite Z.mod_small by lia. lia.
  - destruct (Z.gtb_spec x1 x2) as [Hgt|Hle].
    + rewrite (IH2 Hs2). f_equal. f_equal. f_equal. symmetry.
      apply common_values_skip_r. constructor; [lia|].
      eapply Forall_impl; [exact Hx1|]. simpl. intros; lia.
    + rewrite IH1; try done; [|by constructor|lia].
      f_equal. f_equal. f_equal. symmetry. apply common_values_skip_l.
      rewrite not_elem_of_cons. split; [done|].
      apply (filter_none_below x1 [] rest2).
      eapply Forall_impl; [exact Hx2|]. simpl. intros; lia.
Qed.

Lemma skip_dups_strict merge x rest :
  Forall (Z.lt x) rest -> overlap.skip_dups merge x rest = (x, rest).
Proof.
  destruct rest as [|y rest]; [done|]. intros Hall.
  apply Forall_cons in Hall as [Hlt _]. simpl.
  by rewrite (proj2 (Z.eqb_neq x y)) by lia.
Qed.

Lemma drain_strict merge l :
  StronglySorted Z.lt l -> overlap.drain overlap.skip_none merge l = l.
Proof.
  funelim (overlap.drain overlap.skip_none merge l); intros Hs; [done|].
  clear Heqcall H0. apply StronglySorted_inv in Hs as [Hs Hx].
  rewrite (skip_dups_strict merge x it' Hx) in e. injection e as <- <-.
  unfold overlap.emit, overlap.skip_none. f_equal. by apply H.
Qed.

Lemma union_plus_common l1 l2 :
  StronglySorted Z.lt l1 -> StronglySorted Z.lt l2 ->
  (length (overlap.unique_merge_written overlap.skip_none overlap.merge_edge l1 l2)
   + length (common_values l1 l2) = length l1 + length l2)%nat.
Proof.
  funelim (overlap.unique_merge_written overlap.skip_none overlap.merge_edge l1 l2);
    intros Hs1 Hs2.
  - rewrite overlap.drain_equation_1, drain_strict by done. simpl. lia.
  - rewrite overlap.drain_equation_1, app_nil_r, drain_strict by done.
    rewrite common_values_nil_r. simpl. lia.
  - clear Heqcall H0. apply Z.ltb_lt in Heq.
    apply StronglySorted_inv in Hs2 as [Hs2 Hx2].
    rewrite (skip_dups_strict _ x2 r2 Hx2) in e. injection e as <- <-.
    specialize (H Hs1 Hs2). unfold overlap.emit, overlap.skip_none in *.
    rewrite common_values_skip_r.
    + simpl in *. lia.
    + apply StronglySorted_inv in Hs1 as [_ Hx1]. constructor; [done|].
      eapply Forall_impl; [exact Hx1|]. simpl. intros; lia.
  - clear Heqcall H0. apply Z.ltb_lt in Heq. apply Z.ltb_ge in Heq0.
    apply StronglySorted_inv in Hs1 as [Hs1 Hx1].
    rewrite (skip_dups_strict _ x1 r1 Hx1) in e. injection e as <- <-.
    specialize (H Hs1 Hs2). unfold overlap.emit, overlap.skip_none in *.
    rewrite common_values_skip_l.
    + simpl in *. lia.
    + rewrite not_elem_of_cons. split; [lia|].
      apply StronglySorted_inv in Hs2 as [_ Hx2].
      apply (filter_none_below x1 [] r2).
      eapply Forall_impl; [exact Hx2|]. simpl. intros; lia.
  - clear Heqcall H0 H1. apply Z.ltb_ge in Heq, Heq0.
    assert (x2 = x1) as -> by lia. unfold overlap.merge_edge in e2.
    apply StronglySorted_inv in Hs1 as [Hs1 Hx1].
    apply StronglySorted_inv in Hs2 as [Hs2 Hx2].
    rewrite (skip_dups_strict _ x1 r2 Hx2) in e2. injection e2 as <- <-.
    rewrite (skip_dups_strict _ x1 r1 Hx1) in e1. injection e1 as <- <-.
    specialize (H Hs1 Hs2). unfold overlap.emit, overlap.skip_none in *.
    unfold common_values at 1. rewrite filter_cons_True by left.
    fold (common_values r1 (x1 :: r2)). rewrite common_values_skip_r by done.
    simpl in *. lia.
Qed.

(** X3.  On two strictly ascending vectors whose sizes add up to at most
    [INT_MAX], [get_common_vertices] is the number of values of the first
    that are in the second, [get_union_vertices] is the number of values
    that are in either, and the two numbers add up to the two sizes. *)
Theorem common_and_union_counts (vertices1 vertices2 : list vertex_id_t) :
  StronglySorted Z.lt vertices1 -> StronglySorted Z.lt vertices2 ->
  Z.of_nat (length vertices1) + Z.of_nat (length vertices2) <= INT_MAX ->
  overlap.get_common_vertices vertices1 vertices2
  = Z.of_nat (length (common_values vertices1 vertices2)) /\
  exists union,
    overlap.get_union_vertices vertices1 vertices2 = Some (Z.of_nat (length union)) /\
    StronglySorted Z.lt union /\
    (forall x, x ∈ union <-> x ∈ vertices1 \/ x ∈ vertices2) /\
    Z.of_nat (length union) + overlap.get_common_vertices vertices1 vertices2
    = Z.of_nat (length vertices1) + Z.of_nat (length vertices2).
Proof.
  intros Hs1 Hs2 Hlen. unfold INT_MAX in Hlen.
  assert (Hcommon : overlap.get_common_vertices vertices1 vertices2
                    = Z.of_nat (length (common_values vertices1 vertices2))).
  { unfold overlap.get_common_vertices. rewrite common_loop_count; try done; lia. }
  split; [done|].
  assert (Hle1 : StronglySorted Z.le vertices1)
    by (eapply StronglySorted_mono; [|exact Hs1]; intros; lia).
  assert (Hle2 : StronglySorted Z.le vertices2)
    by (eapply StronglySorted_mono; [|exact Hs2]; intros; lia).
  destruct (unique_merge_written_merged overlap.skip_none overlap.merge_edge
              (fun _ => eq_refl) vertices1 vertices2 Hle1 Hle2) as [Hs Hmem].
  pose proof (unique_merge_written_length overlap.skip_none overlap.merge_edge
                vertices1 vertices2) as Hbound.
  pose proof (union_plus_common vertices1 vertices2 Hs1 Hs2) as Hsum.
  eexists. split; [|split; [exact Hs|split]].
  - unfold overlap.get_union_vertices, overlap.unique_merge. cbv zeta.
    rewrite (proj2 (Z.leb_le _ _)); [done|]. unfold INT_MAX. lia.
  - intros x. rewrite Hmem, elem_of_app. unfold overlap.skip_none. naive_solver.
  - rewrite Hcommon. lia.
Qed.

Lemma common_and_union_counts_witness :
  overlap.get_common_vertices [1; 3; 5; 8] [0; 3; 4; 8; 9] = 2 /\
  overlap.get_union_vertices [1; 3; 5; 8] [0; 3; 4; 8; 9] = Some 7.
Proof.
  assert (H1 : StronglySorted Z.lt [1; 3; 5; 8]) by (repeat constructor; lia).
  assert (H2 : StronglySorted Z.lt [0; 3; 4; 8; 9]) by (repeat constructor; lia).
  pose proof (common_and_union_counts [1; 3; 5; 8] [0; 3; 4; 8; 9] H1 H2
                ltac:(unfold INT_MAX; simpl; lia)) as [Hc _].
  split; [exact Hc|reflexivity].
Defined.

(** ** [intersection_set] *)

Lemma ltb_swo : strict_weak_ordering Z.ltb.
Proof.
  split.
  - intros a. apply Z.ltb_irrefl.
  - intros a b c. rewrite !Z.ltb_lt. lia.
  - intros a b c. rewrite !Z.ltb_ge. lia.
Qed.

Lemma sorted_by_ltb l : sorted_by Z.ltb l <-> StronglySorted Z.le l.
Proof.
  unfold sorted_by. split; apply StronglySorted_mono; intros a b; rewrite Z.ltb_ge; lia.
Qed.

Lemma intersection_loop_unfold x1 rest1 x2 rest2 :
  intersection_set.common_loop (x1 :: rest1) (x2 :: rest2)
  = if x1 =? x2 then x1 :: intersection_set.common_loop rest1 rest2
    else if x1 >? x2 then intersection_set.common_loop (x1 :: rest1) rest2
    else intersection_set.common_loop rest1 (x2 :: rest2).
Proof. reflexivity. Qed.

Lemma intersection_loop_nil_r set : intersection_set.common_loop set [] = [].
Proof. by destruct set. Qed.

Lemma intersection_loop_spec set : forall copy,
  StronglySorted Z.le set -> StronglySorted Z.le copy ->
  StronglySorted Z.le (intersection_set.common_loop set copy) /\
  forall x, x ∈ intersection_set.common_loop set copy <-> x ∈ set /\ x ∈ copy.
Proof.
  induction set as [|x1 rest1 IH1]; intros copy Hs1 Hs2.
  { destruct copy; simpl; split; try constructor; set_solver. }
  induction copy as [|x2 rest2 IH2].
  { rewrite intersection_loop_nil_r. split; [constructor|set_solver]. }
  rewrite intersection_loop_unfold.
  pose proof Hs1 as Hs1'. pose proof Hs2 as Hs2'.
  apply StronglySorted_inv in Hs1 as [Hs1 Hx1].
  apply StronglySorted_inv in Hs2 as [Hs2 Hx2].
  rewrite Forall_forall in Hx1, Hx2.
  destruct (Z.eqb_spec x1 x2) as [->|Hne].
  - destruct (IH1 rest2 Hs1 Hs2) as [Hs Hmem]. split.
    + constructor; [done|]. apply Forall_forall. intros y Hy.
      apply Hmem in Hy as [Hy _]. by apply Hx1.
    + intros x. rewrite !elem_of_cons, Hmem. tauto.
  - destruct (Z.gtb_spec x1 x2) as [Hgt|Hle].
    + destruct (IH2 Hs2) as [Hs Hmem]. split; [done|].
      intros x. rewrite Hmem, !elem_of_cons. split; [tauto|].
      intros [Hx [->|Hc]]; [|tauto].
      destruct Hx as [->|Hx]; [lia|]. apply Hx1 in Hx. lia.
    + destruct (IH1 (x2 :: rest2) Hs1 Hs2') as [Hs Hmem]. split; [done|].
      intros x. rewrite Hmem, !elem_of_cons. split; [tauto|].
      intros [[->|Hx] Hc]; [|tauto].
      destruct Hc as [->|Hc]; [lia|]. apply Hx2 in Hc. lia.
Qed.

Section intersection_set_facts.

Context `{StdSort}.

Lemma std_sort_ltb vec :
  StronglySorted Z.le (std_sort Z.ltb vec) /\
  forall x, x ∈ std_sort Z.ltb vec <-> x ∈ vec.
Proof.
  split.
  - apply sorted_by_ltb, std_sort_sorted, ltb_swo.
  - intros x. by rewrite (std_sort_perm _ Z.ltb vec).
Qed.

Lemma add_all_snoc vecs vec s :
  add_all (vecs ++ [vec]) s = add_all vecs s ≫= intersection_set.add vec.
Proof. unfold add_all. by rewrite foldl_app. Qed.

Lemma add_all_spec vecs :
  Z.of_nat (length vecs) <= INT_MAX ->
  exists s,
    add_all vecs intersection_set.new = Some s /\
    intersection_set.num_added s = Z.of_nat (length vecs) /\
    StronglySorted Z.le (intersection_set.set s) /\
    (vecs = [] -> intersection_set.set s = []) /\
    (vecs <> [] ->
     forall x, x ∈ intersection_set.set s <-> Forall (fun vec => x ∈ vec) vecs).
Proof.
  induction vecs as [|vec vecs IH] using rev_ind; intros Hlen.
  { exists intersection_set.new. simpl. repeat split; try done. constructor. }
  rewrite length_app in Hlen. simpl in Hlen.
  destruct IH as (s & Hs & Hnum & Hsorted & Hnil & Hmem); [lia|].
  rewrite add_all_snoc, Hs. simpl. unfold intersection_set.add.
  rewrite Hnum. rewrite (proj2 (Z.eqb_neq _ _)) by lia.
  destruct (std_sort_ltb vec) as [Hcs Hcm].
  destruct (Z.eqb_spec (Z.of_nat (length vecs) + 1) 1) as [Hone|Hmore].
  - assert (vecs = []) as -> by (destruct vecs; [done|simpl in Hone; lia]).
    eexists. split; [reflexivity|]. simpl.
    split; [done|]. split; [done|]. split; [done|].
    intros _ x. by rewrite Hcm, Forall_singleton.
  - assert (vecs <> []) as Hne by (intros ->; simpl in Hmore; lia).
    destruct (intersection_loop_spec _ _ Hsorted Hcs) as [Hls Hlm].
    eexists. split; [reflexivity|]. simpl.
    split; [rewrite length_app; simpl; lia|]. split; [done|].
    split; [intros Heq; by destruct vecs|].
    intros _ x. rewrite Hlm, Forall_app, Forall_singleton, Hcm, (Hmem Hne). done.
Qed.

End intersection_set_facts.

(** X4.  Adding at least one vector, and at most [INT_MAX] of them, to a
    fresh [intersection_set] succeeds and leaves in [set], in ascending
    order, exactly the values that occur in every one of the vectors, in
    whatever order the vectors list them. *)
Theorem intersection_set_add_all `{StdSort} (vecs : list (list vertex_id_t)) :
  vecs <> [] -> Z.of_nat (length vecs) <= INT_MAX ->
  exists s,
    add_all vecs intersection_set.new = Some s /\
    StronglySorted Z.le (intersection_set.set s) /\
    forall x, x ∈ intersection_set.set s <-> Forall (fun vec => x ∈ vec) vecs.
Proof.
  intros Hne Hlen.
  destruct (add_all_spec vecs Hlen) as (s & Hs & _ & Hsorted & _ & Hmem).
  exists s. auto.
Qed.

Lemma intersection_set_add_all_witness :
  exists s,
    add_all (H := merge_StdSort) [[3; 1; 2]; [5; 2; 3; 3]; [3; 0; 2]]
      intersection_set.new = Some s /\
    StronglySorted Z.le (intersection_set.set s) /\
    forall x, x ∈ intersection_set.set s <->
      Forall (fun vec => x ∈ vec) [[3; 1; 2]; [5; 2; 3; 3]; [3; 0; 2]].
Proof.
  apply (@intersection_set_add_all merge_StdSort); [done|].
  unfold INT_MAX. simpl. lia.
Defined.

Example intersection_set_example :
  intersection_set.set <$>
    add_all (H := merge_StdSort) [[3; 1; 2]; [5; 2; 3; 3]; [3; 0; 2]]
      intersection_set.new
  = Some [2; 3].
Proof. reflexivity. Qed.

(** ** [overlap_vertex] *)

Lemma is_sorted_spec l :
  overlap_vertex.is_sorted l = true <-> Sorted Z.le l.
Proof.
  induction l as [|x [|y rest] IH].
  - split; [constructor|done].
  - split; [by repeat constructor|done].
  - change (overlap_vertex.is_sorted (x :: y :: rest))
      with (negb (y <? x) && overlap_vertex.is_sorted (y :: rest)).
    rewrite andb_true_iff, negb_true_iff, Z.ltb_ge, IH. split.
    + intros [Hxy Hs]. constructor; [done|]. by constructor.
    + intros Hs. apply Sorted_inv in Hs as [Hs Hhd].
      apply HdRel_inv in Hhd. done.
Qed.

Lemma is_sorted_strict l :
  StronglySorted Z.lt l -> overlap_vertex.is_sorted l = true.
Proof.
  intros Hs. apply is_sorted_spec. apply StronglySorted_Sorted.
  eapply StronglySorted_mono; [|exact Hs]. intros; lia.
Qed.

Lemma lower_bound_insert l value :
  StronglySorted Z.lt l -> value ∉ l ->
  l !! overlap_vertex.lower_bound l value <> Some value /\
  StronglySorted Z.lt
    (overlap_vertex.insert_at (overlap_vertex.lower_bound l value) value l) /\
  forall x,
    x ∈ overlap_vertex.insert_at (overlap_vertex.lower_bound l value) value l
    <-> x = value \/ x ∈ l.
Proof.
  unfold overlap_vertex.insert_at.
  induction l as [|y l IH]; intros Hs Hnot.
  { simpl. split; [done|]. split; [repeat constructor|set_solver]. }
  apply StronglySorted_inv in Hs as [Hs Hy].
  apply not_elem_of_cons in Hnot as [Hne Hnot].
  simpl. destruct (Z.ltb_spec y value) as [Hlt|Hge].
  - destruct (IH Hs Hnot) as (Hat & Hsorted & Hmem). simpl.
    split; [done|]. split.
    + constructor; [done|]. apply Forall_forall. intros x Hx.
      apply Hmem in Hx as [->|Hx]; [done|].
      by eapply Forall_forall in Hy.
    + intros x. rewrite !elem_of_cons, Hmem. naive_solver.
  - simpl. split; [congruence|]. split.
    + constructor; [by constructor|]. constructor; [lia|].
      eapply Forall_impl; [exact Hy|]. simpl. intros; lia.
    + intros x. rewrite !elem_of_cons. naive_solver.
Qed.

Lemma get_unique_neighbors_sorted vertex neighbors :
  StronglySorted Z.le (page_vertex.in_edges vertex) ->
  StronglySorted Z.le (page_vertex.out_edges vertex) ->
  exists out,
    overlap.get_unique_neighbors vertex neighbors
      = Some (out, Z.of_nat (length out)) /\
    (length out <= length (page_vertex.in_edges vertex)
                   + length (page_vertex.out_edges vertex))%nat /\
    StronglySorted Z.lt out /\
    forall x, x ∈ out <->
      (x ∈ page_vertex.in_edges vertex \/ x ∈ page_vertex.out_edges vertex) /\
      x <> page_vertex.get_id vertex.
Proof.
  intros Hs1 Hs2.
  set (skip := overlap.skip_self (page_vertex.get_id vertex)).
  destruct (unique_merge_written_merged skip overlap.merge_edge (fun _ => eq_refl)
              _ _ Hs1 Hs2) as [Hs Hmem].
  pose proof (unique_merge_written_length skip overlap.merge_edge
                (page_vertex.in_edges vertex) (page_vertex.out_edges vertex)) as Hlen.
  exists (overlap.unique_merge_written skip overlap.merge_edge
            (page_vertex.in_edges vertex) (page_vertex.out_edges vertex)).
  split; [|split; [done|split; [done|]]].
  - unfold overlap.get_unique_neighbors, overlap.unique_merge. simpl.
    fold skip. unfold overlap.write_from_begin.
    unfold page_vertex.get_num_edges.
    rewrite length_resize.
    rewrite decide_True by lia. simpl.
    rewrite resize_written; [done|]. rewrite length_resize. lia.
  - intros x. rewrite Hmem, elem_of_app. unfold skip, overlap.skip_self.
    rewrite Z.eqb_neq. naive_solver.
Qed.

Lemma run_on_vertex_spec (vertex : page_vertex.t) (v : overlap_vertex.t) :
  StronglySorted Z.le (page_vertex.in_edges vertex) ->
  StronglySorted Z.le (page_vertex.out_edges vertex) ->
  page_vertex.get_id vertex = overlap_vertex.get_id v ->
  exists nb,
    overlap_vertex.run_on_vertex vertex v
    = Some {| overlap_vertex.get_id := overlap_vertex.get_id v;
              overlap_vertex.neighborhood := Some nb |} /\
    StronglySorted Z.lt nb /\
    forall x, x ∈ nb <->
      x = overlap_vertex.get_id v \/
      x ∈ page_vertex.in_edges vertex \/ x ∈ page_vertex.out_edges vertex.
Proof.
  intros Hs1 Hs2 Hid.
  destruct (get_unique_neighbors_sorted vertex [] Hs1 Hs2)
    as (out & Hout & _ & Hsorted & Hmem).
  assert (Hnot : overlap_vertex.get_id v ∉ out).
  { intros Hin. apply Hmem in Hin as [_ Hne]. congruence. }
  destruct (lower_bound_insert out _ Hsorted Hnot) as (Hat & Hins & Hin).
  eexists. split; [|split; [exact Hins|]].
  - unfold overlap_vertex.run_on_vertex, overlap_vertex.run_on_itself.
    rewrite Hid, Z.eqb_refl, Hout. simpl.
    rewrite (is_sorted_strict out Hsorted). simpl.
    rewrite bool_decide_eq_false_2 by done.
    by rewrite (is_sorted_strict _ Hins).
  - intros x. rewrite Hin, Hmem, Hid. split; [naive_solver|].
    destruct (decide (x = overlap_vertex.get_id v)); naive_solver.
Qed.

(** X5.  On a vertex of the graph file whose two edge lists are in ascending
    order and whose id is that of the [overlap_vertex], none of the
    assertions of [run] and [run_on_itself] fails, and [neighborhood] ends
    as the strictly ascending sequence of the vertex's own id and its
    in- and out-neighbours. *)
Theorem overlap_vertex_neighborhood (vertex : page_vertex.t) (v : overlap_vertex.t) :
  StronglySorted Z.le (page_vertex.in_edges vertex) ->
  StronglySorted Z.le (page_vertex.out_edges vertex) ->
  page_vertex.get_id vertex = overlap_vertex.get_id v ->
  exists v' nb,
    overlap_vertex.run_on_vertex vertex v = Some v' /\
    overlap_vertex.get_id v' = overlap_vertex.get_id v /\
    closed_neighbourhood v' nb /\
    forall x, x ∈ nb <->
      x = overlap_vertex.get_id v \/
      x ∈ page_vertex.in_edges vertex \/ x ∈ page_vertex.out_edges vertex.
Proof.
  intros Hs1 Hs2 Hid.
  destruct (run_on_vertex_spec vertex v Hs1 Hs2 Hid) as (nb & Hrun & Hs & Hmem).
  eexists _, nb. split; [exact Hrun|]. split; [done|]. split; [|done].
  split; [done|]. split; [done|]. simpl. apply Hmem. by left.
Qed.

Lemma overlap_vertex_neighborhood_witness :
  exists v' nb,
    overlap_vertex.run_on_vertex
      {| page_vertex.get_id := 3; page_vertex.in_edges := [1; 1; 3; 5];
         page_vertex.out_edges := [0; 1; 3; 3; 8] |}
      (overlap_vertex.new 3) = Some v' /\
    overlap_vertex.get_id v' = 3 /\
    closed_neighbourhood v' nb /\
    forall x, x ∈ nb <-> x = 3 \/ x ∈ [1; 1; 3; 5] \/ x ∈ [0; 1; 3; 3; 8].
Proof.
  apply (overlap_vertex_neighborhood
           {| page_vertex.get_id := 3; page_vertex.in_edges := [1; 1; 3; 5];
              page_vertex.out_edges := [0; 1; 3; 3; 8] |}
           (overlap_vertex.new 3)); simpl; [| |done];
    repeat constructor; lia.
Defined.

Example run_on_vertex_example :
  overlap_vertex.neighborhood <$>
    overlap_vertex.run_on_vertex
      {| page_vertex.get_id := 3; page_vertex.in_edges := [1; 1; 3; 5];
         page_vertex.out_edges := [0; 1; 3; 3; 8] |}
      (overlap_vertex.new 3)
  = Some (Some [0; 1; 3; 5; 8]).
Proof. reflexivity. Qed.

Lemma common_le_length l1 l2 : (length (common_values l1 l2) <= length l1)%nat.
Proof. unfold common_values. apply length_filter. Qed.

Lemma counts_of_sorted l1 l2 :
  StronglySorted Z.lt l1 -> StronglySorted Z.lt l2 ->
  Z.of_nat (length l1) + Z.of_nat (length l2) <= INT_MAX ->
  overlap.get_common_vertices l1 l2 = Z.of_nat (length (common_values l1 l2)) /\
  overlap.get_union_vertices l1 l2
  = Some (Z.of_nat (length l1) + Z.of_nat (length l2)
          - Z.of_nat (length (common_values l1 l2))).
Proof.
  intros Hs1 Hs2 Hlen. unfold INT_MAX in Hlen. split.
  - unfold overlap.get_common_vertices. rewrite common_loop_count; try done; lia.
  - pose proof (union_plus_common l1 l2 Hs1 Hs2) as Hsum.
    unfold overlap.get_union_vertices, overlap.unique_merge. cbv zeta.
    rewrite (proj2 (Z.leb_le _ _)) by (unfold INT_MAX; lia).
    f_equal. lia.
Qed.

Lemma common_values_length_comm l1 l2 :
  NoDup l1 -> NoDup l2 ->
  length (common_values l1 l2) = length (common_values l2 l1).
Proof.
  intros Hn1 Hn2. apply Permutation_length. apply NoDup_Permutation.
  - by apply NoDup_filter.
  - by apply NoDup_filter.
  - intros x. unfold common_values. rewrite !list_elem_of_filter. tauto.
Qed.

Lemma StronglySorted_lt_NoDup l : StronglySorted Z.lt l -> NoDup l.
Proof.
  induction 1 as [|x l Hs IH Hall]; constructor; [|done].
  intros Hin. eapply Forall_forall in Hall; [|exact Hin]. lia.
Qed.

Lemma run_stage2_spec graph overlap_vertices v nb :
  overlap_vertex.neighborhood v = Some nb ->
  (forall id, id ∈ overlap_vertices -> id <> overlap_vertex.get_id v ->
     exists w nb',
       get_vertex graph id = Some w /\
       overlap_vertex.neighborhood w = Some nb' /\
       is_Some (overlap.get_union_vertices nb nb')) ->
  exists lines,
    overlap_vertex.run_stage2 graph overlap_vertices v = Some lines /\
    Forall2 (fun id line =>
               exists w nb',
                 get_vertex graph id = Some w /\
                 overlap_vertex.neighborhood w = Some nb' /\
                 overlap.get_union_vertices nb nb'
                 = Some (overlap_vertex.line_union line) /\
                 line = {| overlap_vertex.line_v := overlap_vertex.get_id v;
                           overlap_vertex.line_id := id;
                           overlap_vertex.line_common :=
                             overlap.get_common_vertices nb nb';
                           overlap_vertex.line_union :=
                             overlap_vertex.line_union line |})
            (filter (fun id => id <> overlap_vertex.get_id v) overlap_vertices)
            lines.
Proof.
  intros Hnb. induction overlap_vertices as [|id rest IH]; intros Hall.
  { exists []. split; [done|]. constructor. }
  destruct IH as (lines & Hrun & Hlines).
  { intros id' Hin. apply Hall. by right. }
  simpl. rewrite filter_cons.
  destruct (Z.eqb_spec id (overlap_vertex.get_id v)) as [->|Hne].
  - rewrite decide_False by tauto. eauto.
  - rewrite decide_True by done.
    destruct (Hall id) as (w & nb' & Hw & Hnb' & [vunion Hu]); [by left|done|].
    rewrite Hw, Hnb. simpl. rewrite Hnb'. simpl. rewrite Hu. simpl.
    rewrite Hrun. simpl. eexists. split; [reflexivity|].
    constructor; [|done]. exists w, nb'. simpl. done.
Qed.

Lemma closed_counts nb nb' idv idw :
  StronglySorted Z.lt nb -> StronglySorted Z.lt nb' ->
  idv ∈ nb -> idw ∈ nb' -> idv <> idw ->
  Z.of_nat (length nb) + Z.of_nat (length nb') <= INT_MAX ->
  exists vunion,
    overlap.get_union_vertices nb nb' = Some vunion /\
    0 <= overlap.get_common_vertices nb nb' <= vunion /\
    2 <= vunion.
Proof.
  intros Hs Hs' Hv Hw Hne Hlen.
  destruct (counts_of_sorted nb nb' Hs Hs' Hlen) as [Hc Hu].
  eexists. split; [exact Hu|]. rewrite Hc.
  pose proof (union_plus_common nb nb' Hs Hs') as Hsum.
  destruct (unique_merge_written_merged overlap.skip_none overlap.merge_edge
              (fun _ => eq_refl) nb nb') as [Hsu Hmem].
  { eapply StronglySorted_mono; [|exact Hs]. intros; lia. }
  { eapply StronglySorted_mono; [|exact Hs']. intros; lia. }
  set (union := overlap.unique_merge_written overlap.skip_none overlap.merge_edge nb nb')
    in *.
  assert (Hnb : (length nb <= length union)%nat).
  { apply submseteq_length, NoDup_submseteq; [by apply StronglySorted_lt_NoDup|].
    intros x Hx. apply Hmem. rewrite elem_of_app. auto. }
  assert (Htwo : (length [idv; idw] <= length union)%nat).
  { apply submseteq_length, NoDup_submseteq.
    - repeat constructor; set_solver.
    - intros x Hx. apply Hmem. rewrite elem_of_app. set_solver. }
  pose proof (common_le_length nb nb') as Hc1. simpl in Htwo. lia.
Qed.

(** X6.  When the first stage has built the neighbourhoods of a vertex and
    of the vertices of [overlap_vertices], [run_stage2] prints one line for
    each entry of [overlap_vertices] other than the vertex itself, in order,
    and in each line the union counts at least the two vertices and the
    number of common vertices is at most the union, so that the overlap
    printed is a quotient by a positive number and lies between 0 and 1. *)
Theorem run_stage2_lines (graph : list overlap_vertex.t)
  (overlap_vertices : list vertex_id_t) (v : overlap_vertex.t)
  (nb : list vertex_id_t) :
  closed_neighbourhood v nb ->
  (forall id, id ∈ overlap_vertices -> id <> overlap_vertex.get_id v ->
     exists w nb',
       get_vertex graph id = Some w /\ overlap_vertex.get_id w = id /\
       closed_neighbourhood w nb' /\
       Z.of_nat (length nb) + Z.of_nat (length nb') <= INT_MAX) ->
  exists lines,
    overlap_vertex.run_stage2 graph overlap_vertices v = Some lines /\
    overlap_vertex.line_id <$> lines
    = filter (fun id => id <> overlap_vertex.get_id v) overlap_vertices /\
    Forall (fun line =>
              overlap_vertex.line_v line = overlap_vertex.get_id v /\
              0 <= overlap_vertex.line_common line
                <= overlap_vertex.line_union line /\
              2 <= overlap_vertex.line_union line) lines.
Proof.
  intros (Hnb & Hs & Hself) Hall.
  destruct (run_stage2_spec graph overlap_vertices v nb Hnb) as (lines & Hrun & Hlines).
  { intros id Hin Hne.
    destruct (Hall id Hin Hne) as (w & nb' & Hw & _ & (Hnb' & Hs' & _) & Hlen).
    exists w, nb'. split; [done|]. split; [done|].
    destruct (counts_of_sorted nb nb' Hs Hs' Hlen) as [_ ->]. done. }
  exists lines. split; [done|]. clear Hrun.
  assert (Hin : Forall (fun id => id ∈ overlap_vertices /\ id <> overlap_vertex.get_id v)
                  (filter (fun id => id <> overlap_vertex.get_id v) overlap_vertices)).
  { apply Forall_forall. intros id Hid. apply list_elem_of_filter in Hid. tauto. }
  revert Hlines Hin.
  generalize (filter (fun id => id <> overlap_vertex.get_id v) overlap_vertices).
  intros ids Hlines. induction Hlines as [|id line ids lines Hline _ IH]; intros Hin.
  { split; [done|constructor]. }
  apply Forall_cons in Hin as [[Hid Hne] Hin].
  destruct (IH Hin) as [IH1 IH2]. clear IH.
  destruct Hline as (w & nb' & Hw & Hnb' & Hu & Hline).
  destruct (Hall id Hid Hne) as (w' & nb'' & Hw' & Hidw & (Hnb'' & Hs' & Hself') & Hlen).
  rewrite Hw in Hw'. injection Hw' as <-.
  rewrite Hnb' in Hnb''. injection Hnb'' as <-.
  destruct (closed_counts nb nb' _ _ Hs Hs' Hself Hself' ltac:(congruence) Hlen)
    as (vunion & Hu' & Hbounds).
  rewrite Hu' in Hu. injection Hu as Hu.
  split.
  - rewrite fmap_cons, IH1. f_equal. rewrite Hline. done.
  - constructor; [|done]. rewrite Hline. simpl. rewrite <- Hu. done.
Qed.

Lemma run_stage2_lines_witness :
  exists lines,
    overlap_vertex.run_stage2 path_overlap_graph [0; 1; 2]
      {| overlap_vertex.get_id := 1; overlap_vertex.neighborhood := Some [0; 1; 2] |}
    = Some lines /\
    overlap_vertex.line_id <$> lines = [0; 2] /\
    Forall (fun line =>
              overlap_vertex.line_v line = 1 /\
              0 <= overlap_vertex.line_common line
                <= overlap_vertex.line_union line /\
              2 <= overlap_vertex.line_union line) lines.
Proof.
  apply (run_stage2_lines path_overlap_graph [0; 1; 2]
           {| overlap_vertex.get_id := 1; overlap_vertex.neighborhood := Some [0; 1; 2] |}
           [0; 1; 2]).
  - split; [done|]. split; [repeat constructor; lia|]. simpl. set_solver.
  - intros id Hid Hne. simpl in Hne.
    assert (id = 0 \/ id = 2) as [-> | ->] by set_solver.
    + eexists _, [0; 1]. split; [reflexivity|]. split; [done|].
      split; [|unfold INT_MAX; simpl; lia].
      split; [done|]. split; [repeat constructor; lia|]. simpl. set_solver.
    + eexists _, [1; 2]. split; [reflexivity|]. split; [done|].
      split; [|unfold INT_MAX; simpl; lia].
      split; [done|]. split; [repeat constructor; lia|]. simpl. set_solver.
Defined.

Lemma run_stage2_elem graph overlap_vertices v lines id :
  overlap_vertex.run_stage2 graph overlap_vertices v = Some lines ->
  id ∈ overlap_vertices -> id <> overlap_vertex.get_id v ->
  exists w nb nb' vunion,
    overlap_vertex.neighborhood v = Some nb /\
    get_vertex graph id = Some w /\
    overlap_vertex.neighborhood w = Some nb' /\
    overlap.get_union_vertices nb nb' = Some vunion /\
    {| overlap_vertex.line_v := overlap_vertex.get_id v;
       overlap_vertex.line_id := id;
       overlap_vertex.line_common := overlap.get_common_vertices nb nb';
       overlap_vertex.line_union := vunion |} ∈ lines.
Proof.
  revert lines. induction overlap_vertices as [|id' rest IH]; intros lines Hrun Hin Hne.
  { inversion Hin. }
  simpl in Hrun. destruct (Z.eqb_spec id' (overlap_vertex.get_id v)) as [->|Hne'].
  - apply elem_of_cons in Hin as [->|Hin]; [done|]. by apply IH.
  - destruct (get_vertex graph id') as [w'|] eqn:Hw'; [|done]. simpl in Hrun.
    destruct (overlap_vertex.neighborhood v) as [nb|] eqn:Hnb; [|done]. simpl in Hrun.
    destruct (overlap_vertex.neighborhood w') as [nb'|] eqn:Hnb'; [|done]. simpl in Hrun.
    destruct (overlap.get_union_vertices nb nb') as [vunion|] eqn:Hu; [|done].
    simpl in Hrun.
    destruct (overlap_vertex.run_stage2 graph rest v) as [lines'|] eqn:Hrest; [|done].
    simpl in Hrun. injection Hrun as <-.
    apply elem_of_cons in Hin as [->|Hin].
    + exists w', nb, nb', vunion. repeat split; try done. by left.
    + destruct (IH lines' eq_refl Hin Hne) as (w & nb0 & nb0' & vu & H1 & H2 & H3 & H4 & H5).
      exists w, nb0, nb0', vu. repeat split; try done. by right.
Qed.

Lemma counts_comm l1 l2 :
  StronglySorted Z.lt l1 -> StronglySorted Z.lt l2 ->
  Z.of_nat (length l1) + Z.of_nat (length l2) <= INT_MAX ->
  overlap.get_common_vertices l1 l2 = overlap.get_common_vertices l2 l1 /\
  overlap.get_union_vertices l1 l2 = overlap.get_union_vertices l2 l1.
Proof.
  intros Hs1 Hs2 Hlen.
  destruct (counts_of_sorted l1 l2 Hs1 Hs2 Hlen) as [-> ->].
  destruct (counts_of_sorted l2 l1 Hs2 Hs1 ltac:(lia)) as [-> ->].
  rewrite (common_values_length_comm l1 l2) by (by apply StronglySorted_lt_NoDup).
  split; [done|]. f_equal. lia.
Qed.

(** X7.  The overlap is symmetric: when two vertices of [overlap_vertices]
    have the neighbourhoods the first stage builds, the line that
    [run_stage2] prints for the first about the second carries the same
    two counts as the line it prints for the second about the first. *)
Theorem run_stage2_symmetric (graph : list overlap_vertex.t)
  (overlap_vertices : list vertex_id_t) (v w : overlap_vertex.t)
  (nb nb' : list vertex_id_t) (lines lines' : list overlap_vertex.line) :
  closed_neighbourhood v nb -> closed_neighbourhood w nb' ->
  Z.of_nat (length nb) + Z.of_nat (length nb') <= INT_MAX ->
  get_vertex graph (overlap_vertex.get_id v) = Some v ->
  get_vertex graph (overlap_vertex.get_id w) = Some w ->
  overlap_vertex.get_id v ∈ overlap_vertices ->
  overlap_vertex.get_id w ∈ overlap_vertices ->
  overlap_vertex.get_id v <> overlap_vertex.get_id w ->
  overlap_vertex.run_stage2 graph overlap_vertices v = Some lines ->
  overlap_vertex.run_stage2 graph overlap_vertices w = Some lines' ->
  exists common vunion,
    {| overlap_vertex.line_v := overlap_vertex.get_id v;
       overlap_vertex.line_id := overlap_vertex.get_id w;
       overlap_vertex.line_common := common;
       overlap_vertex.line_union := vunion |} ∈ lines /\
    {| overlap_vertex.line_v := overlap_vertex.get_id w;
       overlap_vertex.line_id := overlap_vertex.get_id v;
       overlap_vertex.line_common := common;
       overlap_vertex.line_union := vunion |} ∈ lines'.
Proof.
  intros (Hnb & Hs & _) (Hnb' & Hs' & _) Hlen Hv Hw Hinv Hinw Hne Hrun Hrun'.
  destruct (run_stage2_elem _ _ _ _ _ Hrun Hinw ltac:(congruence))
    as (w1 & nb1 & nb1' & vunion & E1 & E2 & E3 & Hu & Hline).
  destruct (run_stage2_elem _ _ _ _ _ Hrun' Hinv Hne)
    as (v1 & nb2 & nb2' & vunion' & F1 & F2 & F3 & Hu' & Hline').
  rewrite Hnb in E1. injection E1 as <-. rewrite Hw in E2. injection E2 as <-.
  rewrite Hnb' in E3. injection E3 as <-.
  rewrite Hnb' in F1. injection F1 as <-. rewrite Hv in F2. injection F2 as <-.
  rewrite Hnb in F3. injection F3 as <-.
  destruct (counts_comm nb nb' Hs Hs' Hlen) as [Hc Hun].
  exists (overlap.get_common_vertices nb nb'), vunion. split; [done|].
  rewrite Hc. rewrite Hun, Hu' in Hu. by injection Hu as <-.
Qed.

Lemma run_stage2_symmetric_witness :
  exists common vunion,
    {| overlap_vertex.line_v := 0; overlap_vertex.line_id := 1;
       overlap_vertex.line_common := common;
       overlap_vertex.line_union := vunion |}
    ∈ [ {| overlap_vertex.line_v := 0; overlap_vertex.line_id := 1;
           overlap_vertex.line_common := 2; overlap_vertex.line_union := 3 |};
        {| overlap_vertex.line_v := 0; overlap_vertex.line_id := 2;
           overlap_vertex.line_common := 1; overlap_vertex.line_union := 3 |} ] /\
    {| overlap_vertex.line_v := 1; overlap_vertex.line_id := 0;
       overlap_vertex.line_common := common;
       overlap_vertex.line_union := vunion |}
    ∈ [ {| overlap_vertex.line_v := 1; overlap_vertex.line_id := 0;
           overlap_vertex.line_common := 2; overlap_vertex.line_union := 3 |};
        {| overlap_vertex.line_v := 1; overlap_vertex.line_id := 2;
           overlap_vertex.line_common := 2; overlap_vertex.line_union := 3 |} ].
Proof.
  apply (run_stage2_symmetric path_overlap_graph [0; 1; 2]
           {| overlap_vertex.get_id := 0; overlap_vertex.neighborhood := Some [0; 1] |}
           {| overlap_vertex.get_id := 1; overlap_vertex.neighborhood := Some [0; 1; 2] |}
           [0; 1] [0; 1; 2]); try reflexivity.
  - split; [done|]. split; [repeat constructor; lia|]. simpl. set_solver.
  - split; [done|]. split; [repeat constructor; lia|]. simpl. set_solver.
  - unfold INT_MAX. simpl. lia.
  - simpl. set_solver.
  - simpl. set_solver.
  - simpl. lia.
Defined.

(** ** [global_max] *)

Lemma update_unfold new_v value :
  global_max.update new_v value
  = (if value <? new_v then new_v else value, value <? new_v).
Proof.
  unfold global_max.update.
  destruct (Z.leb_spec new_v value), (Z.ltb_spec value new_v),
    (Z.gtb_spec new_v value); try lia; reflexivity.
Qed.

Lemma max_of_ge init cands : init <= max_of init cands.
Proof.
  unfold max_of. revert init.
  induction cands as [|c cands IH]; intros init; simpl; [lia|].
  specialize (IH (Z.max init c)). lia.
Qed.

Lemma max_of_lt init cands c :
  max_of init cands < c <-> init < c /\ Forall (fun c' => c' < c) cands.
Proof.
  revert init. induction cands as [|c' cands IH]; intros init.
  - unfold max_of. simpl. split; [intros; split; [done|constructor]|tauto].
  - unfold max_of in *. simpl. rewrite IH, Forall_cons. intuition lia.
Qed.

Lemma max_of_snoc init cands c :
  max_of init (cands ++ [c]) = Z.max (max_of init cands) c.
Proof. unfold max_of. by rewrite foldl_app. Qed.

Lemma run_updates_spec cands :
  forall seen init,
    (run_updates cands (max_of init seen)).1 = max_of init (seen ++ cands) /\
    (run_updates cands (max_of init seen)).2
    = imap (fun i c =>
              bool_decide (init < c /\
                           Forall (fun c' => c' < c) (seen ++ take i cands)))
        cands.
Proof.
  induction cands as [|c cands IH]; intros seen init.
  - simpl. by rewrite app_nil_r.
  - simpl. rewrite update_unfold.
    assert (Hm : (if max_of init seen <? c then c else max_of init seen)
                 = max_of init (seen ++ [c])).
    { rewrite max_of_snoc. destruct (Z.ltb_spec (max_of init seen) c); lia. }
    rewrite Hm. destruct (IH (seen ++ [c]) init) as [IH1 IH2].
    destruct (run_updates cands (max_of init (seen ++ [c]))) as [value rets].
    simpl in *. split.
    + by rewrite IH1, <- app_assoc.
    + f_equal.
      * rewrite app_nil_r. symmetry.
        destruct (Z.ltb_spec (max_of init seen) c) as [Hlt|Hge].
        -- apply bool_decide_eq_true. by apply max_of_lt.
        -- apply bool_decide_eq_false. rewrite <- max_of_lt. lia.
      * rewrite IH2. apply imap_ext. intros i x _. simpl.
        by rewrite <- app_assoc.
Qed.

Lemma max_of_elem init cands : max_of init cands ∈ init :: cands.
Proof.
  unfold max_of. revert init. induction cands as [|c cands IH]; intros init; simpl.
  - by left.
  - specialize (IH (Z.max init c)). apply elem_of_cons in IH as [Heq|Hin].
    + rewrite Heq. destruct (Z.max_spec init c) as [[_ ->]|[_ ->]];
        [right; left|left].
    + by do 2 right.
Qed.

Lemma max_of_upper init cands c : c ∈ init :: cands -> c <= max_of init cands.
Proof.
  unfold max_of. revert init. induction cands as [|c' cands IH]; intros init Hin; simpl.
  - apply list_elem_of_singleton in Hin as ->. lia.
  - pose proof (max_of_ge (Z.max init c') cands) as Hge. unfold max_of in Hge.
    apply elem_of_cons in Hin as [->|Hin]; [lia|].
    apply elem_of_cons in Hin as [->|Hin]; [lia|].
    apply IH. by right.
Qed.

Lemma installed_by_spec cands : forall value,
  (run_updates cands value).1 ∈ value :: installed_by cands value /\
  (forall x, x ∈ installed_by cands value -> x ∈ cands).
Proof.
  induction cands as [|c cands IH]; intros value; simpl.
  { split; [by left|]. intros x Hx. inversion Hx. }
  rewrite update_unfold.
  destruct (IH (if value <? c then c else value)) as [IHv IHin].
  destruct (run_updates cands _) as [value' rets]. simpl in *.
  destruct (value <? c); simpl.
  - split; [by right|]. intros x Hx.
    apply elem_of_cons in Hx as [->|Hx]; [by left|right; by apply IHin].
  - split.
    + apply elem_of_cons in IHv as [->|Hv]; [by left|by right].
    + intros x Hx. right. by apply IHin.
Qed.

Lemma installed_below init cands c :
  Forall (fun x => x < c) (installed init cands) <-> max_of init cands < c.
Proof.
  destruct (installed_by_spec cands (global_max.new init)) as [Hv Hin].
  destruct (run_updates_spec cands [] init) as [Hmax _]. simpl in Hmax.
  unfold global_max.new in *. rewrite Hmax in Hv. unfold installed. split.
  - intros Hall. eapply Forall_forall in Hall; [exact Hall|done].
  - intros Hlt. apply Forall_forall. intros x Hx.
    assert (x <= max_of init cands); [|lia].
    apply max_of_upper. apply elem_of_cons in Hx as [->|Hx]; [by left|].
    right. by apply Hin.
Qed.

(** C2.  [update] installs the candidate exactly when it is strictly greater
    than the current value and returns whether it did.  After any sequence
    of updates the value is the largest of the initial value and all
    candidates, and the call for a candidate returns true exactly when the
    candidate is strictly greater than every value the object has held
    before, the constructor's included; that is, than the initial value and
    every candidate submitted before it. *)
Theorem global_max_update_sequence :
  (forall new_v value,
      global_max.update new_v value
      = (if value <? new_v then new_v else value, value <? new_v)) /\
  (forall cands init,
      global_max.get (run_updates cands (global_max.new init)).1
      = max_of init cands) /\
  (forall cands init,
      (run_updates cands (global_max.new init)).2
      = imap (fun i c =>
                bool_decide (Forall (fun x => x < c) (installed init (take i cands))))
          cands) /\
  (forall cands init,
      (run_updates cands (global_max.new init)).2
      = imap (fun i c =>
                bool_decide (init < c /\ Forall (fun c' => c' < c) (take i cands)))
          cands).
Proof.
  split; [exact update_unfold|].
  split; [|split]; intros cands init.
  - apply (run_updates_spec cands [] init).
  - destruct (run_updates_spec cands [] init) as [_ Hrets].
    change (max_of init []) with (global_max.new init) in Hrets.
    rewrite Hrets. apply imap_ext.
    intros i c _. simpl. apply bool_decide_ext.
    by rewrite installed_below, max_of_lt.
  - apply (run_updates_spec cands [] init).
Qed.

Example run_updates_example :
  run_updates [3; 7; 7; 2; 9] (global_max.new 5)
  = (9, [false; true; false; false; true]).
Proof. reflexivity. Qed.

(** ** [global_max] under interleaving *)

Lemma update_call_step_spec value c :
  let r := update_call.step value c in
  update_call.new_v r.2 = update_call.new_v c /\
  value <= r.1 /\
  (r.1 = value \/ r.1 = update_call.new_v c) /\
  ((has_returned c -> update_call.new_v c <= value) ->
   has_returned r.2 -> update_call.new_v c <= r.1).
Proof.
  unfold update_call.step, has_returned. destruct c as [new_v [| |ret]]; simpl.
  - destruct (Z.leb_spec new_v value); simpl; repeat split; try done; try lia; auto.
  - destruct (Z.gtb_spec new_v value); simpl; repeat split; try done; try lia; auto.
  - repeat split; try done; try lia; auto.
Qed.

Lemma thread_step_inv init cands s i :
  update_threads_inv init cands s ->
  update_threads_inv init cands (thread_step s i) /\
  shared_value s <= shared_value (thread_step s i).
Proof.
  intros (Hc & Hinit & Hin & Hret). unfold thread_step.
  destruct (calls s !! i) as [c|] eqn:Hi; [|by split; [split|lia]].
  destruct (update_call_step_spec (shared_value s) c) as (Hnew & Hle & Hval & Hdone).
  destruct (update_call.step (shared_value s) c) as [value c']. simpl in *.
  split; [|done]. split; [|split; [simpl; lia|split]]; simpl.
  - rewrite list_fmap_insert, Hnew. rewrite list_insert_id; [done|].
    by rewrite list_lookup_fmap, Hi.
  - destruct Hval as [->| ->]; [done|]. right. rewrite <- Hc.
    apply list_elem_of_fmap. exists c. split; [done|]. by eapply list_elem_of_lookup_2.
  - apply Forall_insert.
    + eapply Forall_impl; [exact Hret|]. simpl. intros c0 Hc0 Hr. specialize (Hc0 Hr). lia.
    + rewrite Hnew. apply Hdone. eapply Forall_lookup_1 in Hret; [|exact Hi]. done.
Qed.

Lemma run_schedule_inv init cands schedule : forall s,
  update_threads_inv init cands s ->
  update_threads_inv init cands (run_schedule schedule s) /\
  shared_value s <= shared_value (run_schedule schedule s).
Proof.
  unfold run_schedule. induction schedule as [|i schedule IH]; intros s Hs; simpl.
  - split; [done|lia].
  - destruct (thread_step_inv init cands s i Hs) as [Hs' Hle].
    destruct (IH _ Hs') as [Hs'' Hle']. split; [done|lia].
Qed.

Lemma start_updates_inv init cands :
  update_threads_inv init cands (start_updates init cands).
Proof.
  unfold update_threads_inv, start_updates, global_max.new. simpl.
  split; [|split; [lia|split; [by left|]]].
  - rewrite <- list_fmap_compose. by rewrite list_fmap_id.
  - apply Forall_fmap, Forall_forall. intros c _. simpl. done.
Qed.

(** A call that takes its two steps with no other call in between is
    [update]. *)
Lemma update_call_alone new_v value :
  let '(value1, c1) := update_call.step value (update_call.new new_v) in
  let '(value2, c2) := update_call.step value1 c1 in
  (value2, update_call.at_pc c2)
  = let '(value', ret) := global_max.update new_v value in
    (value', update_call.returned ret).
Proof.
  unfold update_call.step, global_max.update. simpl.
  destruct (new_v <=? value) eqn:Hle; simpl; [done|].
  by destruct (new_v >? value).
Qed.

(** X1.  Whatever the interleaving of the steps of concurrent [update]
    calls, the value never decreases and is the initial value or one of the
    candidates, every call that has returned has its candidate at or below
    the value, and once all calls have returned the value is the largest of
    the initial value and all candidates. *)
Theorem global_max_interleaved (init : Z) (cands : list Z) (schedule more : list nat) :
  let s := run_schedule schedule (start_updates init cands) in
  shared_value s <= shared_value (run_schedule more s) /\
  shared_value s ∈ init :: cands /\
  Forall (fun c => has_returned c -> update_call.new_v c <= shared_value s) (calls s) /\
  (Forall has_returned (calls s) -> shared_value s = max_of init cands).
Proof.
  intros s.
  destruct (run_schedule_inv init cands schedule _ (start_updates_inv init cands))
    as [Hs _]. fold s in Hs.
  destruct (run_schedule_inv init cands more s Hs) as [_ Hle].
  destruct Hs as (Hc & Hinit & Hin & Hret).
  split; [done|]. split; [done|]. split; [done|]. intros Hall.
  apply Z.le_antisymm; [by apply max_of_upper|].
  pose proof (max_of_elem init cands) as Hm.
  apply elem_of_cons in Hm as [->|Hm]; [done|].
  assert (Hm' : max_of init cands ∈ update_call.new_v <$> calls s) by (by rewrite Hc).
  apply list_elem_of_fmap in Hm' as (c & Heq & Hcin). rewrite Heq.
  eapply Forall_forall in Hret; [|exact Hcin]. apply Hret.
  eapply Forall_forall in Hall; [|exact Hcin]. done.
Qed.

(** Two calls whose unlocked tests both pass before either takes the lock:
    the smaller candidate, arriving second, is refused under the lock. *)
Example global_max_race :
  run_schedule [0; 1; 1; 0]%nat (start_updates 0 [3; 7])
  = {| shared_value := 7;
       calls := [ {| update_call.new_v := 3;
                     update_call.at_pc := update_call.returned false |};
                  {| update_call.new_v := 7;
                     update_call.at_pc := update_call.returned true |} ] |}.
Proof. reflexivity. Qed.

(** ** [scan_collection] *)

Lemma greater_swo : strict_weak_ordering scan_collection.greater.
Proof.
  unfold scan_collection.greater.
  split; intros; repeat match goal with
    | H : (_ >? _) = true |- _ => apply Z.gtb_gt in H
    | H : (_ >? _) = false |- _ => rewrite Z.gtb_ltb in H; apply Z.ltb_ge in H
    end; rewrite ?Z.gtb_ltb, ?Z.ltb_ge, ?Z.ltb_lt; lia.
Qed.

Lemma sorted_by_greater l :
  sorted_by scan_collection.greater l <-> descending l.
Proof.
  unfold sorted_by, descending, scan_collection.greater.
  split; intros Hs; (eapply StronglySorted_mono; [|exact Hs]); simpl;
    intros a b; rewrite Z.gtb_ltb, Z.ltb_ge; lia.
Qed.

Lemma added_app ops1 ops2 : added (ops1 ++ ops2) = added ops1 ++ added ops2.
Proof.
  induction ops1 as [|[id scan|idx] ops1 IH]; simpl; [done| |done].
  by rewrite IH.
Qed.

(** Two descending arrangements of the same entries carry the same scores
    at every position. *)
Lemma descending_scores_unique l1 l2 :
  l1 ≡ₚ l2 -> descending l1 -> descending l2 -> l1.*2 = l2.*2.
Proof.
  intros Hp H1 H2.
  assert (Hanti : AntiSymm (=) (fun a b : Z => a >= b)) by (intros a b ? ?; lia).
  apply (StronglySorted_unique (fun a b : Z => a >= b)).
  - by apply StronglySorted_fmap_2.
  - by apply StronglySorted_fmap_2.
  - by rewrite Hp.
Qed.

Section scan_collection_facts.

Context `{StdSort}.

(** What every reachable collection satisfies: it holds the added entries,
    and it is in descending order whenever the flag says so. *)
Lemma run_ops_invariant ops :
  scan_collection.scans (run_ops ops) ≡ₚ added ops /\
  (scan_collection.sorted (run_ops ops) = true ->
   descending (scan_collection.scans (run_ops ops))).
Proof.
  induction ops as [|o ops IH] using rev_ind.
  - split; [done|]. simpl. discriminate.
  - unfold run_ops in *. rewrite foldl_app, added_app. simpl.
    destruct IH as [IHp IHs].
    set (c := foldl run_op scan_collection.new ops) in *.
    destruct o as [id scan|idx]; simpl.
    + split; [by rewrite IHp|discriminate].
    + rewrite app_nil_r. destruct (scan_collection.sorted c) eqn:Hsorted; simpl.
      * split; [done|auto].
      * split; [by rewrite std_sort_perm|].
        intros _. apply sorted_by_greater, std_sort_sorted, greater_swo.
Qed.

Lemma get_sorts idx c :
  scan_collection.scans c ≡ₚ scan_collection.scans (scan_collection.get idx c).1 /\
  scan_collection.sorted (scan_collection.get idx c).1 = true /\
  ((scan_collection.sorted c = true -> descending (scan_collection.scans c)) ->
   descending (scan_collection.scans (scan_collection.get idx c).1)).
Proof.
  unfold scan_collection.get.
  destruct (scan_collection.sorted c) eqn:Hsorted; simpl.
  - auto.
  - split; [by rewrite std_sort_perm|]. split; [done|].
    intros _. apply sorted_by_greater, std_sort_sorted, greater_swo.
Qed.

End scan_collection_facts.

(** C3.  [add] clears the flag; [get] sorts exactly when the flag is clear
    and sets it, so a [get] that follows a [get] leaves the vector as it is.
    After any sequence of calls, [get(k)] for [k] below the number of added
    entries returns the entry at position [k] of the vector, which then
    holds all added entries in descending order of score; whatever
    descending arrangement of the added entries one takes, its score at
    position [k] is the score returned. *)
Theorem scan_collection_get_kth `{StdSort} :
  (forall id scan c,
      scan_collection.sorted (scan_collection.add id scan c) = false) /\
  (forall idx c,
      scan_collection.sorted c = false ->
      (scan_collection.get idx c).1
      = {| scan_collection.sorted := true;
           scan_collection.scans :=
             std_sort scan_collection.greater (scan_collection.scans c) |}) /\
  (forall idx c,
      scan_collection.sorted c = true -> (scan_collection.get idx c).1 = c) /\
  (forall (ops : list scan_op) (k : Z),
      0 <= k <= INT_MAX -> k < Z.of_nat (length (added ops)) ->
      exists c' e,
        scan_collection.get k (run_ops ops) = (c', Some e) /\
        scan_collection.scans c' ≡ₚ added ops /\
        descending (scan_collection.scans c') /\
        scan_collection.scans c' !! Z.to_nat k = Some e /\
        forall l, l ≡ₚ added ops -> descending l ->
                  l.*2 !! Z.to_nat k = Some e.2).
Proof.
  split; [done|]. split.
  { intros idx c Hs. unfold scan_collection.get. by rewrite Hs. }
  split.
  { intros idx c Hs. unfold scan_collection.get. by rewrite Hs. }
  intros ops k Hk Hlen.
  destruct (run_ops_invariant ops) as [Hp Hs].
  destruct (get_sorts k (run_ops ops)) as (Hp' & _ & Hd). specialize (Hd Hs).
  destruct (scan_collection.get k (run_ops ops)) as [c' r] eqn:Hget.
  assert (Hr : r = scan_collection.scans c' !! Z.to_nat k).
  { unfold scan_collection.get in Hget. injection Hget as <- <-.
    unfold subscript, to_size_t. rewrite Z.mod_small; [done|].
    unfold INT_MAX in Hk. lia. }
  simpl in *. rewrite Hp' in Hp.
  destruct (lookup_lt_is_Some_2 (scan_collection.scans c') (Z.to_nat k)) as [e He].
  { rewrite Hp. lia. }
  exists c', e. subst r. rewrite He. repeat split; auto.
  intros l Hl Hdl.
  rewrite (descending_scores_unique l (scan_collection.scans c')); [|by rewrite Hp|done..].
  by rewrite list_lookup_fmap, He.
Qed.

Lemma scan_collection_get_kth_witness :
  exists c' e,
    scan_collection.get (H := merge_StdSort) 1
      (run_ops (H := merge_StdSort) [op_add 4 10; op_add 9 30; op_get 0; op_add 2 20])
    = (c', Some e) /\
    scan_collection.scans c' ≡ₚ [(4, 10); (9, 30); (2, 20)] /\
    descending (scan_collection.scans c') /\
    scan_collection.scans c' !! 1%nat = Some e /\
    forall l, l ≡ₚ [(4, 10); (9, 30); (2, 20)] -> descending l ->
              l.*2 !! 1%nat = Some e.2.
Proof.
  apply (proj2 (proj2 (proj2 (@scan_collection_get_kth merge_StdSort)))
           [op_add 4 10; op_add 9 30; op_get 0; op_add 2 20] 1).
  - unfold INT_MAX. lia.
  - simpl. lia.
Defined.

Example scan_collection_get_example :
  (scan_collection.get (H := merge_StdSort) 1
     (run_ops (H := merge_StdSort) [op_add 4 10; op_add 9 30; op_get 0; op_add 2 20])).2
  = Some (2, 20).
Proof. reflexivity. Qed.

(** ** [vertex_size_scheduler] *)

Lemma comp_size_swo : strict_weak_ordering vertex_size_scheduler.comp_size.
Proof.
  unfold vertex_size_scheduler.comp_size.
  split; intros; repeat match goal with
    | H : (_ >? _) = true |- _ => apply Z.gtb_gt in H
    | H : (_ >? _) = false |- _ => rewrite Z.gtb_ltb in H; apply Z.ltb_ge in H
    end; rewrite ?Z.gtb_ltb, ?Z.ltb_ge, ?Z.ltb_lt; lia.
Qed.

Lemma get_vertex_valid {V} (graph : list V) id :
  valid_id graph id -> is_Some (get_vertex graph id).
Proof.
  intros [H0 Hlt]. unfold get_vertex. rewrite decide_True by done.
  apply lookup_lt_is_Some_2. lia.
Qed.

Lemma get_vertex_id graph id v :
  index_consistent graph -> get_vertex graph id = Some v ->
  compute_vertex.get_id v = id.
Proof.
  unfold get_vertex. intros Hc Hv. case_decide; [|done].
  rewrite (Hc _ _ Hv). lia.
Qed.

Lemma get_vertex_of_id graph (i : nat) v :
  index_consistent graph -> graph !! i = Some v ->
  get_vertex graph (compute_vertex.get_id v) = Some v.
Proof.
  intros Hc Hv. rewrite (Hc _ _ Hv). unfold get_vertex.
  rewrite decide_True by lia. by rewrite Nat2Z.id.
Qed.

(** C7.  On a consistent index and a vector of valid ids, [schedule]
    leaves a permutation of the vector in which no id is followed, at any
    distance, by the id of a vertex with more edges. *)
Theorem schedule_descending_degree `{StdSort}
  (graph : list compute_vertex.t) (ids : list vertex_id_t) :
  index_consistent graph ->
  Forall (valid_id graph) ids ->
  exists ids',
    vertex_size_scheduler.schedule graph ids = Some ids' /\
    ids' ≡ₚ ids /\
    StronglySorted (fun id1 id2 => num_edges_of graph id1 >= num_edges_of graph id2) ids'.
Proof.
  intros Hc Hvalid. unfold vertex_size_scheduler.schedule.
  destruct (mapM (get_vertex graph) ids) as [vertices|] eqn:Hm; simpl.
  2:{ apply mapM_None in Hm. apply Exists_exists in Hm as (id & Hin & Hnone).
      eapply Forall_forall in Hvalid; [|exact Hin].
      apply get_vertex_valid in Hvalid as [v Hv]. congruence. }
  apply mapM_Some in Hm.
  assert (Hids : compute_vertex.get_id <$> vertices = ids).
  { clear Hvalid. induction Hm as [|id v ids vs Hv _ IH]; simpl; [done|].
    f_equal; [by eapply get_vertex_id|done]. }
  assert (Hback : forall v, v ∈ vertices ->
            get_vertex graph (compute_vertex.get_id v) = Some v).
  { clear Hvalid Hids. induction Hm as [|id v ids vs Hv _ IH]; intros v' Hin.
    - inversion Hin.
    - apply elem_of_cons in Hin as [->|Hin]; [|by apply IH].
      by rewrite (get_vertex_id _ _ _ Hc Hv). }
  eexists. split; [reflexivity|]. split.
  - rewrite <- Hids. by rewrite std_sort_perm.
  - pose proof (std_sort_sorted _ vertex_size_scheduler.comp_size vertices
                  comp_size_swo) as Hs.
    assert (Hback' : forall v,
              v ∈ std_sort vertex_size_scheduler.comp_size vertices ->
              get_vertex graph (compute_vertex.get_id v) = Some v).
    { intros v Hin. apply Hback. by rewrite <- (std_sort_perm _ vertex_size_scheduler.comp_size vertices). }
    clear Hback Hids Hm.
    induction Hs as [|v vs Hs IH Hall]; simpl; constructor.
    + apply IH. intros v' Hin. apply Hback'. by right.
    + apply Forall_fmap, Forall_forall. intros v' Hin. simpl.
      unfold num_edges_of. rewrite (Hback' v) by left.
      rewrite (Hback' v') by (by right). simpl.
      eapply Forall_forall in Hall; [|exact Hin]. simpl in Hall.
      unfold vertex_size_scheduler.comp_size in Hall.
      rewrite Z.gtb_ltb, Z.ltb_ge in Hall. lia.
Qed.

Lemma degree_graph_consistent : index_consistent degree_graph.
Proof.
  intros i v Hv. do 4 (destruct i as [|i]; [by injection Hv as <-|]). done.
Qed.

Lemma schedule_descending_degree_witness :
  exists ids',
    vertex_size_scheduler.schedule (H := merge_StdSort) degree_graph [2; 0; 3; 1; 0]
    = Some ids' /\
    ids' ≡ₚ [2; 0; 3; 1; 0] /\
    StronglySorted
      (fun id1 id2 => num_edges_of degree_graph id1 >= num_edges_of degree_graph id2)
      ids'.
Proof.
  apply (@schedule_descending_degree merge_StdSort degree_graph [2; 0; 3; 1; 0]).
  - exact degree_graph_consistent.
  - repeat constructor; simpl; lia.
Defined.

Example schedule_example :
  vertex_size_scheduler.schedule (H := merge_StdSort) degree_graph [2; 0; 3; 1; 0]
  = Some [3; 1; 0; 0; 2].
Proof. reflexivity. Qed.

(** An id outside the index stops [schedule]. *)
Example schedule_invalid_id :
  vertex_size_scheduler.schedule (H := merge_StdSort) degree_graph [2; 4] = None.
Proof. reflexivity. Qed.

(** ** The pruning of [topK_scan_vertex] *)

(** With the global maximum at 4 the vertex of degree 2 still asks for its
    edges, although its bound, 4, does not exceed the maximum. *)
Lemma run_requests_at_equal_bound :
  topK_scan_vertex.run 4 degree_two_vertex = Some 7 /\
  ~ exceeds_rule 4 degree_two_vertex.
Proof.
  split; [reflexivity|].
  intros [Hreq _]. destruct Hreq as [_ Hgt]; [by eexists|].
  simpl in Hgt. lia.
Qed.

Lemma size_t_mul_small n :
  0 <= n <= UINT_MAX -> size_t_mul n n = n * n.
Proof.
  unfold UINT_MAX, size_t_mul, to_size_t. intros Hn.
  apply Z.mod_small. nia.
Qed.

(** C1, amended.  [run] asks for the vertex's own edges exactly when the
    local scan is not known and either an estimate exists and is strictly
    greater than the global maximum, or no estimate exists and the squared
    degree is at least the global maximum; what it asks for is the vertex's
    own id.  [run_on_itself], given the page vertex of the vertex itself,
    does nothing on a vertex without edges; otherwise it takes the estimate
    (the stored one if there is one, else the one it computes and stores)
    and reaches the computation exactly when that estimate is not below the
    global maximum. *)
Theorem topK_run_pruning :
  (forall max_scan v,
      0 <= topK_scan_vertex.get_num_edges v <= UINT_MAX ->
      (topK_scan_vertex.run max_scan v = Some (topK_scan_vertex.get_id v) \/
       topK_scan_vertex.run max_scan v = None) /\
      (is_Some (topK_scan_vertex.run max_scan v) <->
       topK_scan_vertex.has_local_scan v = false /\
       if topK_scan_vertex.has_est_local v
       then topK_scan_vertex.get_est_local v > max_scan
       else topK_scan_vertex.get_num_edges v * topK_scan_vertex.get_num_edges v
            >= max_scan)) /\
  (forall max_scan graph vertex v,
      page_vertex.get_num_edges vertex BOTH_EDGES = topK_scan_vertex.get_num_edges v ->
      page_vertex.get_num_edges vertex BOTH_EDGES = 0 ->
      topK_scan_vertex.run_on_itself max_scan graph vertex v = Some (v, false)) /\
  (forall max_scan graph vertex v v' est,
      page_vertex.get_num_edges vertex BOTH_EDGES = topK_scan_vertex.get_num_edges v ->
      page_vertex.get_num_edges vertex BOTH_EDGES <> 0 ->
      topK_scan_vertex.get_est_local_scan graph vertex v = Some (v', est) ->
      topK_scan_vertex.run_on_itself max_scan graph vertex v
      = Some (v', negb (est <? max_scan)) /\
      topK_scan_vertex.has_est_local v' = true /\
      topK_scan_vertex.get_est_local v' = est /\
      (topK_scan_vertex.has_est_local v = true ->
       v' = v /\ est = topK_scan_vertex.get_est_local v)).
Proof.
  split; [|split].
  - intros max_scan v Hn. unfold topK_scan_vertex.run, global_max.get.
    rewrite (size_t_mul_small _ Hn).
    destruct (topK_scan_vertex.has_local_scan v).
    { split; [by right|]. split; [by intros [? ?]|by intros [? _]]. }
    destruct (topK_scan_vertex.has_est_local v).
    + destruct (Z.gtb_spec (topK_scan_vertex.get_est_local v) max_scan).
      * split; [by left|]. split; [intros _; split; [done|lia]|by eexists].
      * split; [by right|]. split; [by intros [? ?]|intros [_ ?]; lia].
    + rewrite Z.geb_leb.
      destruct (Z.leb_spec max_scan
                  (topK_scan_vertex.get_num_edges v * topK_scan_vertex.get_num_edges v)).
      * split; [by left|]. split; [intros _; split; [done|lia]|by eexists].
      * split; [by right|]. split; [by intros [? ?]|intros [_ ?]; lia].
  - intros max_scan graph vertex v Hdeg Hz. unfold topK_scan_vertex.run_on_itself.
    rewrite <- Hdeg, Z.eqb_refl. cbn [negb]. by rewrite Hz.
  - intros max_scan graph vertex v v' est Hdeg Hnz Hest.
    unfold topK_scan_vertex.run_on_itself.
    rewrite <- Hdeg, Z.eqb_refl. cbn [negb].
    rewrite (proj2 (Z.eqb_neq _ _) Hnz), Hest. simpl.
    unfold global_max.get. split; [by destruct (est <? max_scan)|].
    unfold topK_scan_vertex.get_est_local_scan in Hest.
    destruct (topK_scan_vertex.has_est_local v) eqn:Hhas.
    + injection Hest as <- <-. by repeat split.
    + destruct (overlap.unique_merge _ _ _ _) as [written num_neighbors].
      destruct (overlap.write_from_begin _ _) as [all_neighbors|]; [|done].
      simpl in Hest.
      destruct (topK_scan_vertex.sum_neighbor_edges _ _ _ _) as [tot_edges|];
        [|done].
      simpl in Hest. injection Hest as <- <-. simpl. by repeat split.
Qed.

Lemma topK_run_pruning_witness :
  (topK_scan_vertex.run 4 degree_two_vertex
     = Some (topK_scan_vertex.get_id degree_two_vertex) \/
   topK_scan_vertex.run 4 degree_two_vertex = None) /\
  (is_Some (topK_scan_vertex.run 4 degree_two_vertex) <->
   topK_scan_vertex.has_local_scan degree_two_vertex = false /\
   if topK_scan_vertex.has_est_local degree_two_vertex
   then topK_scan_vertex.get_est_local degree_two_vertex > 4
   else topK_scan_vertex.get_num_edges degree_two_vertex
        * topK_scan_vertex.get_num_edges degree_two_vertex >= 4).
Proof.
  apply (proj1 topK_run_pruning 4 degree_two_vertex).
  unfold UINT_MAX. simpl. lia.
Defined.

(** The estimate of the centre is (4 + 1 + 1 + 5) / 2 = 5; with the maximum
    at 6 the computation is skipped, with the maximum at 5 it is not. *)
Example run_on_itself_example :
  snd <$> topK_scan_vertex.run_on_itself 6 star_graph star_centre
            (default degree_two_vertex (star_graph !! 0%nat)) = Some false /\
  snd <$> topK_scan_vertex.run_on_itself 5 star_graph star_centre
            (default degree_two_vertex (star_graph !! 0%nat)) = Some true /\
  snd <$> topK_scan_vertex.get_est_local_scan star_graph star_centre
            (default degree_two_vertex (star_graph !! 0%nat)) = Some 5.
Proof. repeat split; reflexivity. Qed.

(** ** The loops of [main] *)

Section main_facts.

Context `{StdSort}.
Variable graph_engine : Type.
Variable start_wait4complete :
  vertex_filter -> graph_engine * globals -> graph_engine * globals.

Abbreviation refine_pass := (main.refine_pass graph_engine start_wait4complete).
Abbreviation second_stage := (main.second_stage graph_engine start_wait4complete).
Abbreviation first_stage := (main.first_stage graph_engine start_wait4complete).
Abbreviation nth_pass := (nth_pass graph_engine start_wait4complete).

Lemma second_stage_exits fuel st st_final :
  second_stage fuel st = Some st_final <->
  exists n, (n < fuel)%nat /\
    (forall m, (m < n)%nat ->
       exists s prev cur, nth_pass m st = Some (s, prev, cur) /\ prev <> cur) /\
    exists prev, nth_pass n st = Some (st_final, prev, prev).
Proof.
  revert st. induction fuel as [|fuel IH]; intros st.
  { simpl. split; [done|]. intros (n & ? & _). lia. }
  simpl. destruct (refine_pass st) as [[[st1 prev] cur]|] eqn:Hpass; simpl.
  2:{ split; [done|]. intros ([|n] & _ & Hbefore & prev & Hn).
      - simpl in Hn. congruence.
      - destruct (Hbefore 0%nat) as (? & ? & ? & H0 & _); [lia|].
        simpl in H0. congruence. }
  destruct (Z.eqb_spec prev cur) as [->|Hne]; simpl.
  - split.
    + intros [= <-]. exists 0%nat. split; [lia|]. split; [intros; lia|].
      exists cur. done.
    + intros ([|n] & _ & Hbefore & prev & Hn).
      * simpl in Hn. congruence.
      * destruct (Hbefore 0%nat) as (? & ? & ? & H0 & Hd); [lia|].
        simpl in H0. congruence.
  - rewrite IH. split.
    + intros (n & Hn & Hbefore & prev' & Hlast). exists (S n).
      split; [lia|]. split.
      * intros [|m] Hm; simpl.
        -- by exists st1, prev, cur.
        -- rewrite Hpass. simpl. apply Hbefore. lia.
      * exists prev'. simpl. by rewrite Hpass.
    + intros ([|n] & Hn & Hbefore & prev' & Hlast).
      * simpl in Hlast. congruence.
      * exists n. split; [lia|]. split.
        -- intros m Hm. specialize (Hbefore (S m)). simpl in Hbefore.
           rewrite Hpass in Hbefore. apply Hbefore. lia.
        -- exists prev'. simpl in Hlast. by rewrite Hpass in Hlast.
Qed.

Lemma topK_scan_inv g g' s :
  main.topK_scan g = Some (g', s) ->
  exists ks e,
    scan_collection.get (main.topK - 1) (known_scans g) = (ks, Some e) /\
    s = e.2 /\
    g' = {| max_scan := max_scan g; known_scans := ks |}.
Proof.
  unfold main.topK_scan.
  change (to_int (to_size_t (main.topK - 1))) with (main.topK - 1).
  destruct (scan_collection.get (main.topK - 1) (known_scans g)) as [ks [e|]];
    intros Hs; [|done].
  injection Hs as <- <-. by exists ks, e.
Qed.

Lemma refine_pass_inv st st' prev cur :
  refine_pass st = Some (st', prev, cur) ->
  exists ks e,
    scan_collection.get (main.topK - 1) (known_scans st.2) = (ks, Some e) /\
    prev = e.2 /\
    exists ks' e',
      let out :=
        start_wait4complete (remove_small_scan_filter prev)
          (st.1, {| max_scan := global_max.new prev; known_scans := ks |}) in
      scan_collection.get (main.topK - 1) (known_scans out.2) = (ks', Some e') /\
      cur = e'.2 /\
      st' = (out.1, {| max_scan := max_scan out.2; known_scans := ks' |}).
Proof.
  unfold main.refine_pass. intros Hpass.
  destruct (main.topK_scan st.2) as [[g1 prev1]|] eqn:H1; [|done].
  apply topK_scan_inv in H1 as (ks & e & Hget & -> & ->).
  cbn [mbind option_bind known_scans] in Hpass.
  destruct (start_wait4complete _ _) as [graph g] eqn:Hout.
  destruct (main.topK_scan g) as [[g2 cur2]|] eqn:H2; [|done].
  apply topK_scan_inv in H2 as (ks' & e' & Hget' & -> & ->).
  cbn [mbind option_bind] in Hpass. injection Hpass as <- <- <-.
  exists ks, e. split; [done|]. split; [done|].
  exists ks', e'. cbn zeta. rewrite Hout. done.
Qed.

Lemma first_stage_exit fuel st st' :
  first_stage fuel st = Some st' ->
  main.topK <= scan_collection.get_size (known_scans st'.2).
Proof.
  revert st. induction fuel as [|fuel IH]; intros st; simpl; [done|].
  destruct (Z.ltb_spec (scan_collection.get_size (known_scans st.2)) main.topK).
  - destruct (start_wait4complete _ st) as [graph g]. apply IH.
  - by intros [= <-].
Qed.

Lemma get_in_bounds idx c :
  0 <= idx <= INT_MAX ->
  is_Some (scan_collection.get idx c).2 <-> idx + 1 <= scan_collection.get_size c.
Proof.
  intros Hidx. destruct (get_sorts idx c) as (Hp & _ & _).
  unfold scan_collection.get_size. rewrite Hp.
  unfold scan_collection.get at 1. cbn [snd].
  unfold subscript, to_size_t. rewrite Z.mod_small by (unfold INT_MAX in Hidx; lia).
  rewrite lookup_lt_is_Some. unfold scan_collection.get. cbn [fst]. lia.
Qed.

(** C8.  The second filter keeps a vertex exactly when its squared degree
    is at least the threshold.  A turn of the refinement loop reads the
    K-th largest known scan, starts the engine with the global maximum set to
    that value and with the filter whose threshold is that value, and then
    reads the K-th largest known scan again.  The loop ends, with the state
    after a turn, exactly at the first turn whose two readings are equal. *)
Theorem refinement_stage_fixed_point :
  (forall min v,
      0 <= compute_vertex.get_num_edges v <= UINT_MAX ->
      keep (remove_small_scan_filter min) v = true <->
      compute_vertex.get_num_edges v * compute_vertex.get_num_edges v >= min) /\
  (forall st st' prev cur,
      refine_pass st = Some (st', prev, cur) ->
      exists ks e,
        scan_collection.get (main.topK - 1) (known_scans st.2) = (ks, Some e) /\
        prev = e.2 /\
        exists ks' e',
          let out :=
            start_wait4complete (remove_small_scan_filter prev)
              (st.1, {| max_scan := global_max.new prev; known_scans := ks |}) in
          scan_collection.get (main.topK - 1) (known_scans out.2)
            = (ks', Some e') /\
          cur = e'.2 /\
          st' = (out.1, {| max_scan := max_scan out.2; known_scans := ks' |})) /\
  (forall fuel st st_final,
      second_stage fuel st = Some st_final <->
      exists n, (n < fuel)%nat /\
        (forall m, (m < n)%nat ->
           exists s prev cur, nth_pass m st = Some (s, prev, cur) /\ prev <> cur) /\
        exists prev, nth_pass n st = Some (st_final, prev, prev)).
Proof.
  split; [|split].
  - intros min v Hn. simpl. rewrite (size_t_mul_small _ Hn), Z.geb_leb, Z.leb_le. lia.
  - exact refine_pass_inv.
  - exact second_stage_exits.
Qed.

(** C9.  [get(idx)] is the plain subscript of the vector after the lazy
    sort; for an [int] index that is not negative it has a value exactly
    when at least [idx + 1] scans have been added.  When the first loop of
    [main] ends, at least [topK] scans are known, so the first
    [get(topK - 1)] of the refinement loop has a value. *)
Theorem known_scan_get_precondition :
  (forall idx c,
      (scan_collection.get idx c).2
      = subscript (scan_collection.scans (scan_collection.get idx c).1) idx) /\
  (forall idx c,
      0 <= idx <= INT_MAX ->
      is_Some (scan_collection.get idx c).2 <->
      idx + 1 <= scan_collection.get_size c) /\
  (forall fuel st st',
      first_stage fuel st = Some st' ->
      main.topK <= scan_collection.get_size (known_scans st'.2) /\
      is_Some (scan_collection.get (main.topK - 1) (known_scans st'.2)).2 /\
      is_Some (main.topK_scan st'.2)).
Proof.
  split; [done|]. split; [exact get_in_bounds|].
  intros fuel st st' Hst. apply first_stage_exit in Hst.
  split; [done|].
  assert (Hsome : is_Some (scan_collection.get (main.topK - 1) (known_scans st'.2)).2).
  { apply get_in_bounds; [done|lia]. }
  split; [done|]. unfold main.topK_scan.
  change (to_int (to_size_t (main.topK - 1))) with (main.topK - 1).
  destruct (scan_collection.get _ _) as [ks r]. cbn [snd] in Hsome.
  destruct Hsome as [e ->]. by eexists.
Qed.

End main_facts.

Lemma refinement_stage_fixed_point_witness :
  exists n, (n < 5)%nat /\
    (forall m, (m < n)%nat ->
       exists s prev cur,
         nth_pass (H := merge_StdSort) nat toy_engine m
           toy_after_first
         = Some (s, prev, cur) /\ prev <> cur) /\
    exists prev,
      nth_pass (H := merge_StdSort) nat toy_engine n toy_after_first
      = Some ((0%nat,
               {| max_scan := 30;
                  known_scans :=
                    {| scan_collection.sorted := true;
                       scan_collection.scans := [(0, 30); (1, 20); (2, 10)] |} |}),
              prev, prev).
Proof.
  apply (proj1 (proj2 (proj2 (@refinement_stage_fixed_point merge_StdSort nat toy_engine))
                 5%nat _ _)).
  reflexivity.
Defined.

Example second_stage_example :
  (main.second_stage (H := merge_StdSort) nat toy_engine 5 toy_after_first,
   main.second_stage (H := merge_StdSort) nat toy_engine 2 toy_after_first)
  = (Some (0%nat,
           {| max_scan := 30;
              known_scans :=
                {| scan_collection.sorted := true;
                   scan_collection.scans := [(0, 30); (1, 20); (2, 10)] |} |}),
     None).
Proof. reflexivity. Qed.

Lemma known_scan_get_precondition_witness :
  main.topK <= scan_collection.get_size (known_scans toy_after_first.2) /\
  is_Some
    (scan_collection.get (H := merge_StdSort) (main.topK - 1)
       (known_scans toy_after_first.2)).2 /\
  is_Some (main.topK_scan (H := merge_StdSort) toy_after_first.2).
Proof.
  apply (proj2 (proj2 (@known_scan_get_precondition merge_StdSort nat toy_engine))
           4%nat (toy_start 3) toy_after_first).
  reflexivity.
Defined.

Example first_stage_example :
  main.first_stage nat toy_engine 4 (toy_start 3) = Some toy_after_first /\
  main.first_stage nat toy_engine 4 (toy_start 0) = None.
Proof. split; reflexivity. Qed.

(** Before any scan is known, the subscript of [get(0)] has no value. *)
Example get_before_any_add :
  (scan_collection.get (H := merge_StdSort) 0 scan_collection.new).2 = None.
Proof. reflexivity. Qed.

(** ** The whole of [main] *)

Lemma add_scans_scans reports c :
  scan_collection.scans (add_scans reports c)
  = scan_collection.scans c ++ reports.
Proof.
  revert c. induction reports as [|[id s] reports IH]; intros c; simpl.
  - by rewrite app_nil_r.
  - unfold add_scans in *. simpl. rewrite IH. simpl. by rewrite <- app_assoc.
Qed.

Lemma add_scans_flag_ok reports c : flag_ok c -> flag_ok (add_scans reports c).
Proof.
  destruct reports as [|r reports _] using rev_ind; [done|].
  intros _. unfold add_scans. rewrite foldl_app. simpl. intros Hs. done.
Qed.

Lemma add_scans_size reports c :
  scan_collection.get_size (add_scans reports c)
  = scan_collection.get_size c + Z.of_nat (length reports).
Proof.
  unfold scan_collection.get_size. rewrite add_scans_scans, length_app. lia.
Qed.

Section main_safety.

Context `{StdSort}.
Variable graph_engine : Type.
Variable start_wait4complete :
  vertex_filter -> graph_engine * globals -> graph_engine * globals.
Hypothesis only_adds : engine_only_adds start_wait4complete.

Abbreviation refine_pass' := (main.refine_pass graph_engine start_wait4complete).
Abbreviation second_stage' := (main.second_stage graph_engine start_wait4complete).
Abbreviation first_stage' := (main.first_stage graph_engine start_wait4complete).
Abbreviation nth_pass' := (nth_pass graph_engine start_wait4complete).

Lemma get_size_get idx c :
  scan_collection.get_size (scan_collection.get idx c).1 = scan_collection.get_size c.
Proof.
  destruct (get_sorts idx c) as (Hp & _). unfold scan_collection.get_size.
  by rewrite <- Hp.
Qed.

Lemma get_in_order idx c :
  flag_ok c -> in_order (scan_collection.get idx c).1.
Proof.
  intros Hf. destruct (get_sorts idx c) as (_ & Hs & Hd). split; auto.
Qed.

Lemma topK_scan_some g :
  main.topK <= scan_collection.get_size (known_scans g) ->
  is_Some (main.topK_scan g).
Proof.
  intros Hsize.
  assert (Hsome : is_Some (scan_collection.get (main.topK - 1) (known_scans g)).2).
  { apply get_in_bounds; [done|lia]. }
  unfold main.topK_scan.
  change (to_int (to_size_t (main.topK - 1))) with (main.topK - 1).
  destruct (scan_collection.get _ _) as [ks r]. cbn [snd] in Hsome.
  destruct Hsome as [e ->]. by eexists.
Qed.

Lemma first_stage_flag_ok fuel st st' :
  first_stage' fuel st = Some st' ->
  flag_ok (known_scans st.2) -> flag_ok (known_scans st'.2).
Proof.
  revert st. induction fuel as [|fuel IH]; intros st; simpl; [done|].
  destruct (Z.ltb_spec (scan_collection.get_size (known_scans st.2)) main.topK).
  - destruct (only_adds (remove_small_filter main.min_edges) st) as [reports Hr].
    destruct (start_wait4complete _ st) as [graph g]. simpl in Hr.
    intros Hst Hf. apply (IH _ Hst). simpl. rewrite Hr.
    by apply add_scans_flag_ok.
  - by intros [= <-].
Qed.

Lemma refine_pass_some st :
  main.topK <= scan_collection.get_size (known_scans st.2) ->
  is_Some (refine_pass' st).
Proof.
  intros Hsize. unfold main.refine_pass.
  destruct (topK_scan_some st.2 Hsize) as [[g prev] Hg]. rewrite Hg.
  apply topK_scan_inv in Hg as (ks & e & Hget & -> & ->).
  cbn [mbind option_bind known_scans].
  destruct (only_adds (remove_small_scan_filter e.2)
              (st.1, {| max_scan := global_max.new e.2; known_scans := ks |}))
    as [reports Hr].
  destruct (start_wait4complete _ _) as [graph g]. simpl in Hr.
  destruct (topK_scan_some g) as [[g' cur] Hg'].
  { rewrite Hr, add_scans_size.
    replace ks with (scan_collection.get (main.topK - 1) (known_scans st.2)).1
      by (by rewrite Hget).
    rewrite get_size_get. lia. }
  rewrite Hg'. by eexists.
Qed.

Lemma refine_pass_keeps st st' prev cur :
  refine_pass' st = Some (st', prev, cur) ->
  main.topK <= scan_collection.get_size (known_scans st.2) ->
  flag_ok (known_scans st.2) ->
  main.topK <= scan_collection.get_size (known_scans st'.2) /\
  in_order (known_scans st'.2).
Proof.
  intros Hpass Hsize Hflag.
  apply refine_pass_inv in Hpass as (ks & e & Hget & -> & ks' & e' & Hget' & -> & ->).
  cbv zeta in *.
  destruct (only_adds (remove_small_scan_filter e.2)
              (st.1, {| max_scan := global_max.new e.2; known_scans := ks |}))
    as [reports Hr].
  simpl in Hr. simpl. rewrite Hr in Hget'.
  replace ks' with (scan_collection.get (main.topK - 1) (add_scans reports ks)).1
    by (by rewrite Hget').
  assert (Hks : ks = (scan_collection.get (main.topK - 1) (known_scans st.2)).1)
    by (by rewrite Hget).
  split.
  - rewrite get_size_get, add_scans_size, Hks, get_size_get. lia.
  - apply get_in_order, add_scans_flag_ok. rewrite Hks.
    intros _. by apply get_in_order.
Qed.

Lemma in_order_flag_ok c : in_order c -> flag_ok c.
Proof. by intros [_ Hd] _. Qed.

Lemma nth_pass_some n : forall st,
  main.topK <= scan_collection.get_size (known_scans st.2) ->
  flag_ok (known_scans st.2) ->
  is_Some (nth_pass' n st).
Proof.
  induction n as [|n IH]; intros st Hsize Hflag; simpl.
  - by apply refine_pass_some.
  - destruct (refine_pass_some st Hsize) as [[[st' prev] cur] Hpass].
    rewrite Hpass. simpl.
    destruct (refine_pass_keeps _ _ _ _ Hpass Hsize Hflag) as [Hsize' Hord].
    apply IH; [done|by apply in_order_flag_ok].
Qed.

Lemma second_stage_keeps fuel : forall st st',
  second_stage' fuel st = Some st' ->
  main.topK <= scan_collection.get_size (known_scans st.2) ->
  flag_ok (known_scans st.2) ->
  main.topK <= scan_collection.get_size (known_scans st'.2) /\
  in_order (known_scans st'.2).
Proof.
  induction fuel as [|fuel IH]; intros st st' Hst Hsize Hflag; [done|].
  simpl in Hst.
  destruct (refine_pass' st) as [[[st1 prev] cur]|] eqn:Hpass; [|done].
  destruct (refine_pass_keeps _ _ _ _ Hpass Hsize Hflag) as [Hsize' Hord].
  simpl in Hst. destruct (negb (prev =? cur)).
  - apply (IH _ _ Hst Hsize'). by apply in_order_flag_ok.
  - by injection Hst as <-.
Qed.

Lemma print_scans_in_order turns : forall i ks,
  in_order ks -> 0 <= i ->
  i + Z.of_nat turns <= scan_collection.get_size ks ->
  i + Z.of_nat turns <= INT_MAX + 1 ->
  print_scans turns i ks
  = Some (take turns (drop (Z.to_nat i) (scan_collection.scans ks))).
Proof.
  induction turns as [|turns IH]; intros i ks Hord Hi Hsize Hmax; [done|].
  unfold scan_collection.get_size, INT_MAX in *.
  cbn [print_scans]. destruct Hord as [Hs Hd].
  unfold scan_collection.get. rewrite Hs. cbn [negb].
  assert (Hint : to_int i = i).
  { unfold to_int, INT_MAX. rewrite Z.mod_small by lia.
    rewrite (proj2 (Z.leb_le _ _)) by lia. done. }
  unfold subscript, to_size_t. rewrite Hint, Z.mod_small by lia.
  destruct (lookup_lt_is_Some_2 (scan_collection.scans ks) (Z.to_nat i)) as [e He];
    [lia|].
  rewrite He. cbn [mbind option_bind].
  assert (Hadd : size_t_add i 1 = i + 1).
  { unfold size_t_add, to_size_t. rewrite Z.mod_small; lia. }
  rewrite Hadd, IH; [|by split|lia|lia|lia]. cbn [mbind option_bind].
  rewrite (drop_S _ _ _ He). simpl.
  replace (Z.to_nat (i + 1)) with (S (Z.to_nat i)) by lia. done.
Qed.

Lemma get_first c c' e :
  flag_ok c -> scan_collection.get 0 c = (c', Some e) ->
  in_order c' /\ scan_collection.scans c ≡ₚ scan_collection.scans c' /\
  e ∈ scan_collection.scans c' /\
  forall x, x ∈ scan_collection.scans c' -> x.2 <= e.2.
Proof.
  intros Hflag Hget.
  pose proof (get_in_order 0 c Hflag) as Hord.
  destruct (get_sorts 0 c) as (Hp & _).
  assert (He : scan_collection.scans c' !! 0%nat = Some e).
  { unfold scan_collection.get in Hget. by injection Hget as <- <-. }
  rewrite Hget in Hord, Hp. simpl in *.
  split; [done|]. split; [done|]. destruct Hord as [_ Hd].
  destruct (scan_collection.scans c') as [|e0 l]; [done|].
  injection He as ->. split; [by left|].
  intros x Hx. apply elem_of_cons in Hx as [->|Hx]; [lia|].
  apply StronglySorted_inv in Hd as [_ Hall].
  eapply Forall_forall in Hall; [|exact Hx]. simpl in Hall. lia.
Qed.

Lemma max_of_char init cands m :
  m ∈ init :: cands -> (forall c, c ∈ init :: cands -> c <= m) ->
  m = max_of init cands.
Proof.
  intros Hin Hup. pose proof (max_of_elem init cands) as He.
  apply Hup in He. apply max_of_upper in Hin. lia.
Qed.

Lemma max_of_same init cands :
  init = max_of init cands <-> Forall (fun c => c <= init) cands.
Proof.
  pose proof (max_of_ge init cands) as Hge.
  pose proof (max_of_lt init cands (init + 1)) as Hlt.
  split.
  - intros Heq. eapply Forall_impl; [apply Hlt; lia|]. simpl. intros; lia.
  - intros Hall. enough (max_of init cands < init + 1) by lia.
    apply Hlt. split; [lia|]. eapply Forall_impl; [exact Hall|]. simpl. intros; lia.
Qed.

(** X8.  With an engine whose passes change [known_scans] by [add] only,
    once the first loop of [main] has ended every [get(topK - 1)] of the
    refinement loop finds its entry, however long the loop runs; and when
    that loop ends the final assertion holds and the lines printed are the
    first [topK] entries of the collection, which is then in descending
    order of score. *)
Theorem main_stays_in_bounds (st : graph_engine * globals) :
  flag_ok (known_scans st.2) ->
  forall fuel st1,
    first_stage' fuel st = Some st1 ->
    (forall n, is_Some (nth_pass' n st1)) /\
    forall fuel' st2,
      second_stage' fuel' st1 = Some st2 ->
      main.topK <= scan_collection.get_size (known_scans st2.2) /\
      descending (scan_collection.scans (known_scans st2.2)) /\
      print_topK st2.2
      = Some (take (Z.to_nat main.topK) (scan_collection.scans (known_scans st2.2))).
Proof.
  intros Hflag fuel st1 Hfirst.
  pose proof (first_stage_flag_ok _ _ _ Hfirst Hflag) as Hflag1.
  pose proof (first_stage_exit _ _ _ _ _ Hfirst) as Hsize1.
  split; [intros n; by apply nth_pass_some|].
  intros fuel' st2 Hsecond.
  destruct (second_stage_keeps _ _ _ Hsecond Hsize1 Hflag1) as [Hsize2 Hord].
  split; [done|]. split; [apply Hord|].
  unfold print_topK. rewrite (proj2 (Z.geb_le _ _)) by done.
  rewrite print_scans_in_order; [done|done|done| |].
  - rewrite Z2Nat.id by done. lia.
  - unfold main.topK, INT_MAX. simpl. lia.
Qed.

(** X9.  A turn of the refinement loop on an engine that only adds: the
    score [main] reads after the pass is the largest of the score it read
    before and the scores the pass added.  So the reading never goes down,
    and the loop ends exactly at the first pass that adds no score above
    the one it started from. *)
Theorem refine_pass_progress (st st' : graph_engine * globals) (prev cur : size_t) :
  flag_ok (known_scans st.2) ->
  refine_pass' st = Some (st', prev, cur) ->
  exists ks e reports,
    scan_collection.get (main.topK - 1) (known_scans st.2) = (ks, Some e) /\
    known_scans
      (start_wait4complete (remove_small_scan_filter prev)
         (st.1, {| max_scan := global_max.new prev; known_scans := ks |})).2
    = add_scans reports ks /\
    cur = max_of prev reports.*2 /\
    prev <= cur /\
    (prev = cur <-> Forall (fun r => r.2 <= prev) reports).
Proof.
  intros Hflag Hpass.
  apply refine_pass_inv in Hpass as (ks & e & Hget & -> & ks' & e' & Hget' & -> & ->).
  cbv zeta in *.
  destruct (only_adds (remove_small_scan_filter e.2)
              (st.1, {| max_scan := global_max.new e.2; known_scans := ks |}))
    as [reports Hr].
  simpl in Hr. rewrite Hr in Hget'.
  exists ks, e, reports. split; [done|]. split; [done|].
  change (main.topK - 1) with 0 in *.
  destruct (get_first _ _ _ Hflag Hget) as (Hord & Hp & He & Hmax).
  destruct (get_first _ _ _ (add_scans_flag_ok reports ks (in_order_flag_ok _ Hord)) Hget')
    as (Hord' & Hp' & He' & Hmax').
  rewrite add_scans_scans in Hp'.
  assert (Hcur : e'.2 = max_of e.2 reports.*2).
  { apply max_of_char.
    - rewrite <- Hp' in He'. apply elem_of_app in He' as [Hin|Hin].
      + apply Hmax in Hin. apply elem_of_cons. left.
        assert (e.2 <= e'.2); [|lia].
        apply Hmax'. rewrite <- Hp'. apply elem_of_app. by left.
      + right. apply list_elem_of_fmap. by exists e'.
    - intros c Hc. apply elem_of_cons in Hc as [->|Hc].
      + apply Hmax'. rewrite <- Hp'. apply elem_of_app. by left.
      + apply list_elem_of_fmap in Hc as (r & -> & Hr').
        apply Hmax'. rewrite <- Hp'. apply elem_of_app. by right. }
  split; [done|]. rewrite Hcur. split; [apply max_of_ge|].
  rewrite max_of_same, Forall_fmap. done.
Qed.

End main_safety.

Lemma toy_engine_only_adds : engine_only_adds toy_engine.
Proof.
  intros f [[|n] g]; simpl.
  - by exists [].
  - exists [(Z.of_nat n, global_max.get (max_scan g) + 10)].
    unfold topK_scan_vertex.finding_triangles_end.
    destruct (global_max.update _ _). done.
Qed.

Lemma main_stays_in_bounds_witness :
  (forall n, is_Some (nth_pass (H := merge_StdSort) nat toy_engine n toy_after_first)) /\
  forall fuel' st2,
    main.second_stage (H := merge_StdSort) nat toy_engine fuel' toy_after_first
    = Some st2 ->
    main.topK <= scan_collection.get_size (known_scans st2.2) /\
    descending (scan_collection.scans (known_scans st2.2)) /\
    print_topK (H := merge_StdSort) st2.2
    = Some (take (Z.to_nat main.topK) (scan_collection.scans (known_scans st2.2))).
Proof.
  apply (@main_stays_in_bounds merge_StdSort nat toy_engine toy_engine_only_adds
           (toy_start 3) ltac:(discriminate) 4%nat toy_after_first).
  reflexivity.
Defined.

Lemma refine_pass_progress_witness :
  exists ks e reports,
    scan_collection.get (H := merge_StdSort) (main.topK - 1)
      (known_scans toy_after_first.2) = (ks, Some e) /\
    known_scans
      (toy_engine (remove_small_scan_filter 10)
         (toy_after_first.1,
          {| max_scan := global_max.new 10; known_scans := ks |})).2
    = add_scans reports ks /\
    20 = max_of 10 reports.*2 /\
    10 <= 20 /\
    (10 = 20 <-> Forall (fun r => r.2 <= 10) reports).
Proof.
  eapply (@refine_pass_progress merge_StdSort nat toy_engine toy_engine_only_adds
            toy_after_first _ 10 20).
  - discriminate.
  - reflexivity.
Defined.

Example print_topK_example :
  (st ← main.second_stage (H := merge_StdSort) nat toy_engine 5 toy_after_first;
   print_topK (H := merge_StdSort) st.2)
  = Some [(0, 30)].
Proof. reflexivity. Qed.

(** ** [finding_triangles_end] *)

Lemma report_scans_spec reports : forall g,
  known_scans (report_scans reports g).1
  = add_scans (scan_of <$> reports) (known_scans g) /\
  max_scan (report_scans reports g).1
  = (run_updates reports.*2 (max_scan g)).1 /\
  (report_scans reports g).2 = (run_updates reports.*2 (max_scan g)).2.
Proof.
  induction reports as [|[v s] reports IH]; intros g; [done|].
  cbn [report_scans fmap list_fmap run_updates snd].
  unfold topK_scan_vertex.finding_triangles_end.
  destruct (global_max.update s (max_scan g)) as [m printed] eqn:Hu.
  specialize (IH {| max_scan := m;
                    known_scans := scan_collection.add (topK_scan_vertex.get_id v) s
                                     (known_scans g) |}).
  destruct (report_scans reports _) as [g' printeds]. simpl in IH.
  destruct IH as (IH1 & IH2 & IH3).
  destruct (run_updates reports.*2 m) as [m' rets]. simpl in *.
  by rewrite IH1, IH2, IH3.
Qed.

(** X10.  A sequence of [finding_triangles_end] calls adds one entry to
    [known_scans] per call, the vertex's id and the reported scan, in the
    order of the calls, and leaves [max_scan] at the largest of its former
    value and the reported scans; a call prints a new maximum exactly when
    its scan is above the former value and every scan reported before it.
    If no known scan was above [max_scan] before, none is afterwards. *)
Theorem finding_triangles_end_sequence
  (reports : list (topK_scan_vertex.t * size_t)) (g : globals) :
  known_scans (report_scans reports g).1
  = add_scans (scan_of <$> reports) (known_scans g) /\
  global_max.get (max_scan (report_scans reports g).1)
  = max_of (global_max.get (max_scan g)) reports.*2 /\
  (report_scans reports g).2
  = imap (fun i r =>
            bool_decide (global_max.get (max_scan g) < r.2 /\
                         Forall (fun r' => r'.2 < r.2) (take i reports)))
      reports /\
  (max_scan_bounds g -> max_scan_bounds (report_scans reports g).1).
Proof.
  destruct (report_scans_spec reports g) as (Hks & Hmax & Hprinted).
  destruct (run_updates_spec reports.*2 [] (max_scan g)) as [Hv Hrets].
  change (max_of (max_scan g) []) with (max_scan g) in Hv, Hrets.
  simpl in Hv, Hrets.
  split; [done|]. split; [by rewrite Hmax, Hv|]. split.
  - rewrite Hprinted, Hrets. rewrite imap_fmap. apply imap_ext.
    intros i r _. simpl. apply bool_decide_ext.
    rewrite <- fmap_take, Forall_fmap. done.
  - intros Hb e. rewrite Hks, add_scans_scans, elem_of_app.
    unfold global_max.get in *. rewrite Hmax, Hv.
    pose proof (max_of_ge (max_scan g) reports.*2) as Hge.
    intros [He|He].
    + apply Hb in He. exact (Z.le_trans _ _ _ He Hge).
    + apply max_of_upper. right.
      apply list_elem_of_fmap in He as (r & -> & Hr).
      apply list_elem_of_fmap. by exists r.
Qed.

(** ** [get_est_local_scan] *)

Lemma topK_min_spec a b : topK_scan_vertex.min a b = Z.min a b.
Proof. unfold topK_scan_vertex.min. destruct (Z.ltb_spec b a); lia. Qed.

Lemma capped_degrees_bounds graph k neighbors :
  0 <= k ->
  (forall n, n ∈ neighbors -> 0 <= degree_of graph n <= UINT_MAX) ->
  0 <= capped_degrees graph k neighbors
    <= Z.of_nat (length neighbors) * Z.min UINT_MAX (2 * k).
Proof.
  intros Hk. induction neighbors as [|n neighbors IH]; intros Hall; simpl; [lia|].
  destruct (Hall n) as [H0 H1]; [by left|].
  destruct IH as [IH0 IH1]; [intros n' Hn'; apply Hall; by right|].
  fold (capped_degrees graph k neighbors). lia.
Qed.

Lemma sum_neighbor_edges_spec graph k neighbors : forall tot,
  0 <= k <= UINT_MAX ->
  (forall n, n ∈ neighbors ->
     exists w, get_vertex graph n = Some w /\
               0 <= topK_scan_vertex.get_num_edges w <= UINT_MAX) ->
  0 <= tot ->
  tot + Z.of_nat (length neighbors) * UINT_MAX < 2 ^ 64 ->
  topK_scan_vertex.sum_neighbor_edges graph k neighbors tot
  = Some (tot + capped_degrees graph k neighbors).
Proof.
  induction neighbors as [|n neighbors IH]; intros tot Hk Hall Htot Hfit; simpl.
  { f_equal. lia. }
  destruct (Hall n) as (w & Hw & Hdeg); [by left|].
  rewrite Hw. simpl. rewrite topK_min_spec.
  assert (Hmul : size_t_mul k 2 = 2 * k).
  { unfold size_t_mul, to_size_t, UINT_MAX in *. rewrite Z.mod_small; lia. }
  rewrite Hmul.
  assert (Hdeg' : degree_of graph n = topK_scan_vertex.get_num_edges w).
  { unfold degree_of. by rewrite Hw. }
  simpl in Hfit. unfold UINT_MAX in *.
  assert (Hadd : size_t_add tot (Z.min (topK_scan_vertex.get_num_edges w) (2 * k))
                 = tot + Z.min (topK_scan_vertex.get_num_edges w) (2 * k)).
  { unfold size_t_add, to_size_t. rewrite Z.mod_small; lia. }
  rewrite Hadd, IH.
  - f_equal. fold (capped_degrees graph k neighbors). rewrite Hdeg'. lia.
  - lia.
  - intros n' Hn'. apply Hall. by right.
  - lia.
  - lia.
Qed.

(** X11.  On a vertex without an estimate whose edge lists are in ascending
    order, when the degrees are 32-bit values and every neighbour is in the
    index, [get_est_local_scan] reads no vertex that the index lacks, its
    sum does not wrap around, and the estimate it stores and returns is
    half of the vertex's degree plus, for each distinct neighbour other
    than the vertex, the smaller of the neighbour's degree and twice the
    number of such neighbours. *)
Theorem est_local_scan_value (graph : list topK_scan_vertex.t)
  (vertex : page_vertex.t) (v : topK_scan_vertex.t) :
  topK_scan_vertex.has_est_local v = false ->
  StronglySorted Z.le (page_vertex.in_edges vertex) ->
  StronglySorted Z.le (page_vertex.out_edges vertex) ->
  0 <= topK_scan_vertex.get_num_edges v <= UINT_MAX ->
  page_vertex.get_num_edges vertex BOTH_EDGES <= UINT_MAX ->
  (forall n,
      n ∈ page_vertex.in_edges vertex \/ n ∈ page_vertex.out_edges vertex ->
      n <> page_vertex.get_id vertex ->
      exists w, get_vertex graph n = Some w /\
                0 <= topK_scan_vertex.get_num_edges w <= UINT_MAX) ->
  exists neighbors est,
    merged (overlap.skip_self (page_vertex.get_id vertex))
      (page_vertex.in_edges vertex ++ page_vertex.out_edges vertex) neighbors /\
    est = (topK_scan_vertex.get_num_edges v
           + capped_degrees graph (Z.of_nat (length neighbors)) neighbors) / 2 /\
    topK_scan_vertex.get_est_local_scan graph vertex v
    = Some (topK_scan_vertex.set_est_local est v, est).
Proof.
  intros Hno Hs1 Hs2 Hdeg Hedges Hall.
  set (skip := overlap.skip_self (page_vertex.get_id vertex)).
  destruct (unique_merge_written_merged skip overlap.merge_edge (fun _ => eq_refl)
              _ _ Hs1 Hs2) as [Hsorted Hmem].
  pose proof (unique_merge_written_length skip overlap.merge_edge
                (page_vertex.in_edges vertex) (page_vertex.out_edges vertex)) as Hlen.
  set (neighbors := overlap.unique_merge_written skip overlap.merge_edge
                      (page_vertex.in_edges vertex) (page_vertex.out_edges vertex)) in *.
  exists neighbors. eexists. split; [done|]. split; [reflexivity|].
  unfold topK_scan_vertex.get_est_local_scan. rewrite Hno.
  unfold overlap.unique_merge. cbn [page_vertex.get_neigh]. fold skip. fold neighbors.
  unfold page_vertex.get_num_edges in *. cbv zeta.
  unfold overlap.write_from_begin. rewrite length_replicate.
  rewrite decide_True by lia. cbn [mbind option_bind].
  rewrite resize_written by (rewrite length_replicate; lia).
  rewrite sum_neighbor_edges_spec; [done| | |lia|].
  - unfold UINT_MAX in *. lia.
  - intros n Hn. apply Hmem in Hn as [Hn Hskip]. apply Hall.
    + by apply elem_of_app.
    + unfold skip, overlap.skip_self in Hskip. apply Z.eqb_neq in Hskip. congruence.
  - unfold UINT_MAX in *. nia.
Qed.

Lemma est_local_scan_value_witness :
  exists neighbors est,
    merged (overlap.skip_self 0) ([1; 3] ++ [2; 3]) neighbors /\
    est = (4 + capped_degrees star_graph (Z.of_nat (length neighbors)) neighbors) / 2 /\
    topK_scan_vertex.get_est_local_scan star_graph star_centre star_centre_vertex
    = Some (topK_scan_vertex.set_est_local est star_centre_vertex, est).
Proof.
  apply (est_local_scan_value star_graph star_centre star_centre_vertex).
  - reflexivity.
  - repeat constructor; lia.
  - repeat constructor; lia.
  - unfold UINT_MAX. simpl. lia.
  - unfold UINT_MAX. simpl. lia.
  - simpl. intros n Hn _. unfold UINT_MAX.
    assert (n = 1 \/ n = 2 \/ n = 3) as [->|[->| ->]] by set_solver;
      eexists; (split; [reflexivity|simpl; lia]).
Defined.

Example est_local_scan_example :
  snd <$> topK_scan_vertex.get_est_local_scan star_graph star_centre star_centre_vertex
  = Some 5.
Proof. reflexivity. Qed.

Lemma get_est_local_scan_stores graph vertex v v' est :
  topK_scan_vertex.get_est_local_scan graph vertex v = Some (v', est) ->
  topK_scan_vertex.has_est_local v' = true /\
  topK_scan_vertex.get_est_local v' = est /\
  topK_scan_vertex.has_local_scan v' = topK_scan_vertex.has_local_scan v /\
  topK_scan_vertex.get_id v' = topK_scan_vertex.get_id v /\
  topK_scan_vertex.get_num_edges v' = topK_scan_vertex.get_num_edges v.
Proof.
  unfold topK_scan_vertex.get_est_local_scan. intros Hest.
  destruct (topK_scan_vertex.has_est_local v) eqn:Hhas.
  - by injection Hest as <- <-.
  - destruct (overlap.unique_merge _ _ _ _) as [written num_neighbors].
    destruct (overlap.write_from_begin _ _) as [all_neighbors|]; [|done].
    simpl in Hest.
    destruct (topK_scan_vertex.sum_neighbor_edges _ _ _ _) as [tot_edges|]; [|done].
    simpl in Hest. by injection Hest as <- <-.
Qed.

(** X16.  Pruning is stable: when [run_on_itself] has looked at a vertex
    with edges and left it out because its estimate is below the maximum,
    [run] does not ask for the vertex again under that maximum or under any
    larger one, and a later [run_on_itself] under such a maximum leaves it
    out again without touching it. *)
Theorem pruned_stays_pruned (max_scan max_scan' : global_max.t)
  (graph : list topK_scan_vertex.t) (vertex : page_vertex.t)
  (v v' : topK_scan_vertex.t) :
  page_vertex.get_num_edges vertex BOTH_EDGES <> 0 ->
  topK_scan_vertex.run_on_itself max_scan graph vertex v = Some (v', false) ->
  global_max.get max_scan <= global_max.get max_scan' ->
  topK_scan_vertex.run max_scan' v' = None /\
  forall graph',
    topK_scan_vertex.run_on_itself max_scan' graph' vertex v' = Some (v', false).
Proof.
  unfold topK_scan_vertex.run_on_itself, global_max.get. intros Hn Hrun Hle.
  destruct (page_vertex.get_num_edges vertex BOTH_EDGES
            =? topK_scan_vertex.get_num_edges v) eqn:Hdeg; [|done].
  cbn [negb] in Hrun. rewrite (proj2 (Z.eqb_neq _ _) Hn) in *.
  destruct (topK_scan_vertex.get_est_local_scan graph vertex v) as [[v1 est]|] eqn:Hest;
    [|done].
  cbn [mbind option_bind] in Hrun.
  destruct (Z.ltb_spec est max_scan) as [Hlt|]; [|done].
  injection Hrun as <-.
  apply get_est_local_scan_stores in Hest as (Hhas & Hval & Hls & Hid & Hedges).
  split.
  - unfold topK_scan_vertex.run, global_max.get. rewrite Hhas, Hval.
    destruct (topK_scan_vertex.has_local_scan v1); [done|].
    rewrite Z.gtb_ltb, (proj2 (Z.ltb_ge _ _)) by lia. done.
  - intros graph'. rewrite Hedges, Hdeg. cbn [negb].
    unfold topK_scan_vertex.get_est_local_scan. rewrite Hhas.
    cbn [mbind option_bind]. rewrite Hval.
    by rewrite (proj2 (Z.ltb_lt _ _)) by lia.
Qed.

Lemma pruned_stays_pruned_witness :
  topK_scan_vertex.run 9 (topK_scan_vertex.set_est_local 5 star_centre_vertex) = None /\
  forall graph',
    topK_scan_vertex.run_on_itself 9 graph' star_centre
      (topK_scan_vertex.set_est_local 5 star_centre_vertex)
    = Some (topK_scan_vertex.set_est_local 5 star_centre_vertex, false).
Proof.
  apply (pruned_stays_pruned 6 9 star_graph star_centre star_centre_vertex).
  - simpl. lia.
  - reflexivity.
  - unfold global_max.get. lia.
Defined.

(** ** [wcc_vertex] *)

Lemma to_uint_nonneg x : 0 <= to_uint x.
Proof. unfold to_uint. apply Z.mod_pos_bound. lia. Qed.

(** A vertex id survives the passage through the [int] field of the
    message. *)
Lemma component_message_round_trip id :
  0 <= id <= UINT_MAX ->
  component_message.get_id (component_message.new id) = id.
Proof.
  unfold UINT_MAX, component_message.get_id, component_message.new, to_uint, to_int,
    INT_MAX. simpl. intros Hid.
  rewrite (Z.mod_small id) by lia.
  destruct (Z.leb_spec id (2 ^ 31 - 1)).
  - apply Z.mod_small. lia.
  - rewrite <- (Z.mod_add _ 1) by lia.
    replace (id - 2 ^ 32 + 1 * 2 ^ 32) with id by lia. apply Z.mod_small. lia.
Qed.

Lemma run_on_message_cases msg v :
  (component_message.get_id msg < wcc_vertex.component_id v /\
   wcc_vertex.run_on_message msg v
   = {| wcc_vertex.get_id := wcc_vertex.get_id v; wcc_vertex.updated := true;
        wcc_vertex.empty := wcc_vertex.empty v;
        wcc_vertex.component_id := component_message.get_id msg |}) \/
  (wcc_vertex.component_id v <= component_message.get_id msg /\
   wcc_vertex.run_on_message msg v = v).
Proof.
  unfold wcc_vertex.run_on_message.
  destruct (Z.ltb_spec (component_message.get_id msg) (wcc_vertex.component_id v));
    [left|right]; done.
Qed.

Lemma deliver_all_spec msgs v :
  wcc_vertex.component_id (deliver_all msgs v) <= wcc_vertex.component_id v /\
  wcc_vertex.get_id (deliver_all msgs v) = wcc_vertex.get_id v /\
  (wcc_vertex.updated (deliver_all msgs v) = true <->
   wcc_vertex.updated v = true \/
   wcc_vertex.component_id (deliver_all msgs v) <> wcc_vertex.component_id v).
Proof.
  revert v. induction msgs as [|msg msgs IH]; intros v; simpl.
  - split; [lia|]. split; [done|]. naive_solver.
  - destruct (IH (wcc_vertex.run_on_message msg v)) as (IHle & IHid & IHup).
    fold (deliver_all msgs (wcc_vertex.run_on_message msg v)).
    destruct (run_on_message_cases msg v) as [[Hlt Heq]|[Hge Heq]];
      rewrite Heq in *; simpl in *.
    + split; [lia|]. split; [done|]. rewrite IHup. split; [|naive_solver].
      intros _. right. lia.
    + done.
Qed.

(** C4.  [run_on_message] adopts the label of the message exactly when it
    is strictly smaller than the vertex's label: the label afterwards is the
    smaller of the two, the flag is set when the label was adopted and is
    left as it was otherwise.  So the label never grows over a sequence of
    deliveries, and a vertex that has run in the FIND_COMPONENTS stage and
    then received messages asks for its own edges at its next run in that
    stage exactly when its label is no longer the one it had at the earlier
    run. *)
Theorem wcc_label_adoption :
  (forall msg v,
      let v' := wcc_vertex.run_on_message msg v in
      wcc_vertex.component_id v'
      = Z.min (wcc_vertex.component_id v) (component_message.get_id msg) /\
      (component_message.get_id msg < wcc_vertex.component_id v ->
       wcc_vertex.updated v' = true /\
       wcc_vertex.component_id v' = component_message.get_id msg) /\
      (~ component_message.get_id msg < wcc_vertex.component_id v -> v' = v)) /\
  (forall msgs v,
      wcc_vertex.component_id (deliver_all msgs v) <= wcc_vertex.component_id v) /\
  (forall v msgs,
      let v1 := (wcc_vertex.run FIND_COMPONENTS v).1 in
      let v2 := deliver_all msgs v1 in
      ((wcc_vertex.run FIND_COMPONENTS v2).2
         = Some (wcc_vertex.request_vertices (wcc_vertex.get_id v)) <->
       wcc_vertex.component_id v2 <> wcc_vertex.component_id v1) /\
      ((wcc_vertex.run FIND_COMPONENTS v2).2 = None <->
       wcc_vertex.component_id v2 = wcc_vertex.component_id v1) /\
      wcc_vertex.updated (wcc_vertex.run FIND_COMPONENTS v2).1 = false).
Proof.
  split; [|split].
  - intros msg v v'. subst v'.
    destruct (run_on_message_cases msg v) as [[Hlt Heq]|[Hge Heq]]; rewrite Heq; simpl.
    + split; [lia|]. split; [done|]. intros; lia.
    + split; [lia|]. split; [intros; lia|done].
  - intros msgs v. apply deliver_all_spec.
  - intros v msgs v1 v2.
    assert (Hv1 : wcc_vertex.updated v1 = false /\
                  wcc_vertex.get_id v1 = wcc_vertex.get_id v).
    { subst v1. unfold wcc_vertex.run. by destruct (wcc_vertex.updated v) eqn:Hu. }
    destruct Hv1 as [Hu1 Hid1].
    destruct (deliver_all_spec msgs v1) as (_ & Hid2 & Hup). fold v2 in Hid2, Hup.
    rewrite Hu1 in Hup. unfold wcc_vertex.run.
    destruct (wcc_vertex.updated v2) eqn:Hu2; simpl.
    + assert (Hne : wcc_vertex.component_id v2 <> wcc_vertex.component_id v1)
        by (destruct Hup as [[?|?] _]; done).
      rewrite Hid2, Hid1. split; [done|]. split; [|done].
      split; [done|]. intros ?. done.
    + assert (Heq : wcc_vertex.component_id v2 = wcc_vertex.component_id v1).
      { destruct (decide (wcc_vertex.component_id v2 = wcc_vertex.component_id v1));
          [done|]. destruct Hup as [_ Hup]. discriminate Hup. by right. }
      split; [|done]. split; [done|]. intros ?. done.
Qed.

(** A freshly constructed vertex asks for its edges at its first run. *)
Example wcc_first_run id :
  (wcc_vertex.run FIND_COMPONENTS (wcc_vertex.new id)).2
  = Some (wcc_vertex.request_vertices id).
Proof. reflexivity. Qed.

Example wcc_run_on_message_example :
  wcc_vertex.component_id
    (deliver_all [component_message.new 5; component_message.new 2;
                  component_message.new 4] (wcc_vertex.new 3)) = 2.
Proof. reflexivity. Qed.

(** ** Label propagation on the engine *)

Lemma get_vertex_Some {V} (vs : list V) id v :
  get_vertex vs id = Some v <-> 0 <= id /\ vs !! Z.to_nat id = Some v.
Proof. unfold get_vertex. case_decide; naive_solver. Qed.

Lemma label_sum_insert vs (i : nat) v v' :
  vs !! i = Some v ->
  (label_sum (<[i := v']> vs) + Z.to_nat (wcc_vertex.component_id v)
   = label_sum vs + Z.to_nat (wcc_vertex.component_id v'))%nat.
Proof.
  unfold label_sum. revert i. induction vs as [|w vs IH]; intros [|i] Hi; simpl in *.
  - done.
  - done.
  - injection Hi as ->. lia.
  - specialize (IH i Hi). lia.
Qed.

Lemma run_find_spec v :
  wcc_vertex.updated (wcc_vertex.run FIND_COMPONENTS v).1 = false /\
  wcc_vertex.component_id (wcc_vertex.run FIND_COMPONENTS v).1
  = wcc_vertex.component_id v /\
  (wcc_vertex.updated v = false -> wcc_vertex.run FIND_COMPONENTS v = (v, None)).
Proof.
  unfold wcc_vertex.run. by destruct (wcc_vertex.updated v) eqn:Hu.
Qed.

Lemma run_active_cons stage id rest vs :
  graph_engine.run_active stage (id :: rest) vs
  = match get_vertex vs id with
    | Some v =>
        let '(v, req) := wcc_vertex.run stage v in
        let '(vs, reqs) :=
          graph_engine.run_active stage rest (<[Z.to_nat id := v]> vs) in
        (vs, option_list req ++ reqs)
    | None => graph_engine.run_active stage rest vs
    end.
Proof. reflexivity. Qed.

Lemma run_active_find active : forall vs,
  let r := graph_engine.run_active FIND_COMPONENTS active vs in
  label_sum r.1 = label_sum vs /\
  Forall is_request_vertices r.2 /\
  (forall (i : nat) v',
      r.1 !! i = Some v' -> wcc_vertex.updated v' = true ->
      (Z.of_nat i ∉ active) /\
      exists v, vs !! i = Some v /\ wcc_vertex.updated v = true) /\
  (none_updated vs -> r = (vs, [])).
Proof.
  induction active as [|id rest IH]; intros vs.
  { simpl. repeat split; [constructor| |by eexists]. set_solver. }
  cbv zeta. rewrite run_active_cons.
  destruct (get_vertex vs id) as [v|] eqn:Hv.
  - apply get_vertex_Some in Hv as [Hid Hv].
    destruct (run_find_spec v) as (Hu & Hc & Hnone).
    destruct (wcc_vertex.run FIND_COMPONENTS v) as [v1 req] eqn:Hrun.
    cbn [fst] in Hu, Hc.
    specialize (IH (<[Z.to_nat id := v1]> vs)).
    destruct (graph_engine.run_active FIND_COMPONENTS rest (<[Z.to_nat id := v1]> vs))
      as [vs' reqs] eqn:Hrest.
    cbn [fst snd] in *. destruct IH as (IHsum & IHreq & IHup & IHnone).
    split; [|split; [|split]].
    + rewrite IHsum. pose proof (label_sum_insert vs _ v v1 Hv) as Hs.
      rewrite Hc in Hs. lia.
    + apply Forall_app. split; [|done].
      unfold wcc_vertex.run in Hrun. destruct (wcc_vertex.updated v).
      * injection Hrun as <- <-. by repeat constructor.
      * injection Hrun as <- <-. constructor.
    + intros i v' Hi Hup. destruct (IHup i v' Hi Hup) as (Hnot & v'' & Hv'' & Hup'').
      destruct (decide (i = Z.to_nat id)) as [->|Hne].
      * rewrite list_lookup_insert_eq in Hv'' by (by eapply lookup_lt_Some).
        injection Hv'' as <-. congruence.
      * rewrite list_lookup_insert_ne in Hv'' by done.
        split; [|by exists v''].
        rewrite not_elem_of_cons. split; [lia|done].
    + intros Hall. assert (Hvu : wcc_vertex.updated v = false).
      { eapply Forall_forall in Hall; [exact Hall|]. by eapply list_elem_of_lookup_2. }
      injection (Hnone Hvu) as -> ->.
      rewrite list_insert_id in IHnone by done.
      by injection (IHnone Hall) as -> ->.
  - specialize (IH vs).
    destruct (graph_engine.run_active FIND_COMPONENTS rest vs) as [vs' reqs] eqn:Hrest.
    cbn [fst snd] in *. destruct IH as (IHsum & IHreq & IHup & IHnone).
    split; [done|]. split; [done|]. split; [|done].
    intros i v' Hi Hup. destruct (IHup i v' Hi Hup) as (Hnot & v'' & Hv'' & Hup'').
    split; [|by exists v''].
    rewrite not_elem_of_cons. split; [|done]. intros <-.
    unfold get_vertex in Hv. rewrite decide_True in Hv by lia.
    rewrite Nat2Z.id in Hv. congruence.
Qed.

Lemma serve_request_vertices graph reqs vs :
  Forall is_request_vertices reqs ->
  (graph_engine.serve graph reqs vs).1 = vs.
Proof.
  induction 1 as [|[id|id] reqs Hr _ IH]; simpl; [done| |done].
  by destruct (graph_engine.serve graph reqs vs).
Qed.

Lemma update_vertex_message msg dest vs :
  let vs' := graph_engine.update_vertex (wcc_vertex.run_on_message msg) dest vs in
  (vs' = vs \/ (label_sum vs' < label_sum vs)%nat) /\
  (forall (i : nat) v',
      vs' !! i = Some v' -> wcc_vertex.updated v' = true ->
      Z.of_nat i = dest \/ exists v, vs !! i = Some v /\ wcc_vertex.updated v = true).
Proof.
  unfold graph_engine.update_vertex.
  destruct (get_vertex vs dest) as [v|] eqn:Hv; simpl.
  2:{ split; [by left|]. intros i v' ? ?. right. by exists v'. }
  apply get_vertex_Some in Hv as [Hd Hv]. split.
  - destruct (run_on_message_cases msg v) as [[Hlt Heq]|[Hge Heq]]; rewrite Heq.
    + right. pose proof (label_sum_insert vs _ v
        {| wcc_vertex.get_id := wcc_vertex.get_id v; wcc_vertex.updated := true;
           wcc_vertex.empty := wcc_vertex.empty v;
           wcc_vertex.component_id := component_message.get_id msg |} Hv) as Hs.
      simpl in Hs. pose proof (to_uint_nonneg (component_message.id msg)) as Hnn.
      fold (component_message.get_id msg) in Hnn. lia.
    + left. by apply list_insert_id.
  - intros i v' Hi Hup. destruct (decide (i = Z.to_nat dest)) as [->|Hne].
    + left. lia.
    + right. rewrite list_lookup_insert_ne in Hi by done. by exists v'.
Qed.

Lemma deliver_spec msgs : forall vs,
  (graph_engine.deliver msgs vs = vs \/
   (label_sum (graph_engine.deliver msgs vs) < label_sum vs)%nat) /\
  (forall (i : nat) v',
      graph_engine.deliver msgs vs !! i = Some v' -> wcc_vertex.updated v' = true ->
      Z.of_nat i ∈ msgs.*1 \/ exists v, vs !! i = Some v /\ wcc_vertex.updated v = true).
Proof.
  induction msgs as [|[dest msg] msgs IH]; intros vs; simpl.
  { split; [by left|]. intros i v' ? ?. right. by exists v'. }
  destruct (update_vertex_message msg dest vs) as [Hstep Hupd].
  destruct (IH (graph_engine.update_vertex (wcc_vertex.run_on_message msg) dest vs))
    as [Hrest Hupd'].
  split.
  - destruct Hstep as [Heq|Hlt]; [rewrite Heq in *; done|].
    right. destruct Hrest as [->|?]; lia.
  - intros i v' Hi Hup. destruct (Hupd' i v' Hi Hup) as [Hin|(v & Hv & Hvu)].
    + left. by right.
    + destruct (Hupd i v Hv Hvu) as [<-|?]; [left; by left|by right].
Qed.

Lemma superstep_find graph e :
  updated_are_active e ->
  let e' := graph_engine.superstep FIND_COMPONENTS graph e in
  updated_are_active e' /\
  ((label_sum (graph_engine.vertices e') < label_sum (graph_engine.vertices e))%nat \/
   (label_sum (graph_engine.vertices e') = label_sum (graph_engine.vertices e) /\
    none_updated (graph_engine.vertices e'))).
Proof.
  intros Hinv. unfold graph_engine.superstep.
  destruct (run_active_find (graph_engine.active e) (graph_engine.vertices e))
    as (Hsum & Hreq & Hup & _).
  destruct (graph_engine.run_active _ _ _) as [vs1 reqs]. simpl in *.
  pose proof (serve_request_vertices graph reqs vs1 Hreq) as Hserve.
  destruct (graph_engine.serve graph reqs vs1) as [vs2 msgs]. simpl in *. subst vs2.
  assert (Hnone1 : none_updated vs1).
  { apply Forall_forall. intros v Hin.
    apply list_elem_of_lookup in Hin as [i Hi].
    destruct (wcc_vertex.updated v) eqn:Hu; [|done].
    destruct (Hup i v Hi Hu) as (Hnot & v0 & Hv0 & Hu0).
    destruct Hnot. by apply (Hinv i v0). }
  destruct (deliver_spec msgs vs1) as [Hd Hdu]. split.
  - intros i v' Hi Hu. simpl in *.
    destruct (Hdu i v' Hi Hu) as [Hin|(v & Hv & Hvu)]; [done|].
    eapply Forall_forall in Hnone1; [|by eapply list_elem_of_lookup_2].
    congruence.
  - destruct Hd as [->|Hlt]; [right|left; lia]. done.
Qed.

Lemma superstep_none_updated graph e :
  none_updated (graph_engine.vertices e) ->
  graph_engine.superstep FIND_COMPONENTS graph e
  = {| graph_engine.vertices := graph_engine.vertices e;
       graph_engine.active := [] |}.
Proof.
  intros Hnone. unfold graph_engine.superstep.
  destruct (run_active_find (graph_engine.active e) (graph_engine.vertices e))
    as (_ & _ & _ & Hr).
  by rewrite (Hr Hnone).
Qed.

(** Supersteps enough for a run that starts with label sum [n]. *)
Lemma wait4complete_find_terminates graph n : forall e,
  updated_are_active e ->
  (label_sum (graph_engine.vertices e) <= n)%nat ->
  exists vs,
    forall fuel, (n + 3 <= fuel)%nat ->
      graph_engine.wait4complete fuel FIND_COMPONENTS graph e = Some vs.
Proof.
  induction n as [n IH] using lt_wf_ind. intros e Hinv Hsum.
  destruct (graph_engine.active e) as [|a act] eqn:Hact.
  { exists (graph_engine.vertices e). intros [|fuel] Hf; [lia|]. simpl. by rewrite Hact. }
  destruct (superstep_find graph e Hinv) as [Hinv' [Hlt|[Heq Hnone]]].
  - destruct (IH (label_sum (graph_engine.vertices
                    (graph_engine.superstep FIND_COMPONENTS graph e)))
               ltac:(lia) _ Hinv' ltac:(lia)) as [vs Hvs].
    exists vs. intros [|fuel] Hf; [lia|]. simpl. rewrite Hact. apply Hvs. lia.
  - set (e1 := graph_engine.superstep FIND_COMPONENTS graph e) in *.
    exists (graph_engine.vertices e1).
    intros [|[|[|fuel]]] Hf; try lia. simpl. rewrite Hact. fold e1.
    destruct (graph_engine.active e1) eqn:Hact1; [done|].
    by rewrite (superstep_none_updated graph e1 Hnone).
Qed.

Lemma start_all_create_index graph :
  updated_are_active (graph_engine.start_all (create_index graph)).
Proof.
  intros i v Hi _. simpl in *. apply list_elem_of_fmap. exists i. split; [done|].
  apply elem_of_seq. apply lookup_lt_Some in Hi. lia.
Qed.

(** C5.  An adoption strictly lowers a label that stays at or above zero.
    For every graph the FIND_COMPONENTS run started on all vertices ends: a
    number of supersteps given by the sum of the initial labels is enough,
    and more supersteps give the same result. *)
Theorem wcc_reaches_quiescence :
  (forall msg v,
      component_message.get_id msg < wcc_vertex.component_id v ->
      0 <= wcc_vertex.component_id (wcc_vertex.run_on_message msg v)
        < wcc_vertex.component_id v) /\
  (forall graph : list page_vertex.t,
      exists vs,
        forall fuel,
          (label_sum (create_index graph) + 3 <= fuel)%nat ->
          graph_engine.wait4complete fuel FIND_COMPONENTS graph
            (graph_engine.start_all (create_index graph)) = Some vs).
Proof.
  split.
  - intros msg v Hlt.
    destruct (run_on_message_cases msg v) as [[_ Heq]|[Hge _]]; [|lia].
    rewrite Heq. simpl. split; [|done]. apply to_uint_nonneg.
  - intros graph. eapply wait4complete_find_terminates; [|done].
    apply start_all_create_index.
Qed.

(** ** [compute_wcc] *)

Lemma wait4complete_mono stage graph fuel : forall fuel' e vs,
  graph_engine.wait4complete fuel stage graph e = Some vs ->
  (fuel <= fuel')%nat ->
  graph_engine.wait4complete fuel' stage graph e = Some vs.
Proof.
  induction fuel as [|fuel IH]; intros fuel' e vs Hw Hle; [done|].
  destruct fuel' as [|fuel']; [lia|]. simpl in *.
  destruct (graph_engine.active e); [done|]. apply IH; [done|lia].
Qed.

Lemma compute_wcc_mono INVALID graph fuel fuel' vec :
  compute_wcc INVALID fuel graph = Some vec -> (fuel <= fuel')%nat ->
  compute_wcc INVALID fuel' graph = Some vec.
Proof.
  unfold compute_wcc. intros Hc Hle.
  destruct (graph_engine.wait4complete fuel FIND_COMPONENTS _ _) as [vs1|] eqn:H1;
    [|done].
  rewrite (wait4complete_mono _ _ _ fuel' _ _ H1 Hle). simpl in *.
  destruct (graph_engine.wait4complete fuel REMOVE_EMPTY _ _) as [vs2|] eqn:H2;
    [|done].
  by rewrite (wait4complete_mono _ _ _ fuel' _ _ H2 Hle).
Qed.

(** A field [p] that [f] leaves alone is left alone by the update. *)
Lemma update_vertex_keeps {A} (p : wcc_vertex.t -> A) f id vs :
  (forall v, p (f v) = p v) ->
  p <$> graph_engine.update_vertex f id vs = p <$> vs.
Proof.
  intros Hp. unfold graph_engine.update_vertex.
  destruct (get_vertex vs id) as [v|] eqn:Hv; [|done].
  apply get_vertex_Some in Hv as [_ Hv].
  rewrite list_fmap_insert, Hp. apply list_insert_id. by rewrite list_lookup_fmap, Hv.
Qed.

Lemma run_active_keeps {A} (p : wcc_vertex.t -> A) stage active : forall vs,
  (forall v, p (wcc_vertex.run stage v).1 = p v) ->
  p <$> (graph_engine.run_active stage active vs).1 = p <$> vs.
Proof.
  induction active as [|id rest IH]; intros vs Hp; [done|].
  rewrite run_active_cons. destruct (get_vertex vs id) as [v|] eqn:Hv; [|by apply IH].
  apply get_vertex_Some in Hv as [_ Hv]. specialize (Hp v) as Hpv.
  destruct (wcc_vertex.run stage v) as [v1 req]. cbn [fst] in Hpv.
  specialize (IH (<[Z.to_nat id := v1]> vs) Hp).
  destruct (graph_engine.run_active stage rest _) as [vs' reqs]. cbn [fst] in *.
  rewrite IH, list_fmap_insert, Hpv. apply list_insert_id.
  by rewrite list_lookup_fmap, Hv.
Qed.

Lemma serve_keeps {A} (p : wcc_vertex.t -> A) graph reqs : forall vs,
  (forall id n v, p (wcc_vertex.run_on_num_edges id n v) = p v) ->
  p <$> (graph_engine.serve graph reqs vs).1 = p <$> vs.
Proof.
  induction reqs as [|[id|id] reqs IH]; intros vs Hp; simpl; [done| |].
  - specialize (IH vs Hp). by destruct (graph_engine.serve graph reqs vs).
  - destruct (get_vertex graph id) as [vertex|]; [|by apply IH].
    rewrite IH by done. by apply update_vertex_keeps.
Qed.

Lemma deliver_keeps {A} (p : wcc_vertex.t -> A) msgs : forall vs,
  (forall msg v, p (wcc_vertex.run_on_message msg v) = p v) ->
  p <$> graph_engine.deliver msgs vs = p <$> vs.
Proof.
  induction msgs as [|[dest msg] msgs IH]; intros vs Hp; simpl; [done|].
  rewrite IH by done. by apply update_vertex_keeps.
Qed.

Lemma run_on_message_id msg v :
  wcc_vertex.get_id (wcc_vertex.run_on_message msg v) = wcc_vertex.get_id v.
Proof. by destruct (run_on_message_cases msg v) as [[_ ->]|[_ ->]]. Qed.

Lemma run_id stage v :
  wcc_vertex.get_id (wcc_vertex.run stage v).1 = wcc_vertex.get_id v.
Proof. unfold wcc_vertex.run. by destruct stage, (wcc_vertex.updated v). Qed.

Lemma superstep_ids stage graph e :
  wcc_vertex.get_id <$> graph_engine.vertices (graph_engine.superstep stage graph e)
  = wcc_vertex.get_id <$> graph_engine.vertices e.
Proof.
  unfold graph_engine.superstep.
  pose proof (run_active_keeps wcc_vertex.get_id stage (graph_engine.active e)
                (graph_engine.vertices e) (run_id stage)) as H1.
  destruct (graph_engine.run_active _ _ _) as [vs1 reqs]. cbn [fst] in H1.
  pose proof (serve_keeps wcc_vertex.get_id graph reqs vs1 (fun _ _ _ => eq_refl)) as H2.
  destruct (graph_engine.serve graph reqs vs1) as [vs2 msgs]. cbn [fst] in H2.
  simpl. by rewrite (deliver_keeps wcc_vertex.get_id msgs vs2 run_on_message_id), H2.
Qed.

Lemma wait4complete_ids stage graph fuel : forall e vs,
  graph_engine.wait4complete fuel stage graph e = Some vs ->
  wcc_vertex.get_id <$> vs = wcc_vertex.get_id <$> graph_engine.vertices e.
Proof.
  induction fuel as [|fuel IH]; intros e vs Hw; [done|]. simpl in Hw.
  destruct (graph_engine.active e); [by injection Hw as <-|].
  rewrite (IH _ _ Hw). apply superstep_ids.
Qed.

Lemma ids_ok_fmap vs vs' :
  wcc_vertex.get_id <$> vs' = wcc_vertex.get_id <$> vs -> ids_ok vs -> ids_ok vs'.
Proof.
  intros Heq Hok i v' Hi.
  assert (Hl : (wcc_vertex.get_id <$> vs') !! i = Some (wcc_vertex.get_id v'))
    by (by rewrite list_lookup_fmap, Hi).
  rewrite Heq, list_lookup_fmap in Hl.
  destruct (vs !! i) as [v|] eqn:Hv; [|done]. injection Hl as <-. by apply Hok.
Qed.

Lemma create_index_ids_ok graph : ids_ok (create_index graph).
Proof.
  intros i v Hi. unfold create_index in Hi.
  apply list_lookup_fmap_Some in Hi as (j & -> & Hj).
  apply lookup_seq in Hj as [-> _]. done.
Qed.

Lemma length_create_index graph : length (create_index graph) = length graph.
Proof. unfold create_index. by rewrite length_fmap, length_seq. Qed.

Lemma update_vertex_lookup f id vs (i : nat) :
  graph_engine.update_vertex f id vs !! i
  = if decide (id = Z.of_nat i) then f <$> vs !! i else vs !! i.
Proof.
  unfold graph_engine.update_vertex, get_vertex.
  destruct (decide (0 <= id)) as [Hid|Hid].
  - destruct (vs !! Z.to_nat id) as [v|] eqn:Hv.
    + destruct (decide (id = Z.of_nat i)) as [->|Hne].
      * rewrite Nat2Z.id in *. rewrite Hv. simpl.
        apply list_lookup_insert_eq. by eapply lookup_lt_Some.
      * apply list_lookup_insert_ne. lia.
    + destruct (decide (id = Z.of_nat i)) as [->|Hne]; [|done].
      rewrite Nat2Z.id in Hv. by rewrite Hv.
  - rewrite decide_False by lia. done.
Qed.

Lemma run_active_remove active : forall vs,
  let r := graph_engine.run_active REMOVE_EMPTY active vs in
  r.1 = vs /\
  Forall is_request_num_edges r.2 /\
  forall (i : nat) v,
    vs !! i = Some v -> Z.of_nat i ∈ active ->
    wcc_vertex.request_num_edges (wcc_vertex.get_id v) ∈ r.2.
Proof.
  induction active as [|id rest IH]; intros vs.
  { simpl. split; [done|]. split; [constructor|]. set_solver. }
  cbv zeta. rewrite run_active_cons.
  destruct (get_vertex vs id) as [v|] eqn:Hv.
  - apply get_vertex_Some in Hv as [Hid Hv]. cbn [wcc_vertex.run].
    rewrite list_insert_id by done. specialize (IH vs).
    destruct (graph_engine.run_active REMOVE_EMPTY rest vs) as [vs' reqs].
    cbn [fst snd] in *. destruct IH as (-> & IHreq & IHin).
    split; [done|]. split; [by constructor|].
    intros i w Hi Hin. apply elem_of_cons in Hin as [Heq|Hin].
    + subst id. rewrite Nat2Z.id in Hv.
      assert (w = v) as -> by congruence. left.
    + right. by apply (IHin i).
  - specialize (IH vs).
    destruct (graph_engine.run_active REMOVE_EMPTY rest vs) as [vs' reqs].
    cbn [fst snd] in *. destruct IH as (-> & IHreq & IHin).
    split; [done|]. split; [done|].
    intros i w Hi Hin. apply elem_of_cons in Hin as [Heq|Hin]; [|by apply (IHin i)].
    subst id. unfold get_vertex in Hv. rewrite decide_True in Hv by lia.
    rewrite Nat2Z.id in Hv. congruence.
Qed.

Lemma serve_num_edges graph reqs : forall vs,
  Forall is_request_num_edges reqs ->
  (graph_engine.serve graph reqs vs).2 = [] /\
  forall (i : nat) v' vertex,
    (graph_engine.serve graph reqs vs).1 !! i = Some v' ->
    graph !! i = Some vertex ->
    wcc_vertex.request_num_edges (Z.of_nat i) ∈ reqs \/
    (exists v, vs !! i = Some v /\
       wcc_vertex.empty v = (page_vertex.get_num_edges vertex BOTH_EDGES =? 0)) ->
    wcc_vertex.empty v' = (page_vertex.get_num_edges vertex BOTH_EDGES =? 0).
Proof.
  induction reqs as [|[id|id] reqs IH]; intros vs Hreq.
  - simpl. split; [done|]. intros i v' vertex Hi Hg [Hin|(v & Hv & He)].
    + inversion Hin.
    + congruence.
  - by apply Forall_cons in Hreq as [[] _].
  - apply Forall_cons in Hreq as [_ Hreq]. cbn [graph_engine.serve].
    set (vs1 := match get_vertex graph id with
                | Some vertex =>
                    graph_engine.update_vertex
                      (wcc_vertex.run_on_num_edges id
                         (page_vertex.get_num_edges vertex BOTH_EDGES)) id vs
                | None => vs
                end).
    destruct (IH vs1 Hreq) as [Hmsgs Hempty]. split; [done|].
    intros i v' vertex Hi Hg Hor. apply (Hempty i v' vertex Hi Hg).
    assert (Hlen : length vs1 = length vs).
    { subst vs1. destruct (get_vertex graph id); [|done].
      rewrite <- (length_fmap wcc_vertex.get_id), update_vertex_keeps by done.
      by rewrite length_fmap. }
    assert (Hhere : is_Some (vs !! i)).
    { apply lookup_lt_is_Some. rewrite <- Hlen.
      rewrite <- (length_fmap wcc_vertex.get_id vs1).
      rewrite <- (serve_keeps wcc_vertex.get_id graph reqs vs1) by done.
      rewrite length_fmap. by eapply lookup_lt_Some. }
    destruct Hhere as [v Hv].
    destruct (decide (id = Z.of_nat i)) as [->|Hne].
    + right. subst vs1. unfold get_vertex at 1. rewrite decide_True by lia.
      rewrite Nat2Z.id, Hg. rewrite update_vertex_lookup, decide_True by done.
      rewrite Hv. simpl. by eexists.
    + destruct Hor as [Hin|(v0 & Hv0 & He)].
      * left. apply elem_of_cons in Hin as [Heq|Hin]; [congruence|done].
      * right. exists v0. split; [|done]. subst vs1.
        destruct (get_vertex graph id); [|done].
        by rewrite update_vertex_lookup, decide_False.
Qed.

Lemma wait4complete_remove graph fuel vs vs' :
  ids_ok vs ->
  graph_engine.wait4complete fuel REMOVE_EMPTY graph (graph_engine.start_all vs)
  = Some vs' ->
  wcc_vertex.component_id <$> vs' = wcc_vertex.component_id <$> vs /\
  forall (i : nat) v' vertex,
    vs' !! i = Some v' -> graph !! i = Some vertex ->
    wcc_vertex.empty v' = (page_vertex.get_num_edges vertex BOTH_EDGES =? 0).
Proof.
  intros Hok Hw. destruct fuel as [|fuel]; [done|]. simpl in Hw.
  destruct (Z.of_nat <$> seq 0 (length vs)) as [|a act] eqn:Hact.
  { injection Hw as <-. split; [done|]. intros i v' vertex Hi.
    apply lookup_lt_Some in Hi. apply (f_equal length) in Hact.
    rewrite length_fmap, length_seq in Hact. simpl in Hact. lia. }
  unfold graph_engine.superstep in Hw. cbn [graph_engine.active graph_engine.vertices
    graph_engine.start_all] in Hw. rewrite Hact in Hw.
  destruct (run_active_remove (a :: act) vs) as (Hvs & Hreq & Hin).
  destruct (graph_engine.run_active REMOVE_EMPTY (a :: act) vs) as [vs1 reqs].
  cbn [fst snd] in *. subst vs1.
  destruct (serve_num_edges graph reqs vs Hreq) as [Hmsgs Hempty].
  pose proof (serve_keeps wcc_vertex.component_id graph reqs vs
                (fun _ _ _ => eq_refl)) as Hcomp.
  pose proof (serve_keeps wcc_vertex.get_id graph reqs vs
                (fun _ _ _ => eq_refl)) as Hids.
  destruct (graph_engine.serve graph reqs vs) as [vs2 msgs].
  cbn [fst snd] in *. subst msgs. simpl in Hw.
  destruct fuel as [|fuel]; [done|]. simpl in Hw. injection Hw as <-.
  split; [done|]. intros i v' vertex Hi Hg. apply (Hempty i v' vertex Hi Hg).
  left. assert (Hhere : is_Some (vs !! i)).
  { apply lookup_lt_is_Some. rewrite <- (length_fmap wcc_vertex.get_id vs), <- Hids.
    rewrite length_fmap. by eapply lookup_lt_Some. }
  destruct Hhere as [v Hv]. rewrite <- (Hok i v Hv). apply (Hin i v Hv).
  rewrite <- Hact. apply list_elem_of_fmap. exists i. split; [done|].
  apply elem_of_seq. apply lookup_lt_Some in Hv. lia.
Qed.

Section save_cid_query_facts.

Variable INVALID_VERTEX_ID : vertex_id_t.

Lemma save_cid_query_insert v vec :
  0 <= wcc_vertex.get_id v ->
  save_cid_query INVALID_VERTEX_ID v vec
  = <[Z.to_nat (wcc_vertex.get_id v) := saved_cid INVALID_VERTEX_ID v]> vec.
Proof.
  intros Hid. unfold save_cid_query, saved_cid, wcc_vertex.is_empty, FG_vector_set,
    wcc_vertex.get_component_id.
  destruct (wcc_vertex.empty v); simpl; by rewrite decide_True.
Qed.

Lemma query_on_all_save_cid vs : forall vec,
  ids_ok vs -> (length vs <= length vec)%nat ->
  let r := graph_engine.query_on_all (save_cid_query INVALID_VERTEX_ID) vs vec in
  length r = length vec /\
  forall (i : nat) v, vs !! i = Some v -> r !! i = Some (saved_cid INVALID_VERTEX_ID v).
Proof.
  unfold graph_engine.query_on_all.
  induction vs as [|v vs IH] using rev_ind; intros vec Hok Hlen.
  { simpl. split; [done|]. intros i v Hi. inversion Hi. }
  rewrite foldl_app. simpl. rewrite length_app in Hlen. simpl in Hlen.
  destruct (IH vec) as [IHlen IHval].
  { intros i w Hi. apply Hok. by apply lookup_app_l_Some. }
  { lia. }
  assert (Hid : wcc_vertex.get_id v = Z.of_nat (length vs)).
  { apply Hok. by rewrite list_lookup_middle. }
  pose proof (save_cid_query_insert v
                (foldl (fun r v => save_cid_query INVALID_VERTEX_ID v r) vec vs)
                ltac:(lia)) as Hset.
  rewrite Hid, Nat2Z.id in Hset.
  rewrite Hset. split; [by rewrite length_insert|].
  intros i w Hi. destruct (decide (i = length vs)) as [->|Hne].
  - rewrite list_lookup_middle in Hi by done. injection Hi as <-.
    apply list_lookup_insert_eq. lia.
  - rewrite list_lookup_insert_ne by done. apply IHval.
    rewrite lookup_app_l in Hi; [done|].
    apply lookup_lt_Some in Hi. rewrite length_app in Hi. simpl in Hi. lia.
Qed.

End save_cid_query_facts.

Lemma superstep_remove_active graph e :
  graph_engine.active (graph_engine.superstep REMOVE_EMPTY graph e) = [].
Proof.
  unfold graph_engine.superstep.
  destruct (run_active_remove (graph_engine.active e) (graph_engine.vertices e))
    as (_ & Hreq & _).
  destruct (graph_engine.run_active REMOVE_EMPTY _ _) as [vs1 reqs].
  cbn [snd] in Hreq.
  destruct (serve_num_edges graph reqs vs1 Hreq) as [Hmsgs _].
  destruct (graph_engine.serve graph reqs vs1) as [vs2 msgs].
  cbn [snd] in Hmsgs. by subst msgs.
Qed.

Lemma wait4complete_remove_terminates graph e fuel :
  (2 <= fuel)%nat ->
  is_Some (graph_engine.wait4complete fuel REMOVE_EMPTY graph e).
Proof.
  intros Hf. destruct fuel as [|[|fuel]]; try lia. cbn [graph_engine.wait4complete].
  destruct (graph_engine.active e) as [|a act]; [done|].
  by rewrite superstep_remove_active.
Qed.

(** C6.  On the two cliques and the isolated vertex, [compute_wcc] returns
    0, 0, 0, 3, 3, 3 and the invalid-vertex id, whatever that id is, as soon
    as four supersteps are allowed.  On every graph [compute_wcc] returns a
    vector once enough supersteps are allowed; the vector has one entry per
    vertex, the entry of a vertex without edges is the invalid-vertex id,
    and the entry of any other vertex is the label it had when the
    FIND_COMPONENTS run ended. *)
Theorem compute_wcc_cliques_and_empty (INVALID_VERTEX_ID : vertex_id_t) :
  (forall fuel,
      (4 <= fuel)%nat ->
      compute_wcc INVALID_VERTEX_ID fuel clique_graph
      = Some [0; 0; 0; 3; 3; 3; INVALID_VERTEX_ID]) /\
  (forall graph : list page_vertex.t,
      exists vec,
        forall fuel,
          (label_sum (create_index graph) + 3 <= fuel)%nat ->
          compute_wcc INVALID_VERTEX_ID fuel graph = Some vec) /\
  (forall fuel graph vec,
      compute_wcc INVALID_VERTEX_ID fuel graph = Some vec ->
      length vec = length graph /\
      exists vs,
        graph_engine.wait4complete fuel FIND_COMPONENTS graph
          (graph_engine.start_all (create_index graph)) = Some vs /\
        forall (i : nat) vertex,
          graph !! i = Some vertex ->
          (page_vertex.get_num_edges vertex BOTH_EDGES = 0 ->
           vec !! i = Some INVALID_VERTEX_ID) /\
          (page_vertex.get_num_edges vertex BOTH_EDGES <> 0 ->
           vec !! i = wcc_vertex.component_id <$> vs !! i)).
Proof.
  split; [|split].
  - intros fuel Hf. by apply (compute_wcc_mono _ _ 4%nat).
  - intros graph.
    destruct (wait4complete_find_terminates graph (label_sum (create_index graph))
                (graph_engine.start_all (create_index graph))
                (start_all_create_index graph) ltac:(done)) as [vs1 Hvs1].
    destruct (wait4complete_remove_terminates graph (graph_engine.start_all vs1)
                (label_sum (create_index graph) + 3) ltac:(lia)) as [vs2 Hvs2].
    eexists. intros fuel Hf. unfold compute_wcc.
    rewrite (Hvs1 fuel Hf). simpl.
    rewrite (wait4complete_mono _ _ _ fuel _ _ Hvs2 Hf). simpl. reflexivity.
  - intros fuel graph vec Hc. unfold compute_wcc in Hc.
    destruct (graph_engine.wait4complete fuel FIND_COMPONENTS _ _) as [vs1|] eqn:H1;
      [|done].
    simpl in Hc.
    destruct (graph_engine.wait4complete fuel REMOVE_EMPTY _ _) as [vs2|] eqn:H2;
      [|done].
    simpl in Hc. injection Hc as <-.
    pose proof (wait4complete_ids _ _ _ _ _ H1) as Hids1. simpl in Hids1.
    assert (Hok1 : ids_ok vs1).
    { eapply ids_ok_fmap; [exact Hids1|]. apply create_index_ids_ok. }
    pose proof (wait4complete_ids _ _ _ _ _ H2) as Hids2. simpl in Hids2.
    assert (Hok2 : ids_ok vs2) by (by eapply ids_ok_fmap).
    destruct (wait4complete_remove _ _ _ _ Hok1 H2) as [Hcomp Hempty].
    assert (Hlen2 : length vs2 = length graph).
    { rewrite <- (length_fmap wcc_vertex.get_id vs2), Hids2, Hids1.
      by rewrite length_fmap, length_create_index. }
    destruct (query_on_all_save_cid INVALID_VERTEX_ID vs2 (replicate (length vs2) 0)
                Hok2) as [Hlen Hval].
    { by rewrite length_replicate. }
    split. { by rewrite Hlen, length_replicate. }
    exists vs1. split; [done|]. intros i vertex Hg.
    destruct (lookup_lt_is_Some_2 vs2 i) as [v2 Hv2].
    { rewrite Hlen2. by eapply lookup_lt_Some. }
    rewrite (Hval i v2 Hv2). unfold saved_cid.
    rewrite (Hempty i v2 vertex Hv2 Hg). split; intros Hn.
    + by rewrite (proj2 (Z.eqb_eq _ _) Hn).
    + rewrite (proj2 (Z.eqb_neq _ _) Hn).
      assert (Hl : (wcc_vertex.component_id <$> vs2) !! i
                   = Some (wcc_vertex.component_id v2))
        by (by rewrite list_lookup_fmap, Hv2).
      by rewrite Hcomp, list_lookup_fmap in Hl.
Qed.

Lemma compute_wcc_cliques_and_empty_witness :
  compute_wcc UINT_MAX 10 clique_graph = Some [0; 0; 0; 3; 3; 3; UINT_MAX].
Proof.
  apply (proj1 (compute_wcc_cliques_and_empty UINT_MAX) 10%nat). lia.
Defined.

Example compute_wcc_symmetric (INVALID_VERTEX_ID : vertex_id_t) :
  compute_wcc INVALID_VERTEX_ID 4 symmetric_clique_graph
  = Some [0; 0; 0; 3; 3; 3; INVALID_VERTEX_ID].
Proof. reflexivity. Qed.

(** Three supersteps are not enough on the cliques. *)
Example compute_wcc_out_of_fuel (INVALID_VERTEX_ID : vertex_id_t) :
  compute_wcc INVALID_VERTEX_ID 3 clique_graph = None.
Proof. reflexivity. Qed.

(** ** Labels when propagation has ended *)

Lemma run_component_id stage v :
  wcc_vertex.component_id (wcc_vertex.run stage v).1 = wcc_vertex.component_id v.
Proof. unfold wcc_vertex.run. by destruct stage, (wcc_vertex.updated v). Qed.

Lemma run_active_requests active : forall vs (i : nat) v,
  vs !! i = Some v -> Z.of_nat i ∈ active -> wcc_vertex.updated v = true ->
  wcc_vertex.request_vertices (wcc_vertex.get_id v)
  ∈ (graph_engine.run_active FIND_COMPONENTS active vs).2.
Proof.
  induction active as [|id rest IH]; intros vs i v Hi Hin Hu; [inversion Hin|].
  rewrite run_active_cons.
  destruct (decide (id = Z.of_nat i)) as [->|Hne].
  - unfold get_vertex. rewrite decide_True by lia. rewrite Nat2Z.id, Hi.
    unfold wcc_vertex.run at 1. rewrite Hu.
    destruct (graph_engine.run_active _ _ _) as [vs' reqs]. simpl. by left.
  - apply elem_of_cons in Hin as [Heq|Hin]; [congruence|].
    destruct (get_vertex vs id) as [v0|] eqn:Hv0; [|by apply (IH vs i v)].
    apply get_vertex_Some in Hv0 as [Hid Hv0].
    destruct (wcc_vertex.run FIND_COMPONENTS v0) as [v1 req].
    specialize (IH (<[Z.to_nat id := v1]> vs) i v).
    destruct (graph_engine.run_active _ _ _) as [vs' reqs]. cbn [snd] in *.
    apply elem_of_app. right. apply IH; [|done..].
    rewrite list_lookup_insert_ne; [done|lia].
Qed.

Lemma run_active_pointwise active (i : nat) : forall vs v,
  vs !! i = Some v ->
  exists v1,
    (graph_engine.run_active FIND_COMPONENTS active vs).1 !! i = Some v1 /\
    wcc_vertex.component_id v1 = wcc_vertex.component_id v /\
    (wcc_vertex.updated v = false -> v1 = v).
Proof.
  induction active as [|id rest IH]; intros vs v Hi; [by exists v|].
  rewrite run_active_cons.
  destruct (get_vertex vs id) as [v0|] eqn:Hv0; [|by apply IH].
  apply get_vertex_Some in Hv0 as [Hid Hv0].
  destruct (run_find_spec v0) as (_ & Hc0 & Hn0).
  destruct (wcc_vertex.run FIND_COMPONENTS v0) as [v1 req]. cbn [fst] in *.
  destruct (decide (i = Z.to_nat id)) as [->|Hne].
  - assert (v0 = v) as -> by congruence.
    destruct (IH (<[Z.to_nat id := v1]> vs) v1) as (v2 & Hv2 & Hc2 & Hn2).
    { apply list_lookup_insert_eq. by eapply lookup_lt_Some. }
    destruct (graph_engine.run_active _ _ _) as [vs' reqs]. cbn [fst] in *.
    exists v2. split; [done|]. split; [congruence|].
    intros Hu. injection (Hn0 Hu) as -> _. by apply Hn2.
  - destruct (IH (<[Z.to_nat id := v1]> vs) v) as (v2 & Hv2 & Hc2 & Hn2).
    { by rewrite list_lookup_insert_ne. }
    destruct (graph_engine.run_active _ _ _) as [vs' reqs]. cbn [fst] in *.
    by exists v2.
Qed.

Lemma serve_messages graph reqs vs id v vertex dest :
  Forall is_request_vertices reqs ->
  wcc_vertex.request_vertices id ∈ reqs ->
  get_vertex vs id = Some v -> get_vertex graph id = Some vertex ->
  dest ∈ page_vertex.get_neigh vertex BOTH_EDGES ->
  (dest, component_message.new (wcc_vertex.component_id v))
  ∈ (graph_engine.serve graph reqs vs).2.
Proof.
  intros Hreq Hin Hv Hg Hd.
  induction Hreq as [|[id'|id'] reqs Hr Hreq IH]; [inversion Hin| |done].
  cbn [graph_engine.serve].
  destruct (graph_engine.serve graph reqs vs) as [vs' msgs] eqn:Hserve.
  cbn [snd] in *. apply elem_of_app.
  apply elem_of_cons in Hin as [Heq|Hin]; [|right; by apply IH].
  injection Heq as <-. left. rewrite Hv, Hg. unfold wcc_vertex.run_on_vertex.
  apply list_elem_of_fmap. by exists dest.
Qed.

Lemma deliver_pointwise msgs (i : nat) : forall vs v,
  vs !! i = Some v ->
  exists w,
    graph_engine.deliver msgs vs !! i = Some w /\
    wcc_vertex.component_id w <= wcc_vertex.component_id v /\
    (wcc_vertex.updated w = false -> w = v) /\
    (forall msg, (Z.of_nat i, msg) ∈ msgs ->
                 wcc_vertex.component_id w <= component_message.get_id msg) /\
    (label_in_range v -> label_in_range w).
Proof.
  induction msgs as [|[dest msg] msgs IH]; intros vs v Hi.
  { exists v. simpl. split; [done|]. split; [lia|]. split; [done|]. split; [|done].
    intros msg Hin. inversion Hin. }
  cbn [graph_engine.deliver].
  set (vs' := graph_engine.update_vertex (wcc_vertex.run_on_message msg) dest vs).
  assert (Hv' : exists v', vs' !! i = Some v' /\
            wcc_vertex.component_id v' <= wcc_vertex.component_id v /\
            (wcc_vertex.updated v' = false -> v' = v) /\
            (dest = Z.of_nat i ->
             wcc_vertex.component_id v' <= component_message.get_id msg) /\
            (wcc_vertex.updated v' = true \/ v' = v) /\
            (label_in_range v -> label_in_range v')).
  { subst vs'. rewrite update_vertex_lookup.
    destruct (decide (dest = Z.of_nat i)) as [->|Hne].
    - rewrite Hi. simpl. eexists. split; [done|].
      destruct (run_on_message_cases msg v) as [[Hlt ->]|[Hge ->]]; simpl.
      + split; [lia|]. split; [done|]. split; [lia|]. split; [by left|].
        intros _. unfold label_in_range. simpl. split; [apply to_uint_nonneg|].
        unfold component_message.get_id, to_uint, UINT_MAX.
        pose proof (Z.mod_pos_bound (component_message.id msg) (2 ^ 32) ltac:(lia)).
        lia.
      + split; [lia|]. split; [done|]. split; [lia|]. split; [by right|done].
    - exists v. split; [done|]. split; [lia|]. split; [done|].
      split; [done|]. split; [by right|done]. }
  destruct Hv' as (v' & Hv' & Hle' & Hsame' & Hmsg' & Hor & Hrange').
  destruct (IH vs' v' Hv') as (w & Hw & Hle & Hsame & Hmsgs & Hrange).
  exists w. split; [done|]. split; [lia|]. split; [|split].
  - intros Hu. specialize (Hsame Hu). subst w. by apply Hsame'.
  - intros m Hin. apply elem_of_cons in Hin as [Heq|Hin]; [|by apply Hmsgs].
    injection Heq as <- <-. specialize (Hmsg' eq_refl). lia.
  - auto.
Qed.

Lemma superstep_find_unfold graph e :
  graph_engine.superstep FIND_COMPONENTS graph e
  = let r := graph_engine.run_active FIND_COMPONENTS (graph_engine.active e)
               (graph_engine.vertices e) in
    let msgs := (graph_engine.serve graph r.2 r.1).2 in
    {| graph_engine.vertices := graph_engine.deliver msgs r.1;
       graph_engine.active := msgs.*1 |}.
Proof.
  unfold graph_engine.superstep.
  destruct (run_active_find (graph_engine.active e) (graph_engine.vertices e))
    as (_ & Hreq & _ & _).
  destruct (graph_engine.run_active _ _ _) as [vs1 reqs]. cbn [fst snd] in *.
  pose proof (serve_request_vertices graph reqs vs1 Hreq) as Hserve.
  destruct (graph_engine.serve graph reqs vs1) as [vs2 msgs]. cbn [fst snd] in *.
  by subst vs2.
Qed.

Lemma run_active_length stage active vs :
  length (graph_engine.run_active stage active vs).1 = length vs.
Proof.
  rewrite <- (length_fmap wcc_vertex.get_id), (run_active_keeps _ _ _ _ (run_id stage)).
  by rewrite length_fmap.
Qed.

Lemma deliver_length msgs vs : length (graph_engine.deliver msgs vs) = length vs.
Proof.
  rewrite <- (length_fmap wcc_vertex.get_id),
    (deliver_keeps _ _ _ run_on_message_id).
  by rewrite length_fmap.
Qed.

Lemma superstep_propagation_inv graph e :
  (Z.of_nat (length graph) <= 2 ^ 32) ->
  propagation_inv graph e ->
  propagation_inv graph (graph_engine.superstep FIND_COMPONENTS graph e).
Proof.
  intros Hsize (Hact & Hids & Hrange & Hown & Hnb).
  destruct (superstep_find graph e Hact) as [Hact' _].
  split; [done|]. split.
  { eapply ids_ok_fmap; [apply superstep_ids|done]. }
  rewrite superstep_find_unfold. cbv zeta. cbn [graph_engine.vertices].
  set (r := graph_engine.run_active FIND_COMPONENTS (graph_engine.active e)
              (graph_engine.vertices e)) in *.
  set (msgs := (graph_engine.serve graph r.2 r.1).2).
  assert (Hstep : forall (i : nat) w,
            graph_engine.deliver msgs r.1 !! i = Some w ->
            exists v v1,
              graph_engine.vertices e !! i = Some v /\ r.1 !! i = Some v1 /\
              wcc_vertex.component_id v1 = wcc_vertex.component_id v /\
              (wcc_vertex.updated v = false -> v1 = v) /\
              wcc_vertex.component_id w <= wcc_vertex.component_id v1 /\
              (wcc_vertex.updated w = false -> w = v1) /\
              (forall msg, (Z.of_nat i, msg) ∈ msgs ->
                 wcc_vertex.component_id w <= component_message.get_id msg) /\
              (label_in_range v1 -> label_in_range w)).
  { intros i w Hw.
    destruct (lookup_lt_is_Some_2 (graph_engine.vertices e) i) as [v Hv].
    { rewrite <- (run_active_length FIND_COMPONENTS (graph_engine.active e)).
      fold r. rewrite <- (deliver_length msgs). by eapply lookup_lt_Some. }
    destruct (run_active_pointwise (graph_engine.active e) i _ v Hv)
      as (v1 & Hv1 & Hc1 & Hn1). fold r in Hv1.
    destruct (deliver_pointwise msgs i r.1 v1 Hv1) as (w' & Hw' & Hle & Hs & Hm & Hr).
    assert (w' = w) as -> by congruence.
    by exists v, v1. }
  split.
  - apply Forall_forall. intros w Hw. apply list_elem_of_lookup in Hw as [i Hw].
    destruct (Hstep i w Hw) as (v & v1 & Hv & Hv1 & Hc1 & _ & _ & _ & _ & Hr).
    apply Hr. unfold label_in_range. rewrite Hc1.
    eapply Forall_forall in Hrange; [exact Hrange|]. by eapply list_elem_of_lookup_2.
  - split.
    { intros i w Hw.
      destruct (Hstep i w Hw) as (v & v1 & Hv & Hv1 & Hc1 & _ & Hle & _ & _ & _).
      specialize (Hown i v Hv). lia. }
    intros i w vertex dest wd Hw Hu Hg Hd Hwd.
    destruct (Hstep i w Hw) as (v & v1 & Hv & Hv1 & Hc1 & Hn1 & _ & Hs & _ & _).
    specialize (Hs Hu). subst w.
    apply get_vertex_Some in Hwd as [Hdest Hwd].
    destruct (Hstep _ wd Hwd) as (vd & vd1 & Hvd & Hvd1 & Hcd1 & _ & Hled & _ & Hmd & _).
    destruct (wcc_vertex.updated v) eqn:Huv.
    + (* the vertex ran in this superstep and sent its label to [dest] *)
      assert (Hin : (dest, component_message.new (wcc_vertex.component_id v1)) ∈ msgs).
      { subst msgs. eapply (serve_messages graph r.2 r.1 (Z.of_nat i)).
        - by destruct (run_active_find (graph_engine.active e) (graph_engine.vertices e))
            as (_ & Hreq & _ & _).
        - rewrite <- (Hids i v Hv). subst r.
          apply (run_active_requests _ _ i v Hv); [|done]. by apply (Hact i v).
        - apply get_vertex_Some. split; [lia|]. by rewrite Nat2Z.id.
        - apply get_vertex_Some. split; [lia|]. by rewrite Nat2Z.id.
        - done. }
      rewrite <- (Z2Nat.id dest) in Hin by done.
      specialize (Hmd _ Hin). rewrite component_message_round_trip in Hmd; [done|].
      rewrite Hc1. eapply Forall_forall in Hrange; [exact Hrange|].
      by eapply list_elem_of_lookup_2.
    + (* the vertex was at rest: its neighbours were already below it *)
      specialize (Hn1 eq_refl). subst v1.
      assert (wcc_vertex.component_id vd <= wcc_vertex.component_id v); [|lia].
      eapply (Hnb i v vertex dest vd); try done.
      apply get_vertex_Some. by split.
Qed.

Lemma wait4complete_propagation_inv graph fuel : forall e vs,
  (Z.of_nat (length graph) <= 2 ^ 32) ->
  propagation_inv graph e ->
  graph_engine.wait4complete fuel FIND_COMPONENTS graph e = Some vs ->
  propagation_inv graph {| graph_engine.vertices := vs; graph_engine.active := [] |}.
Proof.
  induction fuel as [|fuel IH]; intros e vs Hsize Hinv Hw; [done|]. simpl in Hw.
  destruct (graph_engine.active e) eqn:Hact.
  - injection Hw as <-. destruct e as [vs0 act]. simpl in *. by subst act.
  - apply (IH _ _ Hsize (superstep_propagation_inv graph e Hsize Hinv) Hw).
Qed.

Lemma create_index_propagation_inv graph :
  (Z.of_nat (length graph) <= 2 ^ 32) ->
  propagation_inv graph (graph_engine.start_all (create_index graph)).
Proof.
  intros Hsize. split; [apply start_all_create_index|].
  split; [apply create_index_ids_ok|]. simpl. split.
  - apply Forall_forall. intros v Hv. unfold create_index in Hv.
    apply list_elem_of_fmap in Hv as (i & -> & Hi). apply elem_of_seq in Hi.
    unfold label_in_range, UINT_MAX. simpl. lia.
  - split.
    + intros i v Hv. rewrite <- (create_index_ids_ok graph i v Hv).
      unfold create_index in Hv.
      apply list_lookup_fmap_Some in Hv as (j & -> & _). done.
    + intros i v vertex dest w Hv Hu. unfold create_index in Hv.
      apply list_lookup_fmap_Some in Hv as (j & -> & _). done.
Qed.

(** X2.  On a graph of at most 2^32 vertices, when the FIND_COMPONENTS run
    has ended no flag is set, every label is at most the id of its vertex,
    and no vertex has a neighbour, through an in-edge or an out-edge, with a
    larger label; so two vertices that list each other carry the same
    label. *)
Theorem wcc_labels_at_quiescence (graph : list page_vertex.t) (fuel : nat)
  (vs : list wcc_vertex.t) :
  Z.of_nat (length graph) <= 2 ^ 32 ->
  graph_engine.wait4complete fuel FIND_COMPONENTS graph
    (graph_engine.start_all (create_index graph)) = Some vs ->
  length vs = length graph /\
  forall (i : nat) v vertex,
    vs !! i = Some v -> graph !! i = Some vertex ->
    wcc_vertex.updated v = false /\
    0 <= wcc_vertex.component_id v <= Z.of_nat i /\
    forall dest w,
      dest ∈ page_vertex.get_neigh vertex BOTH_EDGES ->
      get_vertex vs dest = Some w ->
      wcc_vertex.component_id w <= wcc_vertex.component_id v /\
      (forall vertex', get_vertex graph dest = Some vertex' ->
         Z.of_nat i ∈ page_vertex.get_neigh vertex' BOTH_EDGES ->
         wcc_vertex.component_id w = wcc_vertex.component_id v).
Proof.
  intros Hsize Hw.
  pose proof (wait4complete_propagation_inv graph fuel _ vs Hsize
                (create_index_propagation_inv graph Hsize) Hw)
    as (Hact & Hids & Hrange & Hown & Hnb). simpl in *.
  assert (Hlen : length vs = length graph).
  { rewrite <- (length_fmap wcc_vertex.get_id vs), (wait4complete_ids _ _ _ _ _ Hw).
    simpl. by rewrite length_fmap, length_create_index. }
  split; [done|]. intros i v vertex Hv Hg.
  assert (Hrest : forall (j : nat) u, vs !! j = Some u -> wcc_vertex.updated u = false).
  { intros j u Hu. destruct (wcc_vertex.updated u) eqn:Huu; [|done].
    specialize (Hact j u Hu Huu). inversion Hact. }
  split; [by apply (Hrest i)|]. split.
  { split; [|by apply Hown]. eapply Forall_forall in Hrange;
      [apply Hrange|by eapply list_elem_of_lookup_2]. }
  intros dest w Hd Hwd.
  assert (Hle : wcc_vertex.component_id w <= wcc_vertex.component_id v).
  { apply (Hnb i v vertex dest w); try done. by apply (Hrest i). }
  split; [done|]. intros vertex' Hg' Hback.
  apply Z.le_antisymm; [done|].
  apply get_vertex_Some in Hwd as [Hdest Hwd].
  apply get_vertex_Some in Hg' as [_ Hg'].
  apply (Hnb (Z.to_nat dest) w vertex' (Z.of_nat i) v); try done.
  - by apply (Hrest (Z.to_nat dest)).
  - apply get_vertex_Some. split; [lia|]. by rewrite Nat2Z.id.
Qed.

Lemma wcc_labels_at_quiescence_witness :
  wcc_vertex.component_id <$> clique_vertices = [0; 0; 0; 3; 3; 3; 6] /\
  length clique_vertices = length clique_graph.
Proof.
  split; [reflexivity|].
  apply (proj1 (wcc_labels_at_quiescence clique_graph 4 clique_vertices
                  ltac:(simpl; lia) eq_refl)).
Defined.

(** ** [compute_wcc] and the weakly connected components *)

Lemma serve_messages_origin graph reqs vs dest msg :
  Forall is_request_vertices reqs ->
  (dest, msg) ∈ (graph_engine.serve graph reqs vs).2 ->
  exists id v vertex,
    get_vertex vs id = Some v /\ get_vertex graph id = Some vertex /\
    dest ∈ page_vertex.get_neigh vertex BOTH_EDGES /\
    msg = component_message.new (wcc_vertex.component_id v).
Proof.
  intros Hreq. induction Hreq as [|[id|id] reqs Hr Hreq IH]; intros Hin.
  - inversion Hin.
  - cbn [graph_engine.serve] in Hin.
    destruct (graph_engine.serve graph reqs vs) as [vs' msgs] eqn:Hserve.
    cbn [snd] in *. apply elem_of_app in Hin as [Hin|Hin]; [|by apply IH].
    destruct (get_vertex vs id) as [v|] eqn:Hv; [|inversion Hin].
    destruct (get_vertex graph id) as [vertex|] eqn:Hg; [|inversion Hin].
    unfold wcc_vertex.run_on_vertex in Hin.
    apply list_elem_of_fmap in Hin as (d & Heq & Hd). injection Heq as -> ->.
    by exists id, v, vertex.
  - done.
Qed.

Lemma deliver_label_origin msgs (i : nat) : forall vs v w,
  vs !! i = Some v -> graph_engine.deliver msgs vs !! i = Some w ->
  wcc_vertex.component_id w = wcc_vertex.component_id v \/
  exists msg, (Z.of_nat i, msg) ∈ msgs /\
              wcc_vertex.component_id w = component_message.get_id msg.
Proof.
  induction msgs as [|[dest msg] msgs IH]; intros vs v w Hv Hw.
  { simpl in Hw. left. congruence. }
  cbn [graph_engine.deliver] in Hw.
  set (vs' := graph_engine.update_vertex (wcc_vertex.run_on_message msg) dest vs) in *.
  assert (Hv' : exists v', vs' !! i = Some v' /\
            (wcc_vertex.component_id v' = wcc_vertex.component_id v \/
             (dest = Z.of_nat i /\
              wcc_vertex.component_id v' = component_message.get_id msg))).
  { subst vs'. rewrite update_vertex_lookup.
    destruct (decide (dest = Z.of_nat i)) as [->|Hne]; [|by exists v; auto].
    rewrite Hv. simpl. eexists. split; [done|].
    destruct (run_on_message_cases msg v) as [[_ ->]|[_ ->]]; simpl; auto. }
  destruct Hv' as (v' & Hv' & Hor).
  destruct (IH vs' v' w Hv' Hw) as [Heq|(m & Hm & Heq)].
  - destruct Hor as [Hsame|[-> Hmsg]]; [left; congruence|].
    right. exists msg. split; [by left|congruence].
  - right. exists m. split; [by right|done].
Qed.

Lemma weakly_connected_neighbour graph i j k :
  neighbour graph j i -> weakly_connected graph j k -> weakly_connected graph i k.
Proof.
  intros Hn Hc. unfold weakly_connected, rtsc in *.
  eapply rtc_l; [|exact Hc]. by right.
Qed.

Lemma superstep_labels_reachable graph e :
  propagation_inv graph e ->
  labels_reachable graph (graph_engine.vertices e) ->
  labels_reachable graph
    (graph_engine.vertices (graph_engine.superstep FIND_COMPONENTS graph e)).
Proof.
  intros (_ & _ & Hrange & _ & _) Hreach.
  rewrite superstep_find_unfold. cbv zeta. cbn [graph_engine.vertices].
  set (r := graph_engine.run_active FIND_COMPONENTS (graph_engine.active e)
              (graph_engine.vertices e)) in *.
  set (msgs := (graph_engine.serve graph r.2 r.1).2).
  assert (Hr1 : forall (i : nat) v1,
            r.1 !! i = Some v1 ->
            exists v, graph_engine.vertices e !! i = Some v /\
                      wcc_vertex.component_id v1 = wcc_vertex.component_id v).
  { intros i v1 Hv1.
    destruct (lookup_lt_is_Some_2 (graph_engine.vertices e) i) as [v Hv].
    { rewrite <- (run_active_length FIND_COMPONENTS (graph_engine.active e)).
      fold r. by eapply lookup_lt_Some. }
    destruct (run_active_pointwise (graph_engine.active e) i _ v Hv)
      as (v1' & Hv1' & Hc1 & _). fold r in Hv1'.
    exists v. split; [done|]. congruence. }
  intros i w Hw.
  destruct (lookup_lt_is_Some_2 r.1 i) as [v1 Hv1].
  { rewrite <- (deliver_length msgs). by eapply lookup_lt_Some. }
  destruct (deliver_label_origin msgs i r.1 v1 w Hv1 Hw) as [Heq|(msg & Hmsg & Heq)].
  - destruct (Hr1 i v1 Hv1) as (v & Hv & Hc). rewrite Heq, Hc. by apply Hreach.
  - subst msgs. apply serve_messages_origin in Hmsg
      as (id & v' & vertex & Hv' & Hg & Hd & ->).
    2:{ by destruct (run_active_find (graph_engine.active e) (graph_engine.vertices e))
          as (_ & Hreq & _ & _). }
    apply get_vertex_Some in Hv' as [Hid Hv'].
    apply get_vertex_Some in Hg as [_ Hg].
    destruct (Hr1 _ v' Hv') as (v & Hv & Hc).
    destruct (Hreach _ v Hv) as (k & Hk & Hconn).
    exists k. split.
    + rewrite Heq, Hc, component_message_round_trip; [done|].
      eapply Forall_forall in Hrange; [exact Hrange|].
      by eapply list_elem_of_lookup_2.
    + apply (weakly_connected_neighbour graph i (Z.to_nat id)); [|done].
      by exists vertex.
Qed.

Lemma wait4complete_labels_reachable graph fuel : forall e vs,
  (Z.of_nat (length graph) <= 2 ^ 32) ->
  propagation_inv graph e ->
  labels_reachable graph (graph_engine.vertices e) ->
  graph_engine.wait4complete fuel FIND_COMPONENTS graph e = Some vs ->
  labels_reachable graph vs.
Proof.
  induction fuel as [|fuel IH]; intros e vs Hsize Hinv Hreach Hw; [done|].
  simpl in Hw. destruct (graph_engine.active e) eqn:Hact.
  - by injection Hw as <-.
  - apply (IH _ _ Hsize (superstep_propagation_inv graph e Hsize Hinv)
             (superstep_labels_reachable graph e Hinv Hreach) Hw).
Qed.

Lemma create_index_labels_reachable graph :
  labels_reachable graph (create_index graph).
Proof.
  intros i v Hv. unfold create_index in Hv.
  apply list_lookup_fmap_Some in Hv as (j & -> & Hj).
  apply lookup_seq in Hj as [-> _]. exists i. split; [done|].
  unfold weakly_connected, rtsc. done.
Qed.

Lemma weakly_connected_has_edges graph i j :
  edges_mutual graph -> weakly_connected graph i j ->
  i = j \/
  exists vertex, graph !! j = Some vertex /\
                 page_vertex.get_num_edges vertex BOTH_EDGES <> 0.
Proof.
  intros Hmutual Hc. unfold weakly_connected, rtsc in Hc.
  apply rtc_inv_r in Hc as [->|(m & _ & Hstep)]; [by left|]. right.
  assert (Hn : neighbour graph j m) by (destruct Hstep; auto).
  destruct Hn as (vertex & Hg & Hin). exists vertex. split; [done|].
  unfold page_vertex.get_num_edges. simpl in Hin.
  destruct (page_vertex.in_edges vertex), (page_vertex.out_edges vertex);
    simpl in *; try lia. inversion Hin.
Qed.

Lemma find_components_labels graph fuel vs :
  Z.of_nat (length graph) <= 2 ^ 32 ->
  edges_valid graph -> edges_mutual graph ->
  graph_engine.wait4complete fuel FIND_COMPONENTS graph
    (graph_engine.start_all (create_index graph)) = Some vs ->
  forall (i : nat) v,
    vs !! i = Some v ->
    exists k : nat,
      wcc_vertex.component_id v = Z.of_nat k /\
      weakly_connected graph i k /\
      forall j, weakly_connected graph i j ->
                (k <= j)%nat /\
                exists w, vs !! j = Some w /\
                          wcc_vertex.component_id w = Z.of_nat k.
Proof.
  intros Hsize Hvalid Hmutual Hw.
  pose proof (wait4complete_propagation_inv graph fuel _ vs Hsize
                (create_index_propagation_inv graph Hsize) Hw)
    as (Hact & Hids & Hrange & Hown & Hnb). simpl in *.
  pose proof (wait4complete_labels_reachable graph fuel _ vs Hsize
                (create_index_propagation_inv graph Hsize)
                (create_index_labels_reachable graph) Hw) as Hreach.
  assert (Hlen : length vs = length graph).
  { rewrite <- (length_fmap wcc_vertex.get_id vs), (wait4complete_ids _ _ _ _ _ Hw).
    simpl. by rewrite length_fmap, length_create_index. }
  assert (Hrest : forall (j : nat) u, vs !! j = Some u -> wcc_vertex.updated u = false).
  { intros j u Hu. destruct (wcc_vertex.updated u) eqn:Huu; [|done].
    specialize (Hact j u Hu Huu). inversion Hact. }
  assert (Hle : forall i j v, vs !! i = Some v -> neighbour graph i j ->
            exists w, vs !! j = Some w /\
                      wcc_vertex.component_id w <= wcc_vertex.component_id v).
  { intros i j v Hv (vertex & Hg & Hin).
    destruct (lookup_lt_is_Some_2 vs j) as [w Hwj].
    { specialize (Hvalid i vertex _ Hg Hin). unfold valid_id in Hvalid. lia. }
    exists w. split; [done|].
    apply (Hnb i v vertex (Z.of_nat j) w); try done; [by apply (Hrest i)|].
    apply get_vertex_Some. split; [lia|]. by rewrite Nat2Z.id. }
  assert (Hstep : forall i j v, vs !! i = Some v -> sc (neighbour graph) i j ->
            exists w, vs !! j = Some w /\
                      wcc_vertex.component_id w = wcc_vertex.component_id v).
  { intros i j v Hv Hsc.
    assert (Hij : neighbour graph i j) by (destruct Hsc; auto).
    destruct (Hle i j v Hv Hij) as (w & Hwj & Hle1).
    destruct (Hle j i w Hwj (Hmutual _ _ Hij)) as (v' & Hv' & Hle2).
    exists w. split; [done|]. assert (v' = v) as -> by congruence. lia. }
  assert (Hall : forall i j, weakly_connected graph i j ->
            forall v, vs !! i = Some v ->
            exists w, vs !! j = Some w /\
                      wcc_vertex.component_id w = wcc_vertex.component_id v).
  { intros i j Hc. unfold weakly_connected, rtsc in Hc.
    induction Hc as [i|i m j Him Hmj IH]; intros v Hv; [by exists v|].
    destruct (Hstep i m v Hv Him) as (u & Hu & Heq).
    destruct (IH u Hu) as (w & Hwj & Heq'). exists w. split; [done|]. congruence. }
  intros i v Hv. destruct (Hreach i v Hv) as (k & Hk & Hconn).
  exists k. split; [done|]. split; [done|].
  intros j Hj. destruct (Hall i j Hj v Hv) as (w & Hwj & Heq).
  split; [|exists w; split; [done|congruence]].
  specialize (Hown j w Hwj). lia.
Qed.

Lemma compute_wcc_entries INVALID_VERTEX_ID fuel graph vec :
  compute_wcc INVALID_VERTEX_ID fuel graph = Some vec ->
  exists vs,
    graph_engine.wait4complete fuel FIND_COMPONENTS graph
      (graph_engine.start_all (create_index graph)) = Some vs /\
    forall (i : nat) vertex,
      graph !! i = Some vertex ->
      page_vertex.get_num_edges vertex BOTH_EDGES <> 0 ->
      vec !! i = wcc_vertex.component_id <$> vs !! i.
Proof.
  intros Hc. unfold compute_wcc in Hc.
  destruct (graph_engine.wait4complete fuel FIND_COMPONENTS _ _) as [vs1|] eqn:H1;
    [|done].
  simpl in Hc.
  destruct (graph_engine.wait4complete fuel REMOVE_EMPTY _ _) as [vs2|] eqn:H2;
    [|done].
  simpl in Hc. injection Hc as <-.
  pose proof (wait4complete_ids _ _ _ _ _ H1) as Hids1. simpl in Hids1.
  assert (Hok1 : ids_ok vs1).
  { eapply ids_ok_fmap; [exact Hids1|]. apply create_index_ids_ok. }
  pose proof (wait4complete_ids _ _ _ _ _ H2) as Hids2. simpl in Hids2.
  assert (Hok2 : ids_ok vs2) by (by eapply ids_ok_fmap).
  destruct (wait4complete_remove _ _ _ _ Hok1 H2) as [Hcomp Hempty].
  assert (Hlen2 : length vs2 = length graph).
  { rewrite <- (length_fmap wcc_vertex.get_id vs2), Hids2, Hids1.
    by rewrite length_fmap, length_create_index. }
  destruct (query_on_all_save_cid INVALID_VERTEX_ID vs2 (replicate (length vs2) 0)
              Hok2) as [Hlen Hval].
  { by rewrite length_replicate. }
  exists vs1. split; [done|]. intros i vertex Hg Hn.
  destruct (lookup_lt_is_Some_2 vs2 i) as [v2 Hv2].
  { rewrite Hlen2. by eapply lookup_lt_Some. }
  rewrite (Hval i v2 Hv2). unfold saved_cid.
  rewrite (Hempty i v2 vertex Hv2 Hg), (proj2 (Z.eqb_neq _ _) Hn).
  assert (Hl : (wcc_vertex.component_id <$> vs2) !! i
               = Some (wcc_vertex.component_id v2))
    by (by rewrite list_lookup_fmap, Hv2).
  by rewrite Hcomp, list_lookup_fmap in Hl.
Qed.

(** X12.  On a graph file of at most 2^32 vertices in which every edge
    names a vertex of the file and is listed at both of its ends, the entry
    that [compute_wcc] returns for a vertex with edges is the smallest id
    among the vertices weakly connected to it, and every vertex weakly
    connected to it has the same entry; two vertices with edges that have
    the same entry are weakly connected (engine supersteps modelled from the
    spec). *)
Theorem compute_wcc_smallest_id (INVALID_VERTEX_ID : vertex_id_t) (fuel : nat)
  (graph : list page_vertex.t) (vec : list vertex_id_t) :
  Z.of_nat (length graph) <= 2 ^ 32 ->
  edges_valid graph -> edges_mutual graph ->
  compute_wcc INVALID_VERTEX_ID fuel graph = Some vec ->
  forall (i : nat) vertex,
    graph !! i = Some vertex ->
    page_vertex.get_num_edges vertex BOTH_EDGES <> 0 ->
    exists k : nat,
      vec !! i = Some (Z.of_nat k) /\
      weakly_connected graph i k /\
      (forall j, weakly_connected graph i j ->
                 (k <= j)%nat /\ vec !! j = Some (Z.of_nat k)) /\
      (forall j vertex',
          graph !! j = Some vertex' ->
          page_vertex.get_num_edges vertex' BOTH_EDGES <> 0 ->
          vec !! j = Some (Z.of_nat k) -> weakly_connected graph i j).
Proof.
  intros Hsize Hvalid Hmutual Hc.
  destruct (compute_wcc_entries _ _ _ _ Hc) as (vs & Hw & Hvec).
  pose proof (find_components_labels graph fuel vs Hsize Hvalid Hmutual Hw) as Hlabels.
  assert (Hlen : length vs = length graph).
  { rewrite <- (length_fmap wcc_vertex.get_id vs), (wait4complete_ids _ _ _ _ _ Hw).
    simpl. by rewrite length_fmap, length_create_index. }
  assert (Hentry : forall (i : nat) vertex,
            graph !! i = Some vertex ->
            page_vertex.get_num_edges vertex BOTH_EDGES <> 0 ->
            exists v, vs !! i = Some v /\
                      vec !! i = Some (wcc_vertex.component_id v)).
  { intros i vertex Hg Hn.
    destruct (lookup_lt_is_Some_2 vs i) as [v Hv].
    { rewrite Hlen. by eapply lookup_lt_Some. }
    exists v. split; [done|]. by rewrite (Hvec i vertex Hg Hn), Hv. }
  intros i vertex Hg Hn.
  destruct (Hentry i vertex Hg Hn) as (v & Hv & Hi).
  destruct (Hlabels i v Hv) as (k & Hk & Hconn & Hmin).
  exists k. split; [by rewrite Hi, Hk|]. split; [done|]. split.
  - intros j Hj. destruct (Hmin j Hj) as (Hkj & w & Hwj & Hkw). split; [done|].
    destruct (weakly_connected_has_edges graph i j Hmutual Hj)
      as [<-|(vertex' & Hg' & Hn')].
    + by rewrite Hi, Hk.
    + destruct (Hentry j vertex' Hg' Hn') as (w' & Hw' & Hj').
      assert (w' = w) as -> by congruence. by rewrite Hj', Hkw.
  - intros j vertex' Hg' Hn' Hj.
    destruct (Hentry j vertex' Hg' Hn') as (w & Hwj & Hj').
    destruct (Hlabels j w Hwj) as (k' & Hk' & Hconn' & _).
    assert (k' = k) as -> by (rewrite Hj' in Hj; injection Hj as Hj; lia).
    unfold weakly_connected in *. etrans; [exact Hconn|]. by symmetry.
Qed.

Lemma clique_graph_edges_valid : edges_valid clique_graph.
Proof.
  intros i vertex dest Hg Hin. unfold valid_id. simpl.
  do 7 (destruct i as [|i];
        [injection Hg as <-; simpl in Hin;
         repeat (apply elem_of_cons in Hin as [->|Hin]; [lia|]); inversion Hin|]).
  inversion Hg.
Qed.

Lemma clique_graph_edges_mutual : edges_mutual clique_graph.
Proof.
  intros i j (vertex & Hg & Hin).
  do 7 (destruct i as [|i];
        [injection Hg as <-; simpl in Hin;
         repeat (apply elem_of_cons in Hin as [Hj|Hin];
                 [apply (f_equal Z.to_nat) in Hj; rewrite Nat2Z.id in Hj;
                  subst j; eexists; split; [reflexivity|simpl; set_solver]|]);
         inversion Hin|]).
  inversion Hg.
Qed.

Lemma compute_wcc_smallest_id_witness :
  exists k : nat,
    [0; 0; 0; 3; 3; 3; UINT_MAX] !! 4%nat = Some (Z.of_nat k) /\
    weakly_connected clique_graph 4%nat k /\
    (forall j, weakly_connected clique_graph 4%nat j ->
               (k <= j)%nat /\
               [0; 0; 0; 3; 3; 3; UINT_MAX] !! j = Some (Z.of_nat k)) /\
    (forall j vertex',
        clique_graph !! j = Some vertex' ->
        page_vertex.get_num_edges vertex' BOTH_EDGES <> 0 ->
        [0; 0; 0; 3; 3; 3; UINT_MAX] !! j = Some (Z.of_nat k) ->
        weakly_connected clique_graph 4%nat j).
Proof.
  exact (compute_wcc_smallest_id UINT_MAX 10 clique_graph
           [0; 0; 0; 3; 3; 3; UINT_MAX] ltac:(simpl; lia)
           clique_graph_edges_valid clique_graph_edges_mutual eq_refl
           4%nat _ eq_refl ltac:(simpl; lia)).
Defined.

(** ** [create_file] *)

Lemma decimal_value_snoc ds d :
  decimal_value (ds ++ [d]) = 10 * decimal_value ds + d.
Proof. unfold decimal_value. by rewrite foldl_app. Qed.

Lemma decimal_value_nonneg ds : Forall is_digit ds -> 0 <= decimal_value ds.
Proof.
  induction ds as [|d ds IH] using rev_ind; intros Hds; [done|].
  apply Forall_app in Hds as [Hds Hd]. rewrite Forall_singleton in Hd.
  rewrite decimal_value_snoc. specialize (IH Hds). unfold is_digit in Hd. lia.
Qed.

Lemma digit_char_code d :
  is_digit d -> Z.of_nat (nat_of_ascii (digit_char d)) = 48 + d.
Proof.
  intros Hd. unfold digit_char, is_digit in *.
  rewrite nat_ascii_embedding; lia.
Qed.

Lemma digit_char_no_unit d : is_digit d -> unit_factor (digit_char d) = None.
Proof.
  intros Hd. unfold is_digit in Hd.
  assert (d = 0 \/ d = 1 \/ d = 2 \/ d = 3 \/ d = 4 \/ d = 5 \/ d = 6 \/ d = 7
          \/ d = 8 \/ d = 9) as Hcases by lia.
  repeat destruct Hcases as [->|Hcases]; try subst d; reflexivity.
Qed.

Lemma digits_atol_from_spec ds : forall acc,
  Forall is_digit ds ->
  digits_atol_from acc (digit_char <$> ds) = foldl (fun acc d => 10 * acc + d) acc ds.
Proof.
  induction ds as [|d ds IH]; intros acc Hds; [done|].
  apply Forall_cons in Hds as [Hd Hds].
  rewrite fmap_cons. cbn [digits_atol_from foldl].
  rewrite (digit_char_code d Hd). unfold is_digit in Hd.
  rewrite (proj2 (Z.leb_le _ _)), (proj2 (Z.leb_le _ _)) by lia. cbn [andb].
  rewrite IH by done. f_equal. lia.
Qed.

Lemma digits_atol_reads_decimal : reads_decimal digits_atol.
Proof. intros ds Hds _. by apply digits_atol_from_spec. Qed.


Section create_file_facts.

Variable atol : list ascii -> Z.
Variable bytes_of_long : Z -> list Byte.byte.
Hypothesis atol_decimal : reads_decimal atol.
Hypothesis length_bytes_of_long :
  forall x, Z.of_nat (length (bytes_of_long x)) = create_file.sizeof_long.






Lemma parse_size_snoc arg unit :
  create_file.parse_size atol (arg ++ [unit])
  = match unit_factor unit with
    | Some factor => create_file.long_mul (atol arg) factor
    | None => Some (atol arg)
    end.
Proof.
  unfold create_file.parse_size. rewrite last_snoc. cbn [mbind option_bind].
  rewrite length_app. cbn [length].
  replace (length arg + 1 - 1)%nat with (length arg) by lia.
  rewrite take_app_length.
  destruct unit as [[] [] [] [] [] [] [] []]; reflexivity.
Qed.

(** X13.  [create_file] reads its size argument by taking the last
    character for the unit and giving the rest to [atol]: digits followed by
    G, M or K (in either case) give the number times 2^30, 2^20 or 2^10,
    as long as the product is a [long]; digits alone lose their last digit,
    so that the size is the number written divided by ten; and on the empty
    string the subscript is outside the string. *)
Theorem parse_size_units (ds : list Z) :
  Forall is_digit ds -> decimal_value ds <= create_file.LONG_MAX ->
  (forall unit factor,
      unit_factor unit = Some factor ->
      decimal_value ds * factor <= create_file.LONG_MAX ->
      create_file.parse_size atol ((digit_char <$> ds) ++ [unit])
      = Some (decimal_value ds * factor)) /\
  (forall d,
      is_digit d ->
      create_file.parse_size atol (digit_char <$> (ds ++ [d]))
      = Some (decimal_value (ds ++ [d]) / 10)) /\
  create_file.parse_size atol [] = None.
Proof.
  intros Hds Hfit. pose proof (decimal_value_nonneg ds Hds) as Hnonneg.
  split; [|split; [|done]].
  - intros unit factor Hunit Hprod.
    rewrite parse_size_snoc, Hunit, (atol_decimal ds Hds Hfit).
    unfold create_file.long_mul. rewrite decide_True; [done|].
    assert (0 < factor).
    { unfold unit_factor in Hunit.
      repeat (destruct (_ || _) in Hunit; [injection Hunit as <-; lia|]). done. }
    unfold create_file.LONG_MIN. split; [|done]. nia.
  - intros d Hd. rewrite fmap_app. cbn [fmap list_fmap].
    rewrite parse_size_snoc, (digit_char_no_unit d Hd), (atol_decimal ds Hds Hfit).
    rewrite decimal_value_snoc. f_equal. unfold is_digit in Hd.
    apply Z.div_unique with d; lia.
Qed.


End create_file_facts.

Lemma parse_size_units_witness :
  (forall unit factor,
      unit_factor unit = Some factor ->
      decimal_value [1; 0; 2] * factor <= create_file.LONG_MAX ->
      create_file.parse_size digits_atol ((digit_char <$> [1; 0; 2]) ++ [unit])
      = Some (decimal_value [1; 0; 2] * factor)) /\
  (forall d,
      is_digit d ->
      create_file.parse_size digits_atol (digit_char <$> ([1; 0; 2] ++ [d]))
      = Some (decimal_value ([1; 0; 2] ++ [d]) / 10)) /\
  create_file.parse_size digits_atol [] = None.
Proof.
  apply (parse_size_units digits_atol digits_atol_reads_decimal [1; 0; 2]).
  - repeat constructor; unfold is_digit; lia.
  - vm_compute. discriminate.
Defined.

(** "1024" asks for 102 bytes, "1K" for 1024. *)
Example parse_size_example :
  create_file.parse_size digits_atol ["1"; "0"; "2"; "4"]%char = Some 102 /\
  create_file.parse_size digits_atol ["1"; "K"]%char = Some 1024.
Proof. split; reflexivity. Qed.


(** ** [compute_min_kmeans] *)

Section kmeans_facts.

Variable state : Type.
Variable EM_step : state -> state * Z.
Variable within_tolerance : Z -> bool.

Abbreviation main_loop := (kmeans.main_loop state EM_step within_tolerance).
Abbreviation converges_at := (turn_converges state EM_step within_tolerance).
Abbreviation state_after := (after_turns state EM_step).

Lemma after_turns_S n st :
  state_after (S n) st = (EM_step (state_after n st)).1.
Proof. revert st. induction n as [|n IH]; intros st; [done|]. simpl. apply IH. Qed.

Lemma turn_converges_spec st (n : nat) :
  converges_at st (S n) <->
  ((EM_step (state_after n st)).2 =? 0)
  || within_tolerance (EM_step (state_after n st)).2 = true.
Proof.
  unfold turn_converges. rewrite orb_true_iff, Z.eqb_eq.
  replace (S n - 1)%nat with n by lia. done.
Qed.

Lemma main_loop_spec MAX_ITERS iter_ st :
  forall st0 (done_turns : nat),
    Z.of_nat done_turns = iter_ - 1 ->
    st = state_after done_turns st0 ->
    (forall n, (1 <= n <= done_turns)%nat -> ~ converges_at st0 n) ->
    exists st' iter' converged,
      main_loop MAX_ITERS iter_ st = (st', iter', converged) /\
      st' = state_after (if converged then Z.to_nat iter' else Z.to_nat (iter' - 1)) st0 /\
      (forall n, (1 <= n)%nat -> Z.of_nat n < iter' -> ~ converges_at st0 n) /\
      (converged = true -> iter_ <= iter' < MAX_ITERS /\
                           converges_at st0 (Z.to_nat iter')) /\
      (converged = false -> iter' = Z.max iter_ MAX_ITERS).
Proof.
  funelim (kmeans.main_loop state EM_step within_tolerance MAX_ITERS iter_ st);
    intros st0 done_turns Hdone Hst Hbefore.
  - (* the loop is left by its condition *)
    clear Heqcall H. apply Z.ltb_ge in e.
    exists st, iter_, false. split; [done|]. split.
    { replace (Z.to_nat (iter_ - 1)) with done_turns by lia. done. }
    split; [intros n H1 Hn; apply Hbefore; lia|]. split; [done|]. lia.
  - (* the turn converges *)
    clear Heqcall H. apply Z.ltb_lt in e.
    assert (Hturn : Z.to_nat iter_ = S done_turns) by lia.
    exists st', iter_, true. split; [done|]. split.
    { rewrite Hturn, after_turns_S, <- Hst, Heq0. done. }
    split; [intros n H1 Hn; apply Hbefore; lia|]. split; [|done].
    intros _. split; [lia|]. rewrite Hturn. apply turn_converges_spec.
    by rewrite <- Hst, Heq0.
  - (* the turn does not converge *)
    clear Heqcall H0. apply Z.ltb_lt in e.
    destruct (H st0 (S done_turns)) as (st2 & iter' & converged & Hloop & Hst2 & Hno & Hc & Hn).
    + lia.
    + by rewrite after_turns_S, <- Hst, Heq0.
    + intros n Hn. destruct (decide (n = S done_turns)) as [->|Hne].
      * rewrite turn_converges_spec, <- Hst, Heq0. simpl. by rewrite Heq.
      * apply Hbefore. lia.
    + exists st2, iter', converged. split; [done|]. split; [done|].
      split; [done|]. split.
      * intros Hconv. destruct (Hc Hconv) as [Hrange Hturn]. split; [lia|done].
      * intros Hconv. rewrite (Hn Hconv). lia.
Qed.

(** X15.  [compute_min_kmeans] counts its iterations from 1, so its main
    loop runs at most [MAX_ITERS - 1] times.  If it reports convergence, the
    value returned is the number of the first turn that met the convergence
    test and is below [MAX_ITERS]; otherwise no turn met the test and the
    value returned is [MAX_ITERS], or 1 when [MAX_ITERS] is 0. *)
Theorem kmeans_iterations (MAX_ITERS : Z) (st : state) :
  exists st' iter' converged,
    kmeans.compute_min_kmeans state EM_step within_tolerance MAX_ITERS st
    = (st', iter', converged) /\
    (forall n, (1 <= n)%nat -> Z.of_nat n < iter' -> ~ converges_at st n) /\
    (converged = true ->
     1 <= iter' < MAX_ITERS /\ converges_at st (Z.to_nat iter') /\
     st' = state_after (Z.to_nat iter') st) /\
    (converged = false ->
     iter' = Z.max 1 MAX_ITERS /\ st' = state_after (Z.to_nat (iter' - 1)) st).
Proof.
  destruct (main_loop_spec MAX_ITERS 1 st st 0%nat)
    as (st' & iter' & converged & Hloop & Hst & Hno & Hc & Hn);
    [done|done|intros n ?; lia|].
  exists st', iter', converged. split; [done|]. split; [done|].
  split; intros Hconv; rewrite Hconv in Hst.
  - destruct (Hc Hconv). done.
  - split; [by apply Hn|done].
Qed.

End kmeans_facts.

(** With the toy step from state 3, the third turn is the first without a
    change; from state 8 nothing converges within [MAX_ITERS] of 3, 1, 0. *)
Example kmeans_iterations_example :
  (kmeans.compute_min_kmeans nat toy_EM_step (fun _ => false) 10 3%nat).1.2 = 3 /\
  (kmeans.compute_min_kmeans nat toy_EM_step (fun _ => false) 3 8%nat).1.2 = 3 /\
  (kmeans.compute_min_kmeans nat toy_EM_step (fun _ => false) 1 8%nat).1.2 = 1 /\
  (kmeans.compute_min_kmeans nat toy_EM_step (fun _ => false) 0 8%nat).1.2 = 1.
Proof. repeat split; reflexivity. Qed.
